(** * Midas Pro OSC server: endpoint catalog and console client

    A shallow embedding of [src/endpoints.ts] (the endpoint catalog) and of
    [src/osc-client.ts] (the [MidasOscClient] class), followed by the
    properties of the two components.

    Conventions of the embedding:
    - a JavaScript string is a [string]; its characters stand for the code
      units below 256 (the Latin-1 range), on which [toLowerCase],
      [split(/\s+/)] and [includes] are written out;
    - a plain JavaScript object used as a record of named entries is the
      list of its own entries in enumeration order ([Object.entries]). A
      read [o[k]] is the read of an own entry: what a plain object inherits
      from [Object.prototype] is left out, and so is the place that
      enumeration gives to the names that are array indices. The statements
      that depend on either say so: they are about names that
      [Object.prototype] does not define ([own_names]) and about tables
      with no numeric group name ([numeric]);
    - a [Map] is a [gmap], a [Set] a [gset];
    - a JavaScript number is [number]: a rational, one of the two
      infinities, or [NaN]; [Math.max], [Math.min] and [Math.round] are
      exact on it;
    - [async] methods are state transformers; every [await] on the
      transport or on a timer is a point where the environment may run
      (time passes, the listener callback fires), and between two such
      points no time passes; calls on the client do not overlap;
    - the clock and the timeout of [getValue] count whole milliseconds;
    - the operations of the transport library succeed, but for one: a
      message with an integer argument outside the signed 32-bit range is
      refused by the encoder with a [RangeError], and is not sent. *)

From Stdlib Require Import ZArith QArith Qround Lia List String Ascii Bool.
From Stdlib Require Import DecimalString Lqa.
From stdpp Require Import base option list strings gmap.

Local Open Scope Z_scope.
Local Open Scope string_scope.
Local Open Scope list_scope.
Local Open Scope stdpp_scope.

(** ** JavaScript strings *)

Module JsString.

Definition code (c : ascii) : N := N_of_ascii c.

(** [String.prototype.toLowerCase] on one code unit below 256: the
    letters A-Z and the Latin-1 capitals (all of 0xC0-0xDE except the
    multiplication sign 0xD7) move up by 32. *)
Definition lower_char (c : ascii) : ascii :=
  let n := code c in
  if ((65 <=? n) && (n <=? 90))%N
     || ((192 <=? n) && (n <=? 222) && negb (n =? 215))%N
  then ascii_of_N (n + 32)
  else c.

Fixpoint toLowerCase (s : string) : string :=
  match s with
  | EmptyString => EmptyString
  | String c r => String (lower_char c) (toLowerCase r)
  end.

(** The class [\s] of a regular expression, below 256: TAB, LF, VT, FF,
    CR, SPACE and NO-BREAK SPACE. *)
Definition is_space (c : ascii) : bool :=
  let n := code c in
  (((9 <=? n) && (n <=? 13)) || (n =? 32) || (n =? 160))%N.

(** [s.split(/\s+/)]: [cur] is the piece being read, [in_run] says that
    the previous character belonged to a separator. A leading or a
    trailing separator yields an empty piece, and the empty string
    splits into one empty piece. *)
Fixpoint split_loop (s cur : string) (in_run : bool) : list string :=
  match s with
  | EmptyString => [cur]
  | String c r =>
      if is_space c then
        if in_run then split_loop r cur true
        else cur :: split_loop r EmptyString true
      else split_loop r (cur +:+ String c EmptyString) false
  end.

Definition split_ws (s : string) : list string :=
  split_loop s EmptyString false.

(** [s.includes(t)] *)
Fixpoint includes (s t : string) : bool :=
  String.prefix t s ||
  match s with
  | EmptyString => false
  | String _ r => includes r t
  end.

(** [parts.join(sep)] *)
Definition join (sep : string) (parts : list string) : string :=
  String.concat sep parts.

(** Truthiness of a string value: only the empty string is falsy. *)
Definition truthy (s : string) : bool := negb (String.eqb s EmptyString).

Fixpoint all_chars (p : ascii -> bool) (s : string) : bool :=
  match s with
  | EmptyString => true
  | String c r => p c && all_chars p r
  end.

(** [t] occurs in [s] as a contiguous run of characters. *)
Definition Substring (t s : string) : Prop :=
  exists pre post, s = pre +:+ t +:+ post.

End JsString.
Import JsString.

(** ** JavaScript numbers *)

Inductive number : Type :=
| NaN
| NegInfinity
| Finite (q : Q)
| PosInfinity.

(** [a <= b] for two numbers that are not [NaN]. *)
Definition number_leb (a b : number) : bool :=
  match a, b with
  | NaN, _ | _, NaN => false
  | NegInfinity, _ => true
  | _, PosInfinity => true
  | Finite x, Finite y => Qle_bool x y
  | Finite _, NegInfinity => false
  | PosInfinity, _ => false
  end.

Definition is_NaN (a : number) : bool :=
  match a with NaN => true | _ => false end.

(** [a < b], false as soon as one of them is [NaN]. *)
Definition number_ltb (a b : number) : bool :=
  negb (is_NaN a || is_NaN b) && negb (number_leb b a).

(** [Math.max(a, b)] and [Math.min(a, b)] return one of their arguments,
    and [NaN] as soon as one of them is [NaN]. *)
Definition Math_max (a b : number) : number :=
  if is_NaN a || is_NaN b then NaN
  else if number_leb a b then b else a.

Definition Math_min (a b : number) : number :=
  if is_NaN a || is_NaN b then NaN
  else if number_leb a b then a else b.

(** [Math.round(a)]: the nearest integer, a tie going up. *)
Definition Math_round (a : number) : number :=
  match a with
  | Finite q => Finite (inject_Z (Qfloor (q + (1 # 2))))
  | _ => a
  end.

(** ** Types of the catalog ([src/endpoints.ts]) *)

Inductive OscMessageType : Type :=
| enPPCFaderMessage
| enPPCRotaryMessage
| enPPCSwitchMessage
| enPPCStringMessage
| enPPCMeterMessage
| enPPCOtherMessage.

(** The string a message type is at run time. *)
Definition type_name (t : OscMessageType) : string :=
  match t with
  | enPPCFaderMessage => "enPPCFaderMessage"
  | enPPCRotaryMessage => "enPPCRotaryMessage"
  | enPPCSwitchMessage => "enPPCSwitchMessage"
  | enPPCStringMessage => "enPPCStringMessage"
  | enPPCMeterMessage => "enPPCMeterMessage"
  | enPPCOtherMessage => "enPPCOtherMessage"
  end.

#[global] Instance OscMessageType_eq_dec : EqDecision OscMessageType.
Proof. solve_decision. Defined.

(** ["float" | "integer" | "string"]; [null] is [None]. *)
Inductive ArgumentType : Type := ArgFloat | ArgInteger | ArgString.

Record EndpointSpec : Type := {
  multiPath : bool;
  type : OscMessageType;
  argumentType : option ArgumentType;
  description : string;
  isAbsolute : option bool
}.

Record SearchResult : Type := {
  sr_group : string;
  sr_endpoint : string;
  sr_spec : EndpointSpec;
  oscPath : string
}.

Record SearchOptions : Type := {
  opt_group : option string;
  opt_type : option OscMessageType
}.

(** ** Objects as ordered records of entries *)

Module JsObject.

Definition t (V : Type) : Type := list (string * V).

(** [o[k]] for a name [k] that [Object.prototype] does not define: the
    own entry of that name, [None] standing for [undefined]. *)
Fixpoint get {V} (o : t V) (k : string) : option V :=
  match o with
  | [] => None
  | (k', v) :: r => if String.eqb k' k then Some v else get r k
  end.

(** [o[k] = v] for a name [k] that is not an array index: an existing
    entry keeps its place, a new one goes last. *)
Fixpoint set {V} (o : t V) (k : string) (v : V) : t V :=
  match o with
  | [] => [(k, v)]
  | (k', v') :: r =>
      if String.eqb k' k then (k', v) :: r else (k', v') :: set r k v
  end.

(** [{ ...acc, ...o }], no name being an array index. *)
Definition assign {V} (acc o : t V) : t V :=
  fold_left (fun a kv => set a (fst kv) (snd kv)) o acc.

Definition keys {V} (o : t V) : list string := map fst o.

End JsObject.

Definition EndpointStore : Type := JsObject.t (JsObject.t EndpointSpec).

(** [GroupInfo]; [messageTypes] counts the endpoints of the group by message
    type, under the name of the type. *)
Record GroupInfo : Type := {
  name : string;
  endpointCount : nat;
  messageTypes : JsObject.t nat
}.

(** What [getStats] returns. *)
Record Stats : Type := {
  totalGroups : nat;
  totalEndpoints : nat;
  documentedEndpoints : nat;
  byMessageType : JsObject.t nat
}.

(** [counts[key] = (counts[key] ?? 0) + 1] *)
Definition tally (counts : JsObject.t nat) (key : string) : JsObject.t nat :=
  JsObject.set counts key (default 0%nat (JsObject.get counts key) + 1)%nat.

(** [spec.description && !spec.description.includes("(unknown)")] *)
Definition documented (spec : EndpointSpec) : bool :=
  truthy (description spec) && negb (includes (description spec) "(unknown)").

(** ** The catalog ([src/endpoints.ts])

    The two JSON tables under [data/] are data rather than code:
    [mainEndpoints] and [fxEndpoints] stand for what [loadJson] returns for
    them, whatever their content. [Number_toString] is the conversion of a number to a string that
    a template literal and [String(...)] apply. *)

Section Catalog.

Variable mainEndpoints : EndpointStore.
Variable fxEndpoints : EndpointStore.
Variable Number_toString : number -> string.

Definition getMainEndpoints : EndpointStore := mainEndpoints.

Definition getFxEndpoints : EndpointStore := fxEndpoints.

(** [{ ...getMainEndpoints(), ...getFxEndpoints() }] *)
Definition getAllEndpoints : EndpointStore :=
  JsObject.assign (JsObject.assign [] getMainEndpoints) getFxEndpoints.

(** [all[group]?.[endpoint] ?? null], both reads finding own entries. *)
Definition getEndpointInfo (group endpoint : string) : option EndpointSpec :=
  let all := getAllEndpoints in
  match JsObject.get all group with
  | Some groupData => JsObject.get groupData endpoint
  | None => None
  end.

Definition buildOscPath (group endpoint : string) (index : option number)
  : option string :=
  match getEndpointInfo group endpoint with
  | None => None
  | Some spec =>
      let path := "/" +:+ type_name (type spec) +:+ "/" +:+ group
                      +:+ "/" +:+ endpoint in
      let path :=
        match index with
        | Some i => if multiPath spec then path +:+ "/" +:+ Number_toString i
                    else path
        | None => path
        end in
      Some path
  end.

(** [options?.group && groupName !== options.group] *)
Definition group_skipped (options : option SearchOptions) (groupName : string)
  : bool :=
  match options with
  | Some {| opt_group := Some g |} =>
      truthy g && negb (String.eqb groupName g)
  | _ => false
  end.

(** [options?.type && spec.type !== options.type]; the name of a message
    type is never the empty string. *)
Definition type_skipped (options : option SearchOptions) (spec : EndpointSpec)
  : bool :=
  match options with
  | Some {| opt_type := Some ty |} =>
      truthy (type_name ty) && negb (bool_decide (type spec = ty))
  | _ => false
  end.

Definition searchable (groupName endpointName : string) (spec : EndpointSpec)
  : string :=
  toLowerCase
    (join " " [groupName; endpointName; description spec; type_name (type spec)]).

Definition make_result (groupName endpointName : string) (spec : EndpointSpec)
  : SearchResult :=
  {| sr_group := groupName;
     sr_endpoint := endpointName;
     sr_spec := spec;
     oscPath := "/" +:+ type_name (type spec) +:+ "/" +:+ groupName
                    +:+ "/" +:+ endpointName |}.

(** One turn of the inner loop, [results] being the array built so far. *)
Definition search_endpoint (options : option SearchOptions)
    (terms : list string) (groupName : string)
    (results : list SearchResult) (entry : string * EndpointSpec)
  : list SearchResult :=
  let '(endpointName, spec) := entry in
  if type_skipped options spec then results
  else if forallb (fun term => includes (searchable groupName endpointName spec) term)
                  terms
       then results ++ [make_result groupName endpointName spec]
       else results.

(** One turn of the outer loop. *)
Definition search_group (options : option SearchOptions)
    (terms : list string)
    (results : list SearchResult) (entry : string * JsObject.t EndpointSpec)
  : list SearchResult :=
  let '(groupName, endpoints) := entry in
  if group_skipped options groupName then results
  else fold_left (search_endpoint options terms groupName) endpoints results.

Definition searchEndpoints (query : string) (options : option SearchOptions)
  : list SearchResult :=
  let all := getAllEndpoints in
  let terms := split_ws (toLowerCase query) in
  fold_left (search_group options terms) all [].

Definition getGroupNames : list string := JsObject.keys getAllEndpoints.

(** The histogram [listGroups] builds for one group, spec after spec. *)
Definition count_types (specs : list EndpointSpec) : JsObject.t nat :=
  fold_left (fun messageTypes spec => tally messageTypes (type_name (type spec)))
            specs [].

Definition listGroups : list GroupInfo :=
  let all := getAllEndpoints in
  map (fun entry : string * JsObject.t EndpointSpec =>
         let '(name_, endpoints) := entry in
         {| name := name_;
            endpointCount := length (JsObject.keys endpoints);
            messageTypes := count_types (map snd endpoints) |})
      all.

(** The [{ endpoint, spec }] records are pairs; [all[group]] finds an own
    entry. *)
Definition listEndpoints (group : string) : option (list (string * EndpointSpec)) :=
  let all := getAllEndpoints in
  match JsObject.get all group with
  | None => None
  | Some groupData => Some (map (fun es => (fst es, snd es)) groupData)
  end.

(** One turn of the inner loop of [getStats] on the three counters. *)
Definition stats_endpoint (acc : nat * nat * JsObject.t nat) (spec : EndpointSpec)
  : nat * nat * JsObject.t nat :=
  let '(total, documented_, byType) := acc in
  (S total,
   if documented spec then S documented_ else documented_,
   tally byType (type_name (type spec))).

Definition getStats : Stats :=
  let all := getAllEndpoints in
  let '(total, documented_, byType) :=
    fold_left (fun acc endpoints => fold_left stats_endpoint (map snd endpoints) acc)
              (map snd all) (0%nat, 0%nat, []) in
  {| totalGroups := length (JsObject.keys all);
     totalEndpoints := total;
     documentedEndpoints := documented_;
     byMessageType := byType |}.

End Catalog.

(** ** Types of the client ([src/osc-client.ts]) *)

Record ConnectionConfig : Type := {
  ip : string;
  port : number;
  listenPort : number
}.

(** A value that is a number or a string: the [value] of [setValue] and
    the arguments of a received message. *)
Inductive JsValue : Type :=
| VNumber (n : number)
| VString (s : string).

Record OscResponse : Type := {
  address : string;
  args : list JsValue;
  timestamp : Z
}.

(** The objects of the transport library. A [Client] and a [Server] carry
    an identity, so that two sockets to the same place are told apart. *)
Record Client : Type := {
  client_id : nat;
  client_host : string;
  client_port : number
}.

Record Server : Type := {
  server_id : nat;
  server_port : number;
  server_host : string
}.

(** [{ type: "f" | "i" | "s", value }] *)
Inductive ArgTag : Type := TagF | TagI | TagS.

Record OscArg : Type := {
  arg_type : ArgTag;
  arg_value : JsValue
}.

Record Message : Type := {
  msg_address : string;
  msg_args : list OscArg
}.

(** What the environment does while the program waits: time passes, and
    datagrams reach the listening port. *)
Inductive EnvEvent : Type :=
| Elapse (ms : N)
| Inbound (addr : string) (arguments : list JsValue).

Definition Tick : Type := list EnvEvent.

(** The fields of [MidasOscClient], then the world around it: the clock
    read by [Date.now()], the sockets currently open, the messages handed
    to the send channel and sent by it (oldest first, with the sending
    client), and what the environment will do at the coming suspension
    points. *)
Record State : Type := {
  client : option Client;
  listener : option Server;
  config : option ConnectionConfig;
  responseBuffer : gmap string OscResponse;
  clock : Z;
  next_id : nat;
  open_clients : list Client;
  open_servers : list Server;
  outbox : list (Client * Message);
  schedule : list Tick
}.

Definition set_client (v : option Client) (st : State) : State :=
  {| client := v; listener := listener st; config := config st;
     responseBuffer := responseBuffer st; clock := clock st;
     next_id := next_id st; open_clients := open_clients st;
     open_servers := open_servers st; outbox := outbox st;
     schedule := schedule st |}.

Definition set_listener (v : option Server) (st : State) : State :=
  {| client := client st; listener := v; config := config st;
     responseBuffer := responseBuffer st; clock := clock st;
     next_id := next_id st; open_clients := open_clients st;
     open_servers := open_servers st; outbox := outbox st;
     schedule := schedule st |}.

Definition set_config (v : option ConnectionConfig) (st : State) : State :=
  {| client := client st; listener := listener st; config := v;
     responseBuffer := responseBuffer st; clock := clock st;
     next_id := next_id st; open_clients := open_clients st;
     open_servers := open_servers st; outbox := outbox st;
     schedule := schedule st |}.

Definition set_responseBuffer (v : gmap string OscResponse) (st : State) : State :=
  {| client := client st; listener := listener st; config := config st;
     responseBuffer := v; clock := clock st;
     next_id := next_id st; open_clients := open_clients st;
     open_servers := open_servers st; outbox := outbox st;
     schedule := schedule st |}.

Definition set_clock (v : Z) (st : State) : State :=
  {| client := client st; listener := listener st; config := config st;
     responseBuffer := responseBuffer st; clock := v;
     next_id := next_id st; open_clients := open_clients st;
     open_servers := open_servers st; outbox := outbox st;
     schedule := schedule st |}.

Definition set_world (n : nat) (cs : list Client) (ss : list Server)
    (out : list (Client * Message)) (st : State) : State :=
  {| client := client st; listener := listener st; config := config st;
     responseBuffer := responseBuffer st; clock := clock st;
     next_id := n; open_clients := cs;
     open_servers := ss; outbox := out;
     schedule := schedule st |}.

Definition set_schedule (v : list Tick) (st : State) : State :=
  {| client := client st; listener := listener st; config := config st;
     responseBuffer := responseBuffer st; clock := clock st;
     next_id := next_id st; open_clients := open_clients st;
     open_servers := open_servers st; outbox := outbox st;
     schedule := v |}.

(** A freshly constructed [MidasOscClient] in a world with no socket open. *)
Definition initial (now : Z) (sched : list Tick) : State :=
  {| client := None; listener := None; config := None;
     responseBuffer := ∅; clock := now;
     next_id := 0%nat; open_clients := []; open_servers := []; outbox := [];
     schedule := sched |}.

(** ** Outcomes of a call *)

(** What a call throws: an error the program makes with
    [new Error(message)], or the [RangeError] with which the encoder of the
    transport refuses a number. *)
Inductive Error : Type :=
| new_Error (message : string)
| RangeError (value : number).

(** [err.message]; the text of the range error is the one the runtime
    gives it, [RangeError_message]. *)
Definition message (RangeError_message : number -> string) (err : Error) : string :=
  match err with
  | new_Error text => text
  | RangeError value => RangeError_message value
  end.

Inductive Outcome (A : Type) : Type :=
| Returned (a : A)
| Threw (e : Error)
| Pending.

Arguments Returned {A} a.
Arguments Threw {A} e.
Arguments Pending {A}.

(** A method body: it runs from a state to an outcome and a state.
    [Pending] is the outcome of a wait loop cut off by the bound put on the
    number of its turns. *)
Definition M (A : Type) : Type := State -> Outcome A * State.

Definition ret {A} (a : A) : M A := fun st => (Returned a, st).

Definition throw {A} (e : Error) : M A :=
  fun st => (Threw e, st).

Definition bind {A B} (m : M A) (k : A -> M B) : M B :=
  fun st =>
    match m st with
    | (Returned a, st') => k a st'
    | (Threw e, st') => (Threw e, st')
    | (Pending, st') => (Pending, st')
    end.

Definition modify (f : State -> State) : M unit :=
  fun st => (Returned tt, f st).

Definition gets {A} (f : State -> A) : M A :=
  fun st => (Returned (f st), st).

Declare Scope client_scope.
Delimit Scope client_scope with client.
Notation "x <- m ;; k" := (bind m (fun x => k))
  (at level 100, m at next level, right associativity) : client_scope.
Notation "m ;;; k" := (bind m (fun _ => k))
  (at level 100, right associativity) : client_scope.
Local Open Scope client_scope.

(** ** The environment at a suspension point *)

(** The callback registered by [connect] on the listener:
    [responseBuffer.set(address, { address, args, timestamp: Date.now() })].
    A datagram that finds no listener open is lost. *)
Definition run_event (ev : EnvEvent) (st : State) : State :=
  match ev with
  | Elapse ms => set_clock (clock st + Z.of_N ms) st
  | Inbound addr arguments =>
      match listener st with
      | Some _ =>
          set_responseBuffer
            (<[addr := {| address := addr; args := arguments;
                          timestamp := clock st |}]> (responseBuffer st)) st
      | None => st
      end
  end.

Definition run_tick (tk : Tick) (st : State) : State :=
  fold_left (fun s ev => run_event ev s) tk st.

(** [await] on an operation of the transport: the next tick of the schedule
    runs; an exhausted schedule is a quiet environment. *)
Definition yield : M unit :=
  fun st =>
    match schedule st with
    | [] => (Returned tt, st)
    | tk :: rest => (Returned tt, run_tick tk (set_schedule rest st))
    end.

(** [await new Promise((resolve) => setTimeout(resolve, ms))]: the next tick
    runs, and the timer does not fire before [ms] milliseconds are over. *)
Definition sleep (ms : Z) : M unit :=
  fun st =>
    let '(_, st') := yield st in
    (Returned tt, set_clock (Z.max (clock st') (clock st + ms)) st').

(** ** The transport library *)

(** [new Client(host, port)] *)
Definition new_Client (host : string) (p : number) : M Client :=
  fun st =>
    let c := {| client_id := next_id st; client_host := host; client_port := p |} in
    (Returned c,
     set_world (S (next_id st)) (open_clients st ++ [c]) (open_servers st)
               (outbox st) st).

(** [new Server(port, host)] *)
Definition new_Server (p : number) (host : string) : M Server :=
  fun st =>
    let s := {| server_id := next_id st; server_port := p; server_host := host |} in
    (Returned s,
     set_world (S (next_id st)) (open_clients st) (open_servers st ++ [s])
               (outbox st) st).

(** [await client.close()] *)
Definition Client_close (c : Client) : M unit :=
  modify (fun st =>
    set_world (next_id st)
      (filter (fun c' => client_id c' ≠ client_id c) (open_clients st))
      (open_servers st) (outbox st) st) ;;;
  yield.

(** [server.close()] *)
Definition Server_close (s : Server) : M unit :=
  modify (fun st =>
    set_world (next_id st) (open_clients st)
      (filter (fun s' => server_id s' ≠ server_id s) (open_servers st))
      (outbox st) st).

(** The encoder of the transport library writes an argument of type ["i"]
    as a signed 32-bit integer, the way [Buffer.writeInt32BE] does: a number
    above 2^31 - 1 or below -2^31 is out of range, and [NaN], being
    neither, is not. *)
Definition out_of_int32 (v : number) : bool :=
  number_ltb (Finite 2147483647) v || number_ltb v (Finite (-2147483648)).

(** The error the encoder raises for an argument, if any: a [RangeError]
    for an integer out of range. A float and a string are written whatever
    they are. *)
Definition encoding_error (a : OscArg) : option Error :=
  match arg_type a, arg_value a with
  | TagI, VNumber v => if out_of_int32 v then Some (RangeError v) else None
  | _, _ => None
  end.

(** [await client.send(msg)]: the message is encoded, then sent. A message
    the encoder refuses is not sent, and the call throws. *)
Definition Client_send (c : Client) (msg : Message) : M unit :=
  match omap encoding_error (msg_args msg) with
  | e :: _ => throw e
  | [] =>
      modify (fun st =>
        set_world (next_id st) (open_clients st) (open_servers st)
                  (outbox st ++ [(c, msg)]) st) ;;;
      yield
  end.

(** ** The client ([src/osc-client.ts]) *)

(** [new Set(["enRebootConsole", "enResetGlobalsToDefault"])] *)
Definition DANGEROUS_ENDPOINTS : gset string :=
  {[ "enRebootConsole"; "enResetGlobalsToDefault" ]}.

(** [get isConnected()] *)
Definition isConnected (this : State) : bool :=
  match client this with Some _ => true | None => false end.

(** [get connectionInfo()] *)
Definition connectionInfo (this : State) : option ConnectionConfig :=
  config this.

(** [isDangerous(endpoint)], a method: it receives the object and ignores it. *)
Definition isDangerous (this : State) (endpoint : string) : bool :=
  bool_decide (endpoint ∈ DANGEROUS_ENDPOINTS).

Definition disconnect : M unit :=
  c <- gets client ;;
  match c with
  | Some c => Client_close c ;;; modify (set_client None)
  | None => ret tt
  end ;;;
  l <- gets listener ;;
  match l with
  | Some l => Server_close l ;;; modify (set_listener None)
  | None => ret tt
  end ;;;
  modify (set_config None) ;;;
  modify (set_responseBuffer ∅).

(** [connect(ip, port = 10023, listenPort = 10024)]; an argument left out
    is [None]. Registering the callback on the new listener is what makes
    [run_event] deliver to [responseBuffer] from here on. *)
Definition connect (ip_ : string) (port_ listenPort_ : option number) : M unit :=
  let port_ := default (Finite 10023) port_ in
  let listenPort_ := default (Finite 10024) listenPort_ in
  c <- gets client ;;
  match c with
  | Some _ => disconnect
  | None => ret tt
  end ;;;
  modify (set_config (Some {| ip := ip_; port := port_; listenPort := listenPort_ |})) ;;;
  c <- new_Client ip_ port_ ;;
  modify (set_client (Some c)) ;;;
  l <- new_Server listenPort_ "0.0.0.0" ;;
  modify (set_listener (Some l)).

(** [String(value)] *)
Definition String_of (Number_toString : number -> string) (v : JsValue) : string :=
  match v with
  | VNumber n => Number_toString n
  | VString s => s
  end.

(** [typeof value] *)
Definition typeof (v : JsValue) : string :=
  match v with
  | VNumber _ => "number"
  | VString _ => "string"
  end.

(** The errors thrown by the client. *)
Definition NotConnected : Error :=
  new_Error "Not connected. Use the connect tool first.".

Definition InvalidEndpoint (group endpoint : string) : Error :=
  new_Error ("Invalid endpoint: " +:+ group +:+ "/" +:+ endpoint).

Definition ReadOnlyViolation (endpoint : string) : Error :=
  new_Error ("Endpoint " +:+ endpoint
               +:+ " is read-only (meter) and cannot be set.").

Definition PathFailure (group endpoint : string) : Error :=
  new_Error ("Failed to build OSC path for " +:+ group +:+ "/" +:+ endpoint).

Definition TypeMismatch (expected : string) (v : JsValue) : Error :=
  new_Error ("Expected a number for " +:+ expected +:+ " argument, got "
               +:+ typeof v).

(** [!path] for [path : string | null] *)
Definition no_path (path : option string) : bool :=
  match path with
  | Some p => negb (truthy p)
  | None => true
  end.

Section Client.

Variable mainEndpoints : EndpointStore.
Variable fxEndpoints : EndpointStore.
Variable Number_toString : number -> string.

(** The wait loop of [getValue]. [fuel] bounds the number of turns. *)
Fixpoint poll (fuel : nat) (path : string) (timeoutMs deadline : Z)
  : M (option OscResponse) :=
  match fuel with
  | O => fun st => (Pending, st)
  | S fuel' =>
      now <- gets clock ;;
      if (now <? deadline)%Z then
        response <- gets (fun st => responseBuffer st !! path) ;;
        now <- gets clock ;;
        match response with
        | Some r =>
            if (timestamp r >? now - timeoutMs)%Z then ret (Some r)
            else sleep 50 ;;; poll fuel' path timeoutMs deadline
        | None => sleep 50 ;;; poll fuel' path timeoutMs deadline
        end
      else ret None
  end.

(** [getValue(group, endpoint, index?, timeoutMs = 2000)], the timeout in
    whole milliseconds. Every turn of the loop sleeps 50 ms or more, so the
    loop is over within [timeoutMs] turns. *)
Definition getValue (group endpoint : string) (index : option number)
    (timeoutMs_ : option Z) : M (option OscResponse) :=
  let timeoutMs := default 2000 timeoutMs_ in
  c <- gets client ;;
  match c with
  | None => throw NotConnected
  | Some c =>
      let path := buildOscPath mainEndpoints fxEndpoints Number_toString
                               group endpoint index in
      if no_path path then throw (InvalidEndpoint group endpoint)
      else
        let path := default "" path in
        modify (fun st => set_responseBuffer (delete path (responseBuffer st)) st) ;;;
        Client_send c {| msg_address := path; msg_args := [] |} ;;;
        now <- gets clock ;;
        let deadline := (now + timeoutMs)%Z in
        poll (S (Z.to_nat timeoutMs)) path timeoutMs deadline
  end.

Definition setValue (group endpoint : string) (value : JsValue)
    (index : option number) : M unit :=
  c <- gets client ;;
  match c with
  | None => throw NotConnected
  | Some c =>
      match getEndpointInfo mainEndpoints fxEndpoints group endpoint with
      | None => throw (InvalidEndpoint group endpoint)
      | Some spec =>
          match argumentType spec with
          | None => throw (ReadOnlyViolation endpoint)
          | Some argTy =>
              let path := buildOscPath mainEndpoints fxEndpoints Number_toString
                                       group endpoint index in
              if no_path path then throw (PathFailure group endpoint)
              else
                let path := default "" path in
                let send a :=
                  Client_send c {| msg_address := path; msg_args := [a] |} in
                match argTy with
                | ArgFloat =>
                    match value with
                    | VString _ => throw (TypeMismatch "float" value)
                    | VNumber v =>
                        let v :=
                          match type spec with
                          | enPPCFaderMessage =>
                              Math_max (Finite (1 # 10000000))
                                (Math_min (Finite (9999999 # 10000000)) v)
                          | _ => Math_max (Finite 0) (Math_min (Finite 1) v)
                          end in
                        send {| arg_type := TagF; arg_value := VNumber v |}
                    end
                | ArgInteger =>
                    match value with
                    | VString _ => throw (TypeMismatch "integer" value)
                    | VNumber v =>
                        send {| arg_type := TagI;
                                arg_value := VNumber (Math_round v) |}
                    end
                | ArgString =>
                    send {| arg_type := TagS;
                            arg_value := VString (String_of Number_toString value) |}
                end
          end
      end
  end.

(** One call on the client, and the state it leaves. *)
Inductive Call : Type :=
| CallConnect (ip_ : string) (port_ listenPort_ : option number)
| CallDisconnect
| CallGetValue (group endpoint : string) (index : option number)
               (timeoutMs : option Z)
| CallSetValue (group endpoint : string) (value : JsValue)
               (index : option number).

Definition run_call (c : Call) (st : State) : State :=
  match c with
  | CallConnect i p l => snd (connect i p l st)
  | CallDisconnect => snd (disconnect st)
  | CallGetValue g e i t => snd (getValue g e i t st)
  | CallSetValue g e v i => snd (setValue g e v i st)
  end.

(** The states of a client: a fresh one, and from a state of the client,
    the state after a call and the state after the environment has run
    between two calls. *)
Inductive reachable : State -> Prop :=
| reachable_initial now sched : reachable (initial now sched)
| reachable_call c st : reachable st -> reachable (run_call c st)
| reachable_env tk st : reachable st -> reachable (run_tick tk st).

(** What happens to a client between two calls of interest: a call, or the
    environment running. *)
Inductive Activity : Type :=
| Do (c : Call)
| Env (tk : Tick).

Definition run_activity (st : State) (a : Activity) : State :=
  match a with
  | Do c => run_call c st
  | Env tk => run_tick tk st
  end.

End Client.

(** ** The tools ([src/tools/knowledge.ts], [src/tools/control.ts])

    The handlers registered on the server, on the one shared client
    [midasClient]. A handler receives arguments that the schema of the
    tool has checked and completed with its defaults. [JSON_stringify] and
    [JSON_stringify_args] stand for [JSON.stringify] on a value and on a
    list of arguments, [RangeError_message] for the text of the range error
    of the runtime. *)

(** [{ content: [{ type: "text", text }], isError }], [isError] left out
    being [false]. *)
Record ToolResult : Type := {
  text : string;
  isError : bool
}.

(** The line feed of ["\n"] and the double quote. *)
Definition LF : string := String (ascii_of_nat 10) EmptyString.

Definition QUOTE : string := String (ascii_of_nat 34) EmptyString.

(** [try { body } catch (err) { handler }] *)
Definition try_catch {A} (body : M A) (handler : Error -> M A) : M A :=
  fun st =>
    match body st with
    | (Threw e, st') => handler e st'
    | other => other
    end.

(** The name an argument type is at run time. *)
Definition argument_name (a : ArgumentType) : string :=
  match a with
  | ArgFloat => "float"
  | ArgInteger => "integer"
  | ArgString => "string"
  end.

(** [`${path}`] for [path : string | null] *)
Definition show_path (path : option string) : string :=
  default "null" path.

Section Tools.

Variable mainEndpoints : EndpointStore.
Variable fxEndpoints : EndpointStore.
Variable Number_toString : number -> string.
Variable JSON_stringify : JsValue -> string.
Variable JSON_stringify_args : list JsValue -> string.
Variable RangeError_message : number -> string.

(** The handler of [build_osc_command]. *)
Definition build_osc_command (group endpoint : string) (index : option number)
  : ToolResult :=
  match getEndpointInfo mainEndpoints fxEndpoints group endpoint with
  | None =>
      {| text := "Endpoint " +:+ QUOTE +:+ endpoint +:+ QUOTE
                   +:+ " not found in group " +:+ QUOTE +:+ group +:+ QUOTE +:+ ".";
         isError := true |}
  | Some spec =>
      if multiPath spec && negb (bool_decide (is_Some index)) then
        {| text := "This endpoint requires an index (0-based) because it controls multiple instances. Add an index parameter.";
           isError := true |}
      else
        let path := show_path (buildOscPath mainEndpoints fxEndpoints
                                 Number_toString group endpoint index) in
        let lines := [ "OSC Path: " +:+ path;
                       "";
                       "To GET current value: Send " +:+ path
                         +:+ " with no arguments" ] in
        let lines :=
          match argumentType spec with
          | Some a =>
              lines ++ [ "To SET value: Send " +:+ path +:+ " with "
                           +:+ argument_name a +:+ " argument" ]
          | None => lines ++ [ "This endpoint is read-only (no SET operation)." ]
          end in
        {| text := join LF lines; isError := false |}
  end.

(** The handler of [connect]. *)
Definition connect_tool (ip_ : string) (port_ listen_port : number) : M ToolResult :=
  try_catch
    (connect ip_ (Some port_) (Some listen_port) ;;;
     ret {| text := "Connected to Midas console at " +:+ ip_ +:+ ":"
                      +:+ Number_toString port_ +:+ LF
                      +:+ "Listening for responses on port "
                      +:+ Number_toString listen_port;
            isError := false |})
    (fun err =>
       ret {| text := "Failed to connect: " +:+ message RangeError_message err; isError := true |}).

(** The handler of [disconnect]. *)
Definition disconnect_tool : M ToolResult :=
  disconnect ;;;
  ret {| text := "Disconnected from Midas console."; isError := false |}.

(** The handler of [connection_status]. Reading a property of [null]
    throws a [TypeError]. *)
Definition connection_status : M ToolResult :=
  connected <- gets isConnected ;;
  if negb connected then
    ret {| text := "Not connected to any console. Use the connect tool to connect.";
           isError := false |}
  else
    info <- gets connectionInfo ;;
    match info with
    | None => throw (new_Error "Cannot read properties of null (reading 'ip')")
    | Some info =>
        ret {| text := "Connected to " +:+ ip info +:+ ":"
                         +:+ Number_toString (port info) +:+ LF
                         +:+ "Listening on port "
                         +:+ Number_toString (listenPort info);
               isError := false |}
    end.

(** The handler of [get_value]. *)
Definition get_value (group endpoint : string) (index : option number)
  : M ToolResult :=
  connected <- gets isConnected ;;
  if negb connected then
    ret {| text := "Not connected. Use the connect tool first."; isError := true |}
  else
    try_catch
      (response <- getValue mainEndpoints fxEndpoints Number_toString
                            group endpoint index None ;;
       let path := buildOscPath mainEndpoints fxEndpoints Number_toString
                                group endpoint index in
       match response with
       | None =>
           ret {| text := "No response received for " +:+ show_path path
                            +:+ " within timeout. The console may not support this query, or the response port may be misconfigured.";
                  isError := false |}
       | Some response =>
           ret {| text := join LF [ "Path: " +:+ address response;
                                    "Value: " +:+ JSON_stringify_args (args response) ];
                  isError := false |}
       end)
      (fun err => ret {| text := "Error: " +:+ message RangeError_message err; isError := true |}).

(** The handler of [set_value]. *)
Definition set_value (group endpoint : string) (value : JsValue)
    (index : option number) : M ToolResult :=
  connected <- gets isConnected ;;
  if negb connected then
    ret {| text := "Not connected. Use the connect tool first."; isError := true |}
  else
    dangerous <- gets (fun this => isDangerous this endpoint) ;;
    if dangerous then
      ret {| text := "BLOCKED: " +:+ QUOTE +:+ endpoint +:+ QUOTE
                       +:+ " is a potentially destructive command (could reboot or reset the console). This command requires manual confirmation. If you really intend to do this, please confirm explicitly.";
             isError := true |}
    else
      try_catch
        (match getEndpointInfo mainEndpoints fxEndpoints group endpoint with
         | None =>
             ret {| text := "Endpoint " +:+ QUOTE +:+ endpoint +:+ QUOTE
                              +:+ " not found in group " +:+ QUOTE +:+ group
                              +:+ QUOTE +:+ ".";
                    isError := true |}
         | Some _ =>
             setValue mainEndpoints fxEndpoints Number_toString
                      group endpoint value index ;;;
             let path := buildOscPath mainEndpoints fxEndpoints Number_toString
                                      group endpoint index in
             ret {| text := "Sent: " +:+ show_path path +:+ " = "
                              +:+ JSON_stringify value;
                    isError := false |}
         end)
        (fun err => ret {| text := "Error: " +:+ message RangeError_message err; isError := true |}).

End Tools.

(** ** Vocabulary of the statements *)

(** The (group, endpoint, spec) triples of a store, in enumeration order. *)
Definition triples (all : EndpointStore) : list (string * string * EndpointSpec) :=
  flat_map (fun ge => map (fun es => (fst ge, fst es, snd es)) (snd ge)) all.

Definition result_of (tr : string * string * EndpointSpec) : SearchResult :=
  make_result (fst (fst tr)) (snd (fst tr)) (snd tr).

(** The type filter: exact match with the type asked for, if any. *)
Definition type_kept (options : option SearchOptions) (spec : EndpointSpec) : bool :=
  match options with
  | Some {| opt_type := Some ty |} => bool_decide (type spec = ty)
  | _ => true
  end.

(** The group filter read as an exact match whenever a group is given. *)
Definition group_kept_stated (options : option SearchOptions) (g : string) : bool :=
  match options with
  | Some {| opt_group := Some grp |} => String.eqb g grp
  | _ => true
  end.

(** The group filter as exact match with a group that is given and is not
    the empty string. *)
Definition group_kept (options : option SearchOptions) (g : string) : bool :=
  match options with
  | Some {| opt_group := Some grp |} =>
      if truthy grp then String.eqb g grp else true
  | _ => true
  end.

(** The four fields put end to end, lowercased. *)
Definition concatenation (g e : string) (spec : EndpointSpec) : string :=
  toLowerCase (g +:+ e +:+ description spec +:+ type_name (type spec)).

(** The search read word for word: both filters as exact matches, every
    term a substring of the plain concatenation of the four fields. *)
Definition search_as_stated (all : EndpointStore) (query : string)
    (options : option SearchOptions) : list (string * string * EndpointSpec) :=
  List.filter
    (fun tr =>
       let '(g, e, spec) := tr in
       group_kept_stated options g && type_kept options spec &&
       forallb (fun term => includes (concatenation g e spec) term)
               (split_ws (toLowerCase query)))
    (triples all).

(** The test a triple passes to be in the result of the search. *)
Definition kept (query : string) (options : option SearchOptions)
    (tr : string * string * EndpointSpec) : bool :=
  let '(g, e, spec) := tr in
  group_kept options g && type_kept options spec &&
  forallb (fun term => includes (searchable g e spec) term)
          (split_ws (toLowerCase query)).

(** No filter asked for. *)
Definition no_filters (options : option SearchOptions) : Prop :=
  options = None \/ options = Some {| opt_group := None; opt_type := None |}.

(** The pair is an entry of the store. *)
Definition in_catalog (all : EndpointStore) (group endpoint : string) : Prop :=
  exists endpoints spec, In (group, endpoints) all /\ In (endpoint, spec) endpoints.

(** An activity that uses the session and neither opens nor closes one. *)
Definition session_use (a : Activity) : Prop :=
  match a with
  | Do (CallGetValue _ _ _ _) | Do (CallSetValue _ _ _ _) | Env _ => True
  | Do (CallConnect _ _ _) | Do CallDisconnect => False
  end.

(** The send client, the listener and the configuration are all absent,
    with nothing buffered and no socket open, or all present, the two
    sockets open being exactly the ones the client holds, made from the
    stored configuration. *)
Definition coherent (st : State) : Prop :=
  match client st, listener st, config st with
  | None, None, None =>
      responseBuffer st = ∅ /\ open_clients st = [] /\ open_servers st = []
  | Some c, Some l, Some cfg =>
      open_clients st = [c] /\ open_servers st = [l] /\
      client_host c = ip cfg /\ client_port c = port cfg /\
      server_port l = listenPort cfg /\ server_host l = "0.0.0.0" /\
      (client_id c < next_id st)%nat /\ (server_id l < next_id st)%nat
  | _, _, _ => False
  end.

(** The session is the same in both states. *)
Definition same_session (st st' : State) : Prop :=
  client st' = client st /\ listener st' = listener st /\
  config st' = config st /\ next_id st' = next_id st /\
  open_clients st' = open_clients st /\ open_servers st' = open_servers st.

(** From [st] to [st'] time has not gone back, and a response buffered in
    [st'] was buffered in [st] already or is the record of one of the
    datagrams [evs] received in between. *)
Definition evolves (evs : list EnvEvent) (st st' : State) : Prop :=
  clock st <= clock st' /\
  forall path resp,
    responseBuffer st' !! path = Some resp ->
    responseBuffer st !! path = Some resp \/
    (address resp = path /\ clock st <= timestamp resp <= clock st' /\
     In (Inbound path (args resp)) evs).

(** From [st] to [st'] the ticks [used] of the schedule have run. *)
Definition progress (used : list Tick) (st st' : State) : Prop :=
  schedule st = used ++ schedule st' /\ same_session st st' /\
  evolves (concat used) st st'.

(** The names of the members of [Object.prototype]. On a plain object
    with no entry of that name, the read [o[k]] of one of them finds the
    inherited member, where [JsObject.get] has [None]. *)
Definition Object_prototype_names : list string :=
  [ "constructor"; "__defineGetter__"; "__defineSetter__"; "hasOwnProperty";
    "__lookupGetter__"; "__lookupSetter__"; "isPrototypeOf";
    "propertyIsEnumerable"; "toString"; "valueOf"; "__proto__";
    "toLocaleString" ].

Definition inherited (k : string) : bool :=
  existsb (String.eqb k) Object_prototype_names.

(** Neither the group nor the endpoint is a name that [Object.prototype]
    defines: [all[group]?.[endpoint]] reads own entries only. *)
Definition own_names (group endpoint : string) : Prop :=
  inherited group = false /\ inherited endpoint = false.

(** A name made of decimal digits only. The names that are array indices,
    which enumeration puts before all others, are among these. *)
Definition numeric (k : string) : bool :=
  truthy k && all_chars (fun ch => (48 <=? code ch)%N && (code ch <=? 57)%N) k.

(** No group of the table has a numeric name. *)
Definition no_numeric_name (store : EndpointStore) : Prop :=
  Forall (fun k => numeric k = false) (JsObject.keys store).

(** The term is a substring of none of the four fields of any endpoint of
    the store, the fields taken as they stand. *)
Definition in_no_field (all : EndpointStore) (term : string) : Prop :=
  forall g e spec,
    In (g, e, spec) (triples all) ->
    ~ Substring term g /\ ~ Substring term e /\
    ~ Substring term (description spec) /\
    ~ Substring term (type_name (type spec)).

Definition is_number (v : JsValue) : bool :=
  match v with VNumber _ => true | VString _ => false end.

(** The four reasons for [setValue] to fail, [info] being what the catalog
    holds for the endpoint. *)
Definition setValue_fails (st : State) (info : option EndpointSpec)
    (value : JsValue) : Prop :=
  client st = None \/ info = None \/
  exists spec, info = Some spec /\
    (argumentType spec = None \/
     (is_number value = false /\
      (argumentType spec = Some ArgFloat \/ argumentType spec = Some ArgInteger))).

(** A fifth reason: the endpoint takes an integer, and the value rounded
    does not fit the 32 bits of the wire. *)
Definition integer_overflow (info : option EndpointSpec) (value : JsValue)
  : Prop :=
  exists spec v,
    info = Some spec /\ argumentType spec = Some ArgInteger /\
    value = VNumber v /\ out_of_int32 (Math_round v) = true.

(** [n] fits a signed 32-bit integer. *)
Definition int32 (n : Z) : Prop := -2147483648 <= n <= 2147483647.

(** The call returns, the send channel of [c] having sent one message to
    [path] with the one argument [a], and has left the session as it
    was. *)
Definition sends (res : Outcome unit * State) (st : State) (c : Client)
    (path : string) (a : OscArg) : Prop :=
  fst res = Returned tt /\
  outbox (snd res) = outbox st ++ [(c, {| msg_address := path; msg_args := [a] |})] /\
  same_session st (snd res).

(** [v] is [q] brought into the interval from [lo] to [hi]. *)
Definition clamped (lo hi q v : Q) : Prop :=
  (lo <= v <= hi)%Q /\
  (q <= lo -> v == lo)%Q /\
  (hi <= q -> v == hi)%Q /\
  (lo <= q <= hi -> v == q)%Q.

(** The entries of a histogram add up to this. *)
Definition sum_counts (counts : JsObject.t nat) : nat :=
  sum_list (map snd counts).

(** The number of specs of a message type. *)
Definition count_of (ty : OscMessageType) (specs : list EndpointSpec) : nat :=
  length (List.filter (fun spec => bool_decide (type spec = ty)) specs).

(** What a histogram holds for a count: nothing for zero. *)
Definition as_count (n : nat) : option nat :=
  match n with
  | O => None
  | S _ => Some n
  end.

(** The records of the groups of a store name each endpoint once. *)
Definition distinct_endpoints (store : EndpointStore) : Prop :=
  Forall (fun ge => NoDup (JsObject.keys (snd ge))) store.

(** A table as [JSON.parse] gives it: no group named twice, no endpoint
    named twice in a group. *)
Definition parsed (store : EndpointStore) : Prop :=
  NoDup (JsObject.keys store) /\ distinct_endpoints store.

(** The time that goes by in a tick. *)
Definition elapsed (tk : Tick) : Z :=
  fold_right (fun ev acc => match ev with
                            | Elapse ms => Z.of_N ms + acc
                            | Inbound _ _ => acc
                            end) 0 tk.

(** The time the wait loop of [getValue] takes to sleep through [ticks]:
    each sleep lasts as long as its tick, and 50 ms at least. *)
Definition waits (ticks : list Tick) : Z :=
  fold_right (fun tk acc => Z.max 50 (elapsed tk) + acc) 0 ticks.

(** The bounds of the clamp [setValue] applies for a message type. *)
Definition float_bounds (ty : OscMessageType) : Q * Q :=
  match ty with
  | enPPCFaderMessage => (1 # 10000000, 9999999 # 10000000)
  | _ => (0%Q, 1%Q)
  end.

(** The results of a search as triples. *)
Definition triple_of (r : SearchResult) : string * string * EndpointSpec :=
  (sr_group r, sr_endpoint r, sr_spec r).

(** ** A small console, for the examples *)

Module Sample.

(** Whole numbers in decimal, as a template literal prints them; the
    examples use no other index. *)
Definition render (n : number) : string :=
  match n with
  | NaN => "NaN"
  | PosInfinity => "Infinity"
  | NegInfinity => "-Infinity"
  | Finite q => NilZero.string_of_int (Z.to_int (Qfloor q))
  end.

Definition enFader : EndpointSpec :=
  {| multiPath := true; type := enPPCFaderMessage;
     argumentType := Some ArgFloat; description := "Input fader level";
     isAbsolute := None |}.

Definition enPan : EndpointSpec :=
  {| multiPath := true; type := enPPCRotaryMessage;
     argumentType := Some ArgFloat; description := "Pan position";
     isAbsolute := None |}.

Definition enMute : EndpointSpec :=
  {| multiPath := true; type := enPPCSwitchMessage;
     argumentType := Some ArgInteger; description := "Channel mute";
     isAbsolute := Some true |}.

Definition enLabel : EndpointSpec :=
  {| multiPath := true; type := enPPCStringMessage;
     argumentType := Some ArgString; description := "Channel name";
     isAbsolute := None |}.

Definition enMeter : EndpointSpec :=
  {| multiPath := true; type := enPPCMeterMessage;
     argumentType := None; description := "Input level meter";
     isAbsolute := None |}.

Definition enRebootConsole : EndpointSpec :=
  {| multiPath := false; type := enPPCSwitchMessage;
     argumentType := Some ArgInteger; description := "Restart the desk";
     isAbsolute := Some true |}.

Definition main : EndpointStore :=
  [ ("VirtualMicInputs",
     [ ("enFader", enFader); ("enPan", enPan); ("enMute", enMute);
       ("enLabel", enLabel); ("enMeter", enMeter) ]);
    ("Globals", [ ("enRebootConsole", enRebootConsole) ]) ].

Definition fx : EndpointStore :=
  [ ("VirtualFxPool", [ ("enMix", enPan) ]) ].

Definition fader_path : string :=
  "/enPPCFaderMessage/VirtualMicInputs/enFader/2".

Definition console_client : Client :=
  {| client_id := 0; client_host := "192.168.1.100"; client_port := Finite 10023 |}.

(** A client connected at time 1000 to a silent console. *)
Definition connected : State :=
  snd (connect "192.168.1.100" None None (initial 1000 [])).

(** The console answers the query for the fader ten milliseconds after it
    was sent. *)
Definition answer : list Tick :=
  [ []; [ Elapse 10; Inbound fader_path [VNumber (Finite (1 # 2))]; Elapse 40 ] ].

Definition answering : State :=
  snd (connect "192.168.1.100" None None (initial 1000 answer)).

Definition read_fader : Call :=
  CallGetValue "VirtualMicInputs" "enFader" (Some (Finite 2)) None.

(** [JSON.stringify] on the values of the examples: numbers as [render]
    prints them, strings that need no escape between double quotes. *)
Definition stringify (v : JsValue) : string :=
  match v with
  | VNumber n => render n
  | VString s => QUOTE +:+ s +:+ QUOTE
  end.

Definition stringify_args (l : list JsValue) : string :=
  "[" +:+ join "," (map stringify l) +:+ "]".

(** A text for the range error. *)
Definition range_text (v : number) : string :=
  "The value is out of range. Received " +:+ render v.

End Sample.

(** * Properties *)

(** ** Strings *)

#[local] Arguments String.append !s1 s2 : simpl nomatch.

Lemma prefix_spec (t s : string) :
  String.prefix t s = true <-> exists post, s = t +:+ post.
Proof.
  revert s. induction t as [|c t IH]; intros s.
  - split; [intros _; exists s; reflexivity | intros _; destruct s; reflexivity].
  - destruct s as [|d s]; simpl.
    + split; [discriminate | intros [post H]; discriminate].
    + destruct (Ascii.ascii_dec c d) as [->|Hne].
      * rewrite IH. split; intros [post H]; exists post.
        -- now rewrite H.
        -- now inversion H.
      * split; [discriminate | intros [post H]; simpl in H; congruence].
Qed.

Lemma append_assoc (a b c : string) : (a +:+ b) +:+ c = a +:+ b +:+ c.
Proof. induction a as [|x a IH]; simpl; [reflexivity | now rewrite IH]. Qed.

Lemma append_empty_r (a : string) : a +:+ "" = a.
Proof. induction a as [|x a IH]; simpl; [reflexivity | now rewrite IH]. Qed.

Lemma includes_spec (s t : string) : includes s t = true <-> Substring t s.
Proof.
  unfold Substring. induction s as [|c s IH].
  - cbn [includes]. rewrite orb_false_r, prefix_spec. split.
    + intros [post H]. exists "", post. exact H.
    + intros [pre [post H]]. destruct pre; simpl in H.
      * exists post. exact H.
      * discriminate.
  - cbn [includes]. rewrite orb_true_iff, prefix_spec, IH. split.
    + intros [[post H] | [pre [post H]]].
      * exists "", post. exact H.
      * exists (String c pre), post. simpl. now rewrite H.
    + intros [pre [post H]]. destruct pre as [|d pre]; simpl in H.
      * left. exists post. exact H.
      * right. inversion H. exists pre, post. reflexivity.
Qed.

Lemma includes_empty (s : string) : includes s "" = true.
Proof. destruct s; reflexivity. Qed.

Lemma toLowerCase_app (a b : string) :
  toLowerCase (a +:+ b) = toLowerCase a +:+ toLowerCase b.
Proof. induction a as [|x a IH]; simpl; [reflexivity | now rewrite IH]. Qed.

Lemma is_space_lower_char (c : ascii) : is_space (lower_char c) = is_space c.
Proof. destruct c as [[] [] [] [] [] [] [] []]; reflexivity. Qed.

Lemma all_chars_app (p : ascii -> bool) (a b : string) :
  all_chars p (a +:+ b) = all_chars p a && all_chars p b.
Proof.
  induction a as [|x a IH]; simpl; [reflexivity|].
  now rewrite IH, andb_assoc.
Qed.

Lemma all_chars_toLowerCase_space (s : string) :
  all_chars is_space (toLowerCase s) = all_chars is_space s.
Proof.
  induction s as [|c s IH]; simpl; [reflexivity|].
  now rewrite is_space_lower_char, IH.
Qed.

(** The pieces of a split hold no separator. *)
Lemma split_loop_no_space (s cur : string) (b : bool) (t : string) :
  all_chars (fun c => negb (is_space c)) cur = true ->
  In t (split_loop s cur b) ->
  all_chars (fun c => negb (is_space c)) t = true.
Proof.
  revert cur b. induction s as [|c s IH]; intros cur b Hcur Hin; simpl in Hin.
  - destruct Hin as [<-|[]]. exact Hcur.
  - destruct (is_space c) eqn:Hc.
    + destruct b.
      * eapply IH; eauto.
      * destruct Hin as [<-|Hin]; [exact Hcur|].
        eapply IH; [|exact Hin]. reflexivity.
    + eapply IH; [|exact Hin].
      rewrite all_chars_app, Hcur. simpl. now rewrite Hc.
Qed.

Lemma split_ws_no_space (s t : string) :
  In t (split_ws s) -> all_chars (fun c => negb (is_space c)) t = true.
Proof. apply split_loop_no_space. reflexivity. Qed.

(** A string of separators splits into empty pieces only. *)
Lemma split_loop_blank (s : string) (b : bool) (t : string) :
  all_chars is_space s = true -> In t (split_loop s "" b) -> t = "".
Proof.
  revert b. induction s as [|c s IH]; intros b Hs Hin; simpl in *.
  - destruct Hin as [<-|[]]. reflexivity.
  - apply andb_true_iff in Hs as [Hc Hs]. rewrite Hc in Hin.
    destruct b.
    + eapply IH; eauto.
    + destruct Hin as [<-|Hin]; [reflexivity|]. eapply IH; eauto.
Qed.

(** A term free of separators that starts inside [a] and is a prefix of
    [a], a separator, [b] ends inside [a]. *)
Lemma prefix_before_space (t a : string) (sp : ascii) (b : string) :
  is_space sp = true ->
  all_chars (fun c => negb (is_space c)) t = true ->
  String.prefix t (a +:+ String sp b) = true ->
  String.prefix t a = true.
Proof.
  intros Hsp. revert t. induction a as [|x a IH]; intros t Ht Hp.
  - destruct t as [|c t]; [reflexivity|]. simpl in Hp, Ht.
    destruct (Ascii.ascii_dec c sp) as [->|]; [|discriminate].
    rewrite Hsp in Ht. discriminate.
  - destruct t as [|c t]; [reflexivity|]. simpl in Hp, Ht |- *.
    destruct (Ascii.ascii_dec c x); [|discriminate].
    apply andb_true_iff in Ht as [_ Ht]. now apply IH.
Qed.

Lemma includes_across_space (t a : string) (sp : ascii) (b : string) :
  is_space sp = true ->
  all_chars (fun c => negb (is_space c)) t = true ->
  includes (a +:+ String sp b) t = true ->
  includes a t = true \/ includes b t = true.
Proof.
  intros Hsp Ht. induction a as [|x a IH]; intros H.
  - simpl append in H. cbn [includes] in H. apply orb_true_iff in H as [H|H].
    + left. apply (prefix_before_space t "" sp b Hsp Ht) in H.
      cbn [includes]. now rewrite H.
    + now right.
  - simpl append in H. cbn [includes] in H. apply orb_true_iff in H as [H|H].
    + left. apply (prefix_before_space t (String x a) sp b Hsp Ht) in H.
      cbn [includes]. now rewrite H.
    + destruct (IH H) as [H'|H']; [left|now right].
      cbn [includes]. rewrite H'. apply orb_true_r.
Qed.

(** ** Objects *)

Lemma get_Some_In {V} (o : JsObject.t V) (k : string) (v : V) :
  JsObject.get o k = Some v -> In (k, v) o.
Proof.
  induction o as [|[k' v'] o IH]; simpl; [discriminate|].
  destruct (String.eqb k' k) eqn:E.
  - apply String.eqb_eq in E as ->. intros [= ->]. now left.
  - intros H. right. now apply IH.
Qed.

Lemma get_None_keys {V} (o : JsObject.t V) (k : string) :
  JsObject.get o k = None <-> ~ In k (JsObject.keys o).
Proof.
  induction o as [|[k' v'] o IH]; simpl; [tauto|].
  destruct (String.eqb k' k) eqn:E.
  - apply String.eqb_eq in E as ->. split; [discriminate | tauto].
  - apply String.eqb_neq in E. rewrite IH. tauto.
Qed.

Lemma get_In_NoDup {V} (o : JsObject.t V) (k : string) (v : V) :
  NoDup (JsObject.keys o) -> In (k, v) o -> JsObject.get o k = Some v.
Proof.
  induction o as [|[k' v'] o IH]; simpl; [tauto|].
  intros [Hnotin Hnd]%NoDup_cons [H|H].
  - inversion H; subst. now rewrite String.eqb_refl.
  - destruct (String.eqb k' k) eqn:E.
    + apply String.eqb_eq in E as ->. exfalso. apply Hnotin.
      apply list_elem_of_In. change k with (fst (k, v)). now apply in_map.
    + now apply IH.
Qed.

Lemma keys_set {V} (o : JsObject.t V) (k : string) (v : V) :
  JsObject.keys (JsObject.set o k v) =
  match JsObject.get o k with
  | Some _ => JsObject.keys o
  | None => JsObject.keys o ++ [k]
  end.
Proof.
  induction o as [|[k' v'] o IH]; simpl; [reflexivity|].
  destruct (String.eqb k' k) eqn:E; simpl; [reflexivity|].
  rewrite IH. now destruct (JsObject.get o k).
Qed.

Lemma NoDup_keys_set {V} (o : JsObject.t V) (k : string) (v : V) :
  NoDup (JsObject.keys o) -> NoDup (JsObject.keys (JsObject.set o k v)).
Proof.
  intros Hnd. rewrite keys_set. destruct (JsObject.get o k) eqn:E; [exact Hnd|].
  apply get_None_keys in E.
  apply NoDup_app. split; [exact Hnd|]. split; [|apply NoDup_singleton].
  intros x Hx Hk. apply list_elem_of_singleton in Hk as ->.
  apply E. now apply list_elem_of_In.
Qed.

Lemma NoDup_keys_assign {V} (acc o : JsObject.t V) :
  NoDup (JsObject.keys acc) -> NoDup (JsObject.keys (JsObject.assign acc o)).
Proof.
  unfold JsObject.assign. revert acc.
  induction o as [|[k v] o IH]; intros acc Hnd; simpl; [exact Hnd|].
  apply IH. now apply NoDup_keys_set.
Qed.

Lemma filter_none {A} (f : A -> bool) (l : list A) :
  (forall x, In x l -> f x = false) -> [] = List.filter f l.
Proof.
  induction l as [|x l IH]; intros H; simpl; [reflexivity|].
  rewrite (H x (or_introl eq_refl)). apply IH. intros y Hy. apply H. now right.
Qed.

(** ** The catalog *)

Section CatalogProperties.

Variable mainEndpoints : EndpointStore.
Variable fxEndpoints : EndpointStore.
Variable Number_toString : number -> string.

Local Abbreviation all := (getAllEndpoints mainEndpoints fxEndpoints).

(** A group name occurs once in the merged store. *)
Lemma NoDup_groups : NoDup (JsObject.keys all).
Proof.
  unfold getAllEndpoints. do 2 apply NoDup_keys_assign. constructor.
Qed.

Lemma getEndpointInfo_in_catalog (group endpoint : string) :
  in_catalog all group endpoint <->
  exists spec, getEndpointInfo mainEndpoints fxEndpoints group endpoint = Some spec.
Proof.
  unfold in_catalog, getEndpointInfo. split.
  - intros (endpoints & spec & Hg & He).
    rewrite (get_In_NoDup _ _ _ NoDup_groups Hg).
    destruct (JsObject.get endpoints endpoint) as [s|] eqn:E; [now exists s|].
    apply get_None_keys in E. exfalso. apply E.
    change endpoint with (fst (endpoint, spec)). now apply in_map.
  - intros [spec H].
    destruct (JsObject.get all group) as [endpoints|] eqn:E; [|discriminate].
    exists endpoints, spec. split; now apply get_Some_In.
Qed.

Lemma type_skipped_kept (options : option SearchOptions) (spec : EndpointSpec) :
  type_skipped options spec = negb (type_kept options spec).
Proof.
  destruct options as [[g [ty|]]|]; simpl; try reflexivity.
  now destruct ty.
Qed.

Lemma group_skipped_kept (options : option SearchOptions) (g : string) :
  group_skipped options g = negb (group_kept options g).
Proof.
  destruct options as [[[grp|] ty]|]; simpl; try reflexivity.
  now destruct (truthy grp).
Qed.

(** The inner loop appends, in order, the endpoints of the group that pass
    the type filter and match every term. *)
Lemma search_endpoint_fold (options : option SearchOptions) (terms : list string)
    (g : string) (endpoints : JsObject.t EndpointSpec) (acc : list SearchResult) :
  fold_left (search_endpoint options terms g) endpoints acc =
  acc ++ map result_of
    (List.filter
       (fun tr => type_kept options (snd tr) &&
                  forallb (fun term => includes (searchable (fst (fst tr)) (snd (fst tr)) (snd tr)) term) terms)
       (map (fun es => (g, fst es, snd es)) endpoints)).
Proof.
  revert acc. induction endpoints as [|[e spec] endpoints IH]; intros acc; simpl.
  - now rewrite app_nil_r.
  - rewrite IH, type_skipped_kept.
    destruct (type_kept options spec); simpl; [|reflexivity].
    destruct (forallb _ terms); simpl; [|reflexivity].
    now rewrite <- app_assoc.
Qed.

Lemma search_group_fold (options : option SearchOptions) (terms : list string)
    (store : EndpointStore) (acc : list SearchResult) :
  fold_left (search_group options terms) store acc =
  acc ++ map result_of
    (List.filter
       (fun tr => group_kept options (fst (fst tr)) &&
                  (type_kept options (snd tr) &&
                   forallb (fun term => includes (searchable (fst (fst tr)) (snd (fst tr)) (snd tr)) term) terms))
       (triples store)).
Proof.
  revert acc. induction store as [|[g endpoints] store IH]; intros acc; simpl.
  - now rewrite app_nil_r.
  - rewrite IH, group_skipped_kept, List.filter_app, map_app, app_assoc.
    f_equal.
    destruct (group_kept options g) eqn:Hg; simpl.
    + rewrite search_endpoint_fold. do 2 f_equal.
      induction endpoints as [|[e spec] endpoints IHe]; simpl; [reflexivity|].
      rewrite Hg. simpl. now rewrite IHe.
    + replace (List.filter _ (map _ endpoints)) with (@nil (string * string * EndpointSpec)).
      * now rewrite app_nil_r.
      * induction endpoints as [|[e spec] endpoints IHe]; simpl; [reflexivity|].
        rewrite Hg. simpl. exact IHe.
Qed.

(** The search is the filter [kept] over the triples of the catalog. *)
Lemma searchEndpoints_kept (query : string) (options : option SearchOptions) :
  searchEndpoints mainEndpoints fxEndpoints query options =
  map result_of (List.filter (kept query options) (triples all)).
Proof.
  unfold searchEndpoints. rewrite search_group_fold. simpl. f_equal.
  apply List.filter_ext. intros [[g e] spec]. simpl.
  now rewrite andb_assoc.
Qed.

Lemma searchable_joined (g e : string) (spec : EndpointSpec) :
  searchable g e spec =
  toLowerCase g +:+ " " +:+ toLowerCase e +:+ " "
    +:+ toLowerCase (description spec) +:+ " "
    +:+ toLowerCase (type_name (type spec)).
Proof.
  unfold searchable, join. simpl String.concat.
  repeat (rewrite toLowerCase_app; cbn [toLowerCase]). reflexivity.
Qed.

Lemma group_kept_spec (options : option SearchOptions) (g : string) :
  group_kept options g = true <->
  (forall grp, options ≫= opt_group = Some grp -> grp <> "" -> g = grp).
Proof.
  destruct options as [[[grp|] ty]|]; simpl.
  - unfold truthy. destruct (String.eqb grp "") eqn:E; simpl.
    + apply String.eqb_eq in E. split; [|reflexivity].
      intros _ grp' [= <-] Hne. contradiction.
    + apply String.eqb_neq in E. rewrite String.eqb_eq. split.
      * intros -> grp' [= <-] _. reflexivity.
      * intros H. now apply H.
  - split; [intros _ grp; discriminate | reflexivity].
  - split; [intros _ grp; discriminate | reflexivity].
Qed.

Lemma type_kept_spec (options : option SearchOptions) (spec : EndpointSpec) :
  type_kept options spec = true <->
  (forall ty, options ≫= opt_type = Some ty -> type spec = ty).
Proof.
  destruct options as [[grp [ty|]]|]; simpl.
  - rewrite bool_decide_eq_true. split.
    + intros -> ty' [= <-]. reflexivity.
    + intros H. now apply H.
  - split; [intros _ ty; discriminate | reflexivity].
  - split; [intros _ ty; discriminate | reflexivity].
Qed.

Lemma matches_spec (terms : list string) (s : string) :
  forallb (fun term => includes s term) terms = true <->
  (forall term, In term terms -> Substring term s).
Proof.
  rewrite forallb_forall. split; intros H term Hin.
  - now apply includes_spec, H.
  - now apply includes_spec, H.
Qed.

(** C1, as amended: for every query and options, [searchEndpoints] returns,
    in the enumeration order of the catalog, the results made of exactly
    those (group, endpoint, spec) triples that pass the exact-match group
    filter when a non-empty group is given, pass the exact-match type
    filter when a type is given, and for which every whitespace-separated
    lowercased term of the query is a substring of the lowercased group
    name, endpoint name, description and message type joined by single
    spaces. *)
Theorem searchEndpoints_spec (query : string) (options : option SearchOptions) :
  searchEndpoints mainEndpoints fxEndpoints query options =
    map result_of (List.filter (kept query options) (triples all))
  /\ forall g e spec,
       kept query options (g, e, spec) = true <->
       (forall grp, options ≫= opt_group = Some grp -> grp <> "" -> g = grp) /\
       (forall ty, options ≫= opt_type = Some ty -> type spec = ty) /\
       (forall term, In term (split_ws (toLowerCase query)) ->
          Substring term
            (toLowerCase (g +:+ " " +:+ e +:+ " " +:+ description spec
                            +:+ " " +:+ type_name (type spec)))).
Proof.
  split; [apply searchEndpoints_kept|].
  intros g e spec. unfold kept.
  rewrite !andb_true_iff, group_kept_spec, type_kept_spec, matches_spec.
  unfold searchable, join. simpl String.concat. tauto.
Qed.

(** C2, but for the names that [Object.prototype] defines: for a group and
    an endpoint name that are not among them, [buildOscPath] returns [null]
    when the pair is not in the catalog; for a pair of the catalog,
    whatever its names, it returns ["/type/group/endpoint"] built from the
    spec of the pair, followed by ["/index"] exactly when the spec is
    multi-path and an index is given, so that an index given for an
    endpoint that is not multi-path changes nothing. *)
Theorem buildOscPath_spec (group endpoint : string) (index : option number) :
  (own_names group endpoint -> ~ in_catalog all group endpoint ->
   buildOscPath mainEndpoints fxEndpoints Number_toString group endpoint index = None)
  /\
  (in_catalog all group endpoint ->
   exists endpoints spec,
     In (group, endpoints) all /\ In (endpoint, spec) endpoints /\
     getEndpointInfo mainEndpoints fxEndpoints group endpoint = Some spec /\
     buildOscPath mainEndpoints fxEndpoints Number_toString group endpoint index =
       Some ("/" +:+ type_name (type spec) +:+ "/" +:+ group +:+ "/" +:+ endpoint
               +:+ match index with
                   | Some i => if multiPath spec then "/" +:+ Number_toString i
                               else ""
                   | None => ""
                   end) /\
     (multiPath spec = false ->
      buildOscPath mainEndpoints fxEndpoints Number_toString group endpoint index =
        Some ("/" +:+ type_name (type spec) +:+ "/" +:+ group +:+ "/" +:+ endpoint))).
Proof.
  split.
  - intros _ Habsent. unfold buildOscPath.
    destruct (getEndpointInfo mainEndpoints fxEndpoints group endpoint) as [spec|] eqn:E;
      [|reflexivity].
    exfalso. apply Habsent, getEndpointInfo_in_catalog. now exists spec.
  - intros [spec Hspec]%getEndpointInfo_in_catalog.
    assert (Hin : exists endpoints,
               In (group, endpoints) all /\ In (endpoint, spec) endpoints).
    { unfold getEndpointInfo in Hspec.
      destruct (JsObject.get all group) as [endpoints|] eqn:E; [|discriminate].
      exists endpoints. split; now apply get_Some_In. }
    destruct Hin as (endpoints & Hg & He).
    exists endpoints, spec. repeat split; try assumption.
    + unfold buildOscPath. rewrite Hspec. f_equal.
      destruct index as [i|]; [destruct (multiPath spec)|].
      * now rewrite !append_assoc.
      * now rewrite append_empty_r.
      * now rewrite append_empty_r.
    + intros Hmp. unfold buildOscPath. rewrite Hspec, Hmp.
      now destruct index.
Qed.

(** C8, as amended: with no filter, a query that is empty or made of
    whitespace only returns every endpoint of the catalog; and whatever the
    filters, a query one of whose lowercased terms occurs in no endpoint's
    lowercased group name, endpoint name, description or message type
    returns nothing. *)
Theorem searchEndpoints_blank_and_unmatched :
  (forall query options,
      all_chars is_space query = true -> no_filters options ->
      searchEndpoints mainEndpoints fxEndpoints query options =
        map result_of (triples all))
  /\
  (forall query options term,
      In term (split_ws (toLowerCase query)) ->
      (forall g e spec, In (g, e, spec) (triples all) ->
         ~ Substring term (toLowerCase g) /\
         ~ Substring term (toLowerCase e) /\
         ~ Substring term (toLowerCase (description spec)) /\
         ~ Substring term (toLowerCase (type_name (type spec)))) ->
      searchEndpoints mainEndpoints fxEndpoints query options = []).
Proof.
  split.
  - intros query options Hblank Hno. rewrite searchEndpoints_kept. f_equal.
    apply forallb_filter_id, forallb_forall. intros [[g e] spec] _.
    unfold kept.
    assert (Hf : group_kept options g = true /\ type_kept options spec = true)
      by (destruct Hno as [-> | ->]; split; reflexivity).
    destruct Hf as [-> ->]. simpl. apply forallb_forall. intros term Hin.
    rewrite <- all_chars_toLowerCase_space in Hblank.
    rewrite (split_loop_blank _ _ _ Hblank Hin). apply includes_empty.
  - intros query options term Hterm Hnone. rewrite searchEndpoints_kept.
    replace (List.filter (kept query options) (triples all))
      with (@nil (string * string * EndpointSpec)); [reflexivity|].
    apply filter_none. intros [[g e] spec] Hin.
    destruct (kept query options (g, e, spec)) eqn:Hk; [exfalso|reflexivity].
    unfold kept in Hk. apply andb_true_iff in Hk as [_ Hk].
    rewrite forallb_forall in Hk. specialize (Hk term Hterm).
    pose proof (split_ws_no_space _ _ Hterm) as Hns.
    destruct (Hnone g e spec Hin) as (Hg & He & Hd & Ht).
    rewrite searchable_joined in Hk.
    apply (includes_across_space term (toLowerCase g) " " _ eq_refl Hns) in Hk
      as [Hk|Hk]; [now apply Hg, includes_spec|].
    apply (includes_across_space term (toLowerCase e) " " _ eq_refl Hns) in Hk
      as [Hk|Hk]; [now apply He, includes_spec|].
    apply (includes_across_space term (toLowerCase (description spec)) " " _
             eq_refl Hns) in Hk
      as [Hk|Hk]; [now apply Hd, includes_spec | now apply Ht, includes_spec].
Qed.

(** C9: [isDangerous(name)] is true exactly for the two names
    ["enRebootConsole"] and ["enResetGlobalsToDefault"], false for every
    other name, and the same whatever the state of the client. *)
Theorem isDangerous_spec (this this' : State) (name : string) :
  (isDangerous this name = true <->
     name = "enRebootConsole" \/ name = "enResetGlobalsToDefault")
  /\ (isDangerous this name = false <->
     name <> "enRebootConsole" /\ name <> "enResetGlobalsToDefault")
  /\ isDangerous this name = isDangerous this' name.
Proof.
  assert (Hin : name ∈ DANGEROUS_ENDPOINTS <->
                 name = "enRebootConsole" \/ name = "enResetGlobalsToDefault").
  { unfold DANGEROUS_ENDPOINTS.
    rewrite elem_of_union, !elem_of_singleton. reflexivity. }
  unfold isDangerous. split; [|split; [|reflexivity]].
  - etrans; [apply bool_decide_eq_true | exact Hin].
  - etrans; [apply bool_decide_eq_false | tauto].
Qed.

End CatalogProperties.

(** ** The catalog on the sample console *)

(** C1 as it is worded fails: ["inputsen"] runs over the end of the group
    name and the start of the endpoint name, so it is a substring of the
    plain concatenation of the fields and of no space-joined one; and with
    the empty string as group the search skips no group, where an exact
    match would skip them all. *)
Lemma searchEndpoints_not_as_stated :
  (map triple_of (searchEndpoints Sample.main Sample.fx "inputsen" None)
   ≠ search_as_stated (getAllEndpoints Sample.main Sample.fx) "inputsen" None)
  /\
  (map triple_of
     (searchEndpoints Sample.main Sample.fx "reboot"
        (Some {| opt_group := Some ""; opt_type := None |}))
   ≠ search_as_stated (getAllEndpoints Sample.main Sample.fx) "reboot"
       (Some {| opt_group := Some ""; opt_type := None |})).
Proof. split; vm_compute; discriminate. Qed.

(** The names left out of the statements about lookups, and a name that is
    not. *)
Example inherited_names :
  inherited "constructor" = true /\ inherited "toString" = true /\
  inherited "enFader" = false /\
  numeric "7" = true /\ numeric "VirtualMicInputs" = false.
Proof. repeat split. Qed.

(** C8 as it is worded fails: the match is blind to case, so the term
    ["enfader"], a substring of no field as the fields stand, finds the
    endpoint [enFader]. *)
Lemma searchEndpoints_unmatched_not_as_stated :
  In "enfader" (split_ws "enfader") /\
  In "enfader" (split_ws (toLowerCase "enfader")) /\
  in_no_field (getAllEndpoints Sample.main Sample.fx) "enfader" /\
  searchEndpoints Sample.main Sample.fx "enfader" None
    = [ make_result "VirtualMicInputs" "enFader" Sample.enFader ].
Proof.
  split; [left; reflexivity|]. split; [left; reflexivity|].
  split; [|vm_compute; reflexivity].
  intros g e spec Hin. rewrite <- !includes_spec.
  vm_compute in Hin.
  repeat (destruct Hin as [[= <- <- <-]|Hin];
          [repeat split; vm_compute; discriminate|]).
  destruct Hin.
Qed.

Lemma buildOscPath_spec_witness :
  buildOscPath Sample.main Sample.fx Sample.render
    "VirtualMicInputs" "enGain" (Some (Finite 2)) = None /\
  exists endpoints spec,
    In ("VirtualMicInputs", endpoints) (getAllEndpoints Sample.main Sample.fx) /\
    In ("enFader", spec) endpoints /\
    getEndpointInfo Sample.main Sample.fx "VirtualMicInputs" "enFader" = Some spec /\
    buildOscPath Sample.main Sample.fx Sample.render
      "VirtualMicInputs" "enFader" (Some (Finite 2)) =
      Some ("/" +:+ type_name (type spec) +:+ "/" +:+ "VirtualMicInputs" +:+ "/"
              +:+ "enFader"
              +:+ (if multiPath spec then "/" +:+ Sample.render (Finite 2) else "")) /\
    (multiPath spec = false ->
     buildOscPath Sample.main Sample.fx Sample.render
       "VirtualMicInputs" "enFader" (Some (Finite 2)) =
       Some ("/" +:+ type_name (type spec) +:+ "/" +:+ "VirtualMicInputs" +:+ "/"
               +:+ "enFader")).
Proof.
  split.
  - apply (proj1 (buildOscPath_spec Sample.main Sample.fx Sample.render
                    "VirtualMicInputs" "enGain" (Some (Finite 2)))).
    + split; reflexivity.
    + intros (endpoints & spec & Hg & He).
      assert (Hinfo : exists spec',
                 getEndpointInfo Sample.main Sample.fx "VirtualMicInputs" "enGain"
                 = Some spec').
      { apply getEndpointInfo_in_catalog. now exists endpoints, spec. }
      destruct Hinfo as [spec' Hinfo]. discriminate Hinfo.
  - apply (proj2 (buildOscPath_spec Sample.main Sample.fx Sample.render
                    "VirtualMicInputs" "enFader" (Some (Finite 2)))).
    exists (snd (hd ("", []) Sample.main)), Sample.enFader.
    split; simpl; left; reflexivity.
Defined.

Lemma searchEndpoints_blank_and_unmatched_witness :
  searchEndpoints Sample.main Sample.fx "  " None =
    map result_of (triples (getAllEndpoints Sample.main Sample.fx))
  /\ searchEndpoints Sample.main Sample.fx "fader zzz" None = [].
Proof.
  split.
  - apply (proj1 (searchEndpoints_blank_and_unmatched Sample.main Sample.fx) "  " None).
    + reflexivity.
    + left. reflexivity.
  - apply (proj2 (searchEndpoints_blank_and_unmatched Sample.main Sample.fx)
             "fader zzz" None "zzz").
    + simpl. right. left. reflexivity.
    + intros g e spec Hin. rewrite <- !includes_spec.
      vm_compute in Hin.
      repeat (destruct Hin as [[= <- <- <-]|Hin];
              [repeat split; vm_compute; discriminate|]).
      destruct Hin.
Defined.

(** ** Numbers *)

Lemma Qle_bool_false (x y : Q) : Qle_bool x y = false -> (y < x)%Q.
Proof.
  intros H. apply Qnot_le_lt. rewrite <- Qle_bool_iff. congruence.
Qed.

Lemma clamp_spec (lo hi q : Q) :
  (lo <= hi)%Q ->
  exists v, Math_max (Finite lo) (Math_min (Finite hi) (Finite q)) = Finite v /\
            clamped lo hi q v.
Proof.
  intros Hlh. unfold Math_max, Math_min, clamped. simpl.
  destruct (Qle_bool hi q) eqn:E1; simpl.
  - apply Qle_bool_iff in E1.
    destruct (Qle_bool lo hi) eqn:E2.
    + exists hi. split; [reflexivity|]. repeat split; intros; lra.
    + apply Qle_bool_false in E2. lra.
  - apply Qle_bool_false in E1.
    destruct (Qle_bool lo q) eqn:E2.
    + apply Qle_bool_iff in E2.
      exists q. split; [reflexivity|]. repeat split; intros; lra.
    + apply Qle_bool_false in E2.
      exists lo. split; [reflexivity|]. repeat split; intros; lra.
Qed.

Lemma Math_round_spec (q : Q) :
  exists n : Z, Math_round (Finite q) = Finite (inject_Z n) /\
                (inject_Z n - (1 # 2) <= q < inject_Z n + (1 # 2))%Q.
Proof.
  exists (Qfloor (q + (1 # 2))). split; [reflexivity|].
  pose proof (Qfloor_le (q + (1 # 2))) as Hle.
  pose proof (Qlt_floor (q + (1 # 2))) as Hlt.
  rewrite inject_Z_plus in Hlt. change (inject_Z 1) with 1%Q in Hlt.
  split; lra.
Qed.

(** ** The environment *)

Lemma same_session_refl (st : State) : same_session st st.
Proof. now repeat split. Qed.

Lemma same_session_trans (st1 st2 st3 : State) :
  same_session st1 st2 -> same_session st2 st3 -> same_session st1 st3.
Proof.
  unfold same_session. intros (?&?&?&?&?&?) (?&?&?&?&?&?).
  repeat split; congruence.
Qed.

Lemma evolves_refl (st : State) : evolves [] st st.
Proof. split; [lia | intros path resp H; now left]. Qed.

Lemma evolves_trans (e1 e2 : list EnvEvent) (st1 st2 st3 : State) :
  evolves e1 st1 st2 -> evolves e2 st2 st3 -> evolves (e1 ++ e2) st1 st3.
Proof.
  intros [Hc1 Hb1] [Hc2 Hb2]. split; [lia|].
  intros path resp H.
  destruct (Hb2 path resp H) as [H2 | (Ha & Ht & Hin)].
  - destruct (Hb1 path resp H2) as [H1 | (Ha & Ht & Hin)]; [now left|].
    right. repeat split; try assumption; try lia.
    apply in_or_app. now left.
  - right. repeat split; try assumption; try lia.
    apply in_or_app. now right.
Qed.

Lemma run_event_frame (ev : EnvEvent) (st : State) :
  same_session st (run_event ev st) /\
  outbox (run_event ev st) = outbox st /\
  schedule (run_event ev st) = schedule st.
Proof.
  destruct ev as [ms | addr a]; simpl.
  - now repeat split.
  - destruct (listener st); now repeat split.
Qed.

Lemma run_event_evolves (ev : EnvEvent) (st : State) :
  evolves [ev] st (run_event ev st).
Proof.
  destruct ev as [ms | addr a]; simpl.
  - split; simpl; [lia | intros path resp H; now left].
  - destruct (listener st);
      [|split; [lia | intros path resp H; now left]].
    split; simpl; [lia|]. intros path resp H.
    destruct (decide (addr = path)) as [->|Hne].
    + rewrite lookup_insert_eq in H. injection H as <-. right. simpl.
      repeat split; try lia. now left.
    + rewrite lookup_insert_ne in H by assumption. now left.
Qed.

Lemma run_tick_frame (tk : Tick) (st : State) :
  same_session st (run_tick tk st) /\
  outbox (run_tick tk st) = outbox st /\
  schedule (run_tick tk st) = schedule st.
Proof.
  unfold run_tick. revert st. induction tk as [|ev tk IH]; intros st; simpl.
  - split; [apply same_session_refl | now split].
  - destruct (run_event_frame ev st) as (Hs & Ho & Hsch).
    destruct (IH (run_event ev st)) as (Hs' & Ho' & Hsch').
    split; [eapply same_session_trans; eassumption|]. split; congruence.
Qed.

Lemma run_tick_evolves (tk : Tick) (st : State) :
  evolves tk st (run_tick tk st).
Proof.
  unfold run_tick. revert st. induction tk as [|ev tk IH]; intros st; simpl.
  - apply evolves_refl.
  - apply (evolves_trans [ev] tk _ (run_event ev st)); [apply run_event_evolves | apply IH].
Qed.

(** Without a listener nothing is buffered. *)
Lemma run_tick_no_listener (tk : Tick) (st : State) :
  listener st = None -> responseBuffer (run_tick tk st) = responseBuffer st.
Proof.
  unfold run_tick. revert st. induction tk as [|ev tk IH]; intros st Hl; simpl.
  - reflexivity.
  - assert (Hev : listener (run_event ev st) = None /\
                  responseBuffer (run_event ev st) = responseBuffer st).
    { destruct ev; simpl; [now split|]. rewrite Hl. now split. }
    destruct Hev as [Hl' Hb']. now rewrite IH.
Qed.

Lemma progress_refl (st : State) : progress [] st st.
Proof.
  split; [reflexivity|]. split; [apply same_session_refl | apply evolves_refl].
Qed.

Lemma progress_trans (u1 u2 : list Tick) (st1 st2 st3 : State) :
  progress u1 st1 st2 -> progress u2 st2 st3 -> progress (u1 ++ u2) st1 st3.
Proof.
  intros (Hs1 & Hss1 & He1) (Hs2 & Hss2 & He2). split; [|split].
  - now rewrite Hs1, Hs2, app_assoc.
  - eapply same_session_trans; eassumption.
  - rewrite concat_app. eapply evolves_trans; eassumption.
Qed.

Lemma yield_spec (st : State) :
  exists used st',
    yield st = (Returned tt, st') /\ progress used st st' /\
    outbox st' = outbox st.
Proof.
  unfold yield. destruct (schedule st) as [|tk rest] eqn:Hsch.
  - exists [], st. split; [reflexivity|]. split; [apply progress_refl | reflexivity].
  - exists [tk], (run_tick tk (set_schedule rest st)).
    split; [reflexivity|].
    destruct (run_tick_frame tk (set_schedule rest st)) as (Hs & Ho & Hsc).
    split; [|exact Ho].
    split; [|split].
    + rewrite Hsc, Hsch. reflexivity.
    + exact Hs.
    + simpl. rewrite app_nil_r.
      exact (run_tick_evolves tk (set_schedule rest st)).
Qed.

Lemma sleep_spec (ms : Z) (st : State) :
  exists used st',
    sleep ms st = (Returned tt, st') /\ progress used st st' /\
    outbox st' = outbox st /\ clock st + ms <= clock st'.
Proof.
  unfold sleep. destruct (yield_spec st) as (used & st1 & Hy & Hp & Ho).
  rewrite Hy. exists used, (set_clock (Z.max (clock st1) (clock st + ms)) st1).
  split; [reflexivity|].
  destruct Hp as (Hsch & Hss & [Hc Hb]).
  split; [|split; [exact Ho | simpl; lia]].
  split; [exact Hsch|]. split; [exact Hss|].
  split; simpl; [lia|]. intros path resp H.
  destruct (Hb path resp H) as [H1 | (Ha & Ht & Hin)]; [now left|].
  right. repeat split; try assumption; lia.
Qed.

(** ** The client *)

Lemma Client_send_spec (c : Client) (msg : Message) (st : State) :
  omap encoding_error (msg_args msg) = [] ->
  exists used st',
    Client_send c msg st = (Returned tt, st') /\ progress used st st' /\
    outbox st' = outbox st ++ [(c, msg)].
Proof.
  intros Henc. unfold Client_send. rewrite Henc. unfold bind, modify.
  destruct (yield_spec
              (set_world (next_id st) (open_clients st) (open_servers st)
                         (outbox st ++ [(c, msg)]) st))
    as (used & st' & Hy & Hp & Ho).
  exists used, st'. rewrite Hy. split; [reflexivity|]. split; [exact Hp | exact Ho].
Qed.

(** The wait loop ends: with a buffered response for the path that is
    newer than the timeout, or with nothing once the deadline is reached. *)
Lemma poll_spec (fuel : nat) (path : string) (timeoutMs deadline : Z) (st : State) :
  (Z.to_nat (deadline - clock st) < fuel)%nat ->
  exists used r st',
    poll fuel path timeoutMs deadline st = (r, st') /\
    progress used st st' /\ outbox st' = outbox st /\
    ((exists resp, r = Returned (Some resp) /\
                   responseBuffer st' !! path = Some resp /\
                   timestamp resp > clock st' - timeoutMs)
     \/ (r = Returned None /\ deadline <= clock st')).
Proof.
  revert st. induction fuel as [|fuel IH]; intros st Hfuel; [lia|].
  assert (Hnext : clock st < deadline ->
            exists used r st',
              bind (sleep 50) (fun _ => poll fuel path timeoutMs deadline) st = (r, st') /\
              progress used st st' /\ outbox st' = outbox st /\
              ((exists resp, r = Returned (Some resp) /\
                             responseBuffer st' !! path = Some resp /\
                             timestamp resp > clock st' - timeoutMs)
               \/ (r = Returned None /\ deadline <= clock st'))).
  { intros Hlt. unfold bind.
    destruct (sleep_spec 50 st) as (u1 & st1 & Hs & Hp1 & Ho1 & Hc1).
    rewrite Hs.
    destruct (IH st1) as (u2 & r & st2 & Hpoll & Hp2 & Ho2 & Hres); [lia|].
    exists (u1 ++ u2), r, st2. split; [exact Hpoll|].
    split; [eapply progress_trans; eassumption|].
    split; [congruence | exact Hres]. }
  cbn [poll]. unfold bind at 1. unfold gets at 1. cbv beta iota.
  destruct (clock st <? deadline)%Z eqn:Hlt.
  - apply Z.ltb_lt in Hlt.
    unfold bind at 1. unfold gets at 1. cbv beta iota.
    unfold bind at 1. unfold gets at 1. cbv beta iota.
    destruct (responseBuffer st !! path) as [resp|] eqn:Hresp; [|now apply Hnext].
    destruct (timestamp resp >? clock st - timeoutMs)%Z eqn:Hfresh; [|now apply Hnext].
    exists [], (Returned (Some resp)), st.
    split; [reflexivity|]. split; [apply progress_refl|]. split; [reflexivity|].
    left. exists resp. split; [reflexivity|]. split; [exact Hresp | lia].
  - apply Z.ltb_ge in Hlt.
    exists [], (Returned None), st.
    split; [reflexivity|]. split; [apply progress_refl|]. split; [reflexivity|].
    right. split; [reflexivity | lia].
Qed.

(** *** The wait loop when an answer comes *)

Lemma yield_cons (tk : Tick) (rest : list Tick) (st : State) :
  schedule st = tk :: rest ->
  yield st = (Returned tt, run_tick tk (set_schedule rest st)).
Proof. intros H. unfold yield. now rewrite H. Qed.

Lemma run_tick_clock (tk : Tick) (st : State) :
  clock (run_tick tk st) = clock st + elapsed tk.
Proof.
  unfold run_tick. revert st. induction tk as [|ev tk IH]; intros st; simpl.
  - lia.
  - rewrite IH. destruct ev as [ms|addr a]; simpl; [lia|].
    destruct (listener st); simpl; lia.
Qed.

Lemma elapsed_nonneg (tk : Tick) : 0 <= elapsed tk.
Proof. induction tk as [|[ms|addr a] tk IH]; simpl; lia. Qed.

(** A response for [path] not older than [since] stays one as events go by. *)
Lemma run_event_keeps (path : string) (since : Z) (ev : EnvEvent) (st : State) :
  since <= clock st ->
  (exists resp, responseBuffer st !! path = Some resp /\ since <= timestamp resp) ->
  exists resp, responseBuffer (run_event ev st) !! path = Some resp /\
               since <= timestamp resp.
Proof.
  intros Hclk (resp & Hresp & Hts). destruct ev as [ms|addr a]; simpl.
  - now exists resp.
  - destruct (listener st); [|now exists resp]. simpl.
    destruct (decide (addr = path)) as [->|Hne].
    + rewrite lookup_insert_eq. eexists. split; [reflexivity|]. exact Hclk.
    + rewrite lookup_insert_ne by assumption. now exists resp.
Qed.

Lemma run_tick_keeps (path : string) (since : Z) (tk : Tick) (st : State) :
  since <= clock st ->
  (exists resp, responseBuffer st !! path = Some resp /\ since <= timestamp resp) ->
  exists resp, responseBuffer (run_tick tk st) !! path = Some resp /\
               since <= timestamp resp.
Proof.
  unfold run_tick. revert st. induction tk as [|ev tk IH]; intros st Hclk H; simpl.
  - exact H.
  - apply IH; [|now apply run_event_keeps].
    pose proof (run_event_evolves ev st) as [Hc _]. lia.
Qed.

(** A datagram for [path] in a tick leaves a response for [path] behind,
    when there is a listener. *)
Lemma run_tick_delivers (path : string) (tk : Tick) (st : State) (l : Server)
    (a : list JsValue) :
  listener st = Some l ->
  In (Inbound path a) tk ->
  exists resp, responseBuffer (run_tick tk st) !! path = Some resp /\
               clock st <= timestamp resp.
Proof.
  intros Hl Hin.
  assert (Hgen : forall since, since <= clock st ->
            exists resp, responseBuffer (run_tick tk st) !! path = Some resp /\
                         since <= timestamp resp).
  { revert st Hl. unfold run_tick.
    induction tk as [|ev tk IH]; intros st Hl since Hsince; [destruct Hin|].
    simpl. destruct Hin as [->|Hin].
    - apply (run_tick_keeps path since tk).
      + simpl. rewrite Hl. simpl. exact Hsince.
      + simpl. rewrite Hl. simpl. rewrite lookup_insert_eq.
        eexists. split; [reflexivity|]. exact Hsince.
    - apply IH; [exact Hin | |].
      + destruct (run_event_frame ev st) as ((_ & Hl' & _) & _). congruence.
      + pose proof (run_event_evolves ev st) as [Hc _]. lia. }
  apply Hgen. lia.
Qed.

Lemma sleep_cons (ms : Z) (tk : Tick) (rest : list Tick) (st : State) :
  schedule st = tk :: rest ->
  exists st',
    sleep ms st = (Returned tt, st') /\
    schedule st' = rest /\ listener st' = listener st /\
    clock st' = clock st + Z.max ms (elapsed tk) /\
    responseBuffer st' = responseBuffer (run_tick tk (set_schedule rest st)).
Proof.
  intros Hsch. unfold sleep. rewrite (yield_cons tk rest st Hsch).
  eexists. split; [reflexivity|]. simpl.
  destruct (run_tick_frame tk (set_schedule rest st)) as ((_ & Hl & _) & _ & Hs).
  rewrite run_tick_clock. simpl in *.
  split; [exact Hs|]. split; [exact Hl|]. split; [lia | reflexivity].
Qed.

(** Once the tick with the datagram is slept through before the deadline,
    the loop returns a response. *)
Lemma poll_answers (path : string) (timeoutMs deadline : Z) (l : Server)
    (tk : Tick) (rest : list Tick) (a : list JsValue) (before : list Tick) :
  In (Inbound path a) tk ->
  forall (fuel : nat) (st : State),
    listener st = Some l ->
    schedule st = before ++ tk :: rest ->
    deadline - timeoutMs <= clock st ->
    clock st + waits (before ++ [tk]) < deadline ->
    (Z.to_nat (deadline - clock st) < fuel)%nat ->
    exists resp st',
      poll fuel path timeoutMs deadline st = (Returned (Some resp), st').
Proof.
  intros Hin.
  assert (Hfresh : forall (fuel : nat) (st : State),
            clock st < deadline ->
            deadline - timeoutMs <= clock st ->
            (exists resp, responseBuffer st !! path = Some resp /\
                          deadline - timeoutMs <= timestamp resp) ->
            exists resp st',
              poll (S fuel) path timeoutMs deadline st = (Returned (Some resp), st')).
  { intros fuel st Hlt Hlow (resp & Hresp & Hts).
    cbn [poll]. unfold bind at 1. unfold gets at 1. cbv beta iota.
    apply Z.ltb_lt in Hlt as Hltb. rewrite Hltb.
    unfold bind at 1. unfold gets at 1. cbv beta iota.
    unfold bind at 1. unfold gets at 1. cbv beta iota.
    rewrite Hresp.
    assert (Hgt : (timestamp resp >? clock st - timeoutMs)%Z = true)
      by (apply Z.gtb_lt; lia).
    rewrite Hgt. now exists resp, st. }
  induction before as [|b before IH]; intros fuel st Hl Hsch Hlow Hwait Hfuel.
  - simpl in Hsch, Hwait. pose proof (elapsed_nonneg tk) as Hnn.
    destruct fuel as [|fuel]; [lia|].
    cbn [poll]. unfold bind at 1. unfold gets at 1. cbv beta iota.
    assert (Hltb : (clock st <? deadline)%Z = true) by (apply Z.ltb_lt; lia).
    rewrite Hltb.
    unfold bind at 1. unfold gets at 1. cbv beta iota.
    unfold bind at 1. unfold gets at 1. cbv beta iota.
    destruct (sleep_cons 50 tk rest st Hsch) as (st1 & Hsleep & Hs1 & Hl1 & Hc1 & Hb1).
    assert (Hnext : exists resp st',
              bind (sleep 50) (fun _ => poll fuel path timeoutMs deadline) st
              = (Returned (Some resp), st')).
    { unfold bind. rewrite Hsleep.
      destruct fuel as [|fuel]; [lia|].
      apply Hfresh; [lia | lia |].
      rewrite Hb1.
      destruct (run_tick_delivers path tk (set_schedule rest st) l a Hl Hin)
        as (resp & Hresp & Hts).
      exists resp. split; [exact Hresp|]. simpl in Hts. lia. }
    destruct (responseBuffer st !! path) as [resp|] eqn:Hresp; [|exact Hnext].
    destruct (timestamp resp >? clock st - timeoutMs)%Z; [|exact Hnext].
    now exists resp, st.
  - simpl in Hsch, Hwait. pose proof (elapsed_nonneg b) as Hnn.
    assert (Hw : 0 <= waits (before ++ [tk])).
    { clear. induction (before ++ [tk]) as [|x xs IHx]; simpl; lia. }
    destruct fuel as [|fuel]; [lia|].
    cbn [poll]. unfold bind at 1. unfold gets at 1. cbv beta iota.
    assert (Hltb : (clock st <? deadline)%Z = true) by (apply Z.ltb_lt; lia).
    rewrite Hltb.
    unfold bind at 1. unfold gets at 1. cbv beta iota.
    unfold bind at 1. unfold gets at 1. cbv beta iota.
    destruct (sleep_cons 50 b (before ++ tk :: rest) st Hsch)
      as (st1 & Hsleep & Hs1 & Hl1 & Hc1 & Hb1).
    assert (Hnext : exists resp st',
              bind (sleep 50) (fun _ => poll fuel path timeoutMs deadline) st
              = (Returned (Some resp), st')).
    { unfold bind. rewrite Hsleep.
      apply IH; [congruence | exact Hs1 | lia | lia | lia]. }
    destruct (responseBuffer st !! path) as [resp|] eqn:Hresp; [|exact Hnext].
    destruct (timestamp resp >? clock st - timeoutMs)%Z; [|exact Hnext].
    now exists resp, st.
Qed.

Section ClientProperties.

Variable mainEndpoints : EndpointStore.
Variable fxEndpoints : EndpointStore.
Variable Number_toString : number -> string.

Local Abbreviation all := (getAllEndpoints mainEndpoints fxEndpoints).
Local Abbreviation info := (getEndpointInfo mainEndpoints fxEndpoints).
Local Abbreviation path_of := (buildOscPath mainEndpoints fxEndpoints Number_toString).
Local Abbreviation getValue' := (getValue mainEndpoints fxEndpoints Number_toString).
Local Abbreviation setValue' := (setValue mainEndpoints fxEndpoints Number_toString).
Local Abbreviation reachable' := (reachable mainEndpoints fxEndpoints Number_toString).

(** A path built by the catalog starts with a slash. *)
Lemma buildOscPath_truthy (group endpoint : string) (index : option number)
    (path : string) :
  path_of group endpoint index = Some path -> truthy path = true.
Proof.
  unfold buildOscPath. destruct (info group endpoint) as [spec|]; [|discriminate].
  intros [= <-]. destruct index as [i|]; [destruct (multiPath spec)|]; reflexivity.
Qed.

Lemma buildOscPath_of_info (group endpoint : string) (index : option number)
    (spec : EndpointSpec) :
  info group endpoint = Some spec ->
  exists path, path_of group endpoint index = Some path /\
               no_path (path_of group endpoint index) = false.
Proof.
  intros Hspec.
  destruct (path_of group endpoint index) as [path|] eqn:Hp.
  - exists path. split; [reflexivity|]. simpl.
    now rewrite (buildOscPath_truthy _ _ _ _ Hp).
  - unfold buildOscPath in Hp. rewrite Hspec in Hp. discriminate.
Qed.

(** A run of [getValue] on a connected client, for an endpoint of the
    catalog. *)
Lemma getValue_run (st : State) (c : Client) (group endpoint : string)
    (index : option number) (timeoutMs_ : option Z) (path : string) :
  client st = Some c ->
  path_of group endpoint index = Some path ->
  exists r st',
    getValue' group endpoint index timeoutMs_ st = (r, st') /\
    same_session st st' /\
    outbox st' = outbox st ++ [(c, {| msg_address := path; msg_args := [] |})] /\
    ((exists resp,
        r = Returned (Some resp) /\ address resp = path /\
        responseBuffer st' !! path = Some resp /\
        timestamp resp > clock st' - default 2000 timeoutMs_ /\
        clock st <= timestamp resp /\
        exists tk, In tk (schedule st) /\ In (Inbound path (args resp)) tk)
     \/ (r = Returned None /\ clock st + default 2000 timeoutMs_ <= clock st')).
Proof.
  intros Hc Hpath.
  unfold getValue. unfold bind at 1. unfold gets at 1. cbv beta iota.
  rewrite Hc, Hpath.
  change (no_path (Some path)) with (negb (truthy path)).
  rewrite (buildOscPath_truthy _ _ _ _ Hpath). cbn [negb].
  change (default "" (Some path)) with path.
  set (st0 := set_responseBuffer (delete path (responseBuffer st)) st).
  unfold bind at 1. unfold modify at 1. cbv beta iota. fold st0.
  destruct (Client_send_spec c {| msg_address := path; msg_args := [] |} st0 eq_refl)
    as (u1 & st1 & Hsend & Hp1 & Ho1).
  unfold bind at 1. rewrite Hsend.
  unfold bind at 1. unfold gets at 1. cbv beta iota.
  destruct (poll_spec (S (Z.to_nat (default 2000 timeoutMs_))) path
              (default 2000 timeoutMs_) (clock st1 + default 2000 timeoutMs_) st1)
    as (u2 & r & st2 & Hpoll & Hp2 & Ho2 & Hres); [lia|].
  exists r, st2. split; [exact Hpoll|].
  pose proof (progress_trans _ _ _ _ _ Hp1 Hp2) as (Hsch & Hss & [Hclk Hbuf]).
  split; [exact Hss|].
  split; [rewrite Ho2, Ho1; reflexivity|].
  destruct Hp1 as (_ & _ & [Hclk1 _]).
  destruct Hres as [(resp & -> & Hlook & Hfresh) | [-> Hdead]].
  - left. exists resp. split; [reflexivity|].
    destruct (Hbuf path resp Hlook) as [Hold | (Ha & Ht & Hin)].
    + subst st0. simpl in Hold. rewrite lookup_delete_eq in Hold. discriminate.
    + apply in_concat in Hin as (tk & Htk & Hin).
      repeat split; try assumption; try (subst st0; simpl in *; lia).
      exists tk. split; [|exact Hin].
      subst st0. simpl in Hsch. rewrite Hsch. apply in_or_app. now left.
  - right. split; [reflexivity|]. subst st0. simpl in *. lia.
Qed.

(** An answer in time is returned. *)
Lemma getValue_answers (st : State) (c : Client) (l : Server)
    (group endpoint : string) (index : option number) (timeoutMs_ : option Z)
    (path : string) (t0 : Tick) (before : list Tick) (tk : Tick)
    (rest : list Tick) (a : list JsValue) :
  client st = Some c ->
  listener st = Some l ->
  path_of group endpoint index = Some path ->
  schedule st = t0 :: before ++ tk :: rest ->
  In (Inbound path a) tk ->
  waits (before ++ [tk]) < default 2000 timeoutMs_ ->
  exists resp st',
    getValue' group endpoint index timeoutMs_ st = (Returned (Some resp), st').
Proof.
  intros Hc Hl Hpath Hsch Hin Hwait.
  unfold getValue. unfold bind at 1. unfold gets at 1. cbv beta iota.
  rewrite Hc, Hpath.
  change (no_path (Some path)) with (negb (truthy path)).
  rewrite (buildOscPath_truthy _ _ _ _ Hpath). cbn [negb].
  change (default "" (Some path)) with path.
  unfold bind at 1. unfold modify at 1. cbv beta iota.
  unfold Client_send.
  change (omap encoding_error (msg_args {| msg_address := path; msg_args := [] |}))
    with (@nil Error).
  cbv beta iota. unfold bind at 1. unfold bind at 1.
  unfold modify at 1. cbv beta iota.
  rewrite (yield_cons t0 (before ++ tk :: rest)) by exact Hsch.
  unfold bind at 1. unfold gets at 1. cbv beta iota.
  match goal with
  | |- context [poll _ _ _ _ ?s] => set (st1 := s)
  end.
  assert (Hfr : listener st1 = Some l /\ schedule st1 = before ++ tk :: rest).
  { subst st1.
    match goal with
    | |- context [run_tick t0 ?s] =>
        destruct (run_tick_frame t0 s) as ((_ & Hl1 & _) & _ & Hs1)
    end.
    split; [rewrite Hl1; exact Hl | rewrite Hs1; reflexivity]. }
  destruct Hfr as [Hl1 Hs1].
  apply (poll_answers path (default 2000 timeoutMs_)
           (clock st1 + default 2000 timeoutMs_) l tk rest a before Hin);
    [exact Hl1 | exact Hs1 | lia | lia | lia].
Qed.


(** Running [setValue] up to the encoding of the value. *)
Ltac setValue_enter Hc Hspec :=
  unfold setValue; unfold bind at 1; unfold gets at 1; cbv beta iota;
  rewrite Hc, Hspec.

Ltac setValue_path Hp Hnp :=
  cbv zeta; rewrite Hnp, ?Hp; cbv beta iota;
  try change (default "" (Some ?p)) with p.

Lemma sends_Client_send (st : State) (c : Client) (path : string) (a : OscArg) :
  encoding_error a = None ->
  sends (Client_send c {| msg_address := path; msg_args := [a] |} st) st c path a.
Proof.
  intros Henc.
  destruct (Client_send_spec c {| msg_address := path; msg_args := [a] |} st)
    as (used & st' & Hsend & (_ & Hss & _) & Ho); [simpl; now rewrite Henc|].
  unfold sends. rewrite Hsend. split; [reflexivity|]. split; [exact Ho | exact Hss].
Qed.

Lemma Client_send_refused (st : State) (c : Client) (path : string) (a : OscArg)
    (e : Error) :
  encoding_error a = Some e ->
  Client_send c {| msg_address := path; msg_args := [a] |} st = (Threw e, st).
Proof. intros Henc. unfold Client_send. simpl. now rewrite Henc. Qed.

Lemma out_of_int32_spec (n : Z) :
  out_of_int32 (Finite (inject_Z n)) = false <-> int32 n.
Proof.
  unfold out_of_int32, number_ltb, int32. simpl.
  rewrite orb_false_iff, !negb_false_iff, !Qle_bool_iff.
  unfold Qle. simpl. lia.
Qed.

(** C3, as amended: for a connected client, an endpoint of the catalog and
    a numeric value: with argument type float and the fader message type,
    [setValue] sends the value clamped to the interval from 1e-7 to
    1 - 1e-7, which is below 1 and above 0; with argument type float and
    another message type, the value clamped to the interval from 0 to 1;
    with argument type integer, the nearest integer when that fits a signed
    32-bit integer, and when it does not, nothing: the call throws the
    range error of the encoder and leaves everything as it was. *)
Theorem setValue_numeric (st : State) (c : Client) (group endpoint : string)
    (spec : EndpointSpec) (index : option number) (q : Q) :
  client st = Some c ->
  info group endpoint = Some spec ->
  exists path,
    path_of group endpoint index = Some path /\
    match argumentType spec with
    | Some ArgFloat =>
        exists v : Q,
          sends (setValue' group endpoint (VNumber (Finite q)) index st) st c path
                {| arg_type := TagF; arg_value := VNumber (Finite v) |} /\
          if bool_decide (type spec = enPPCFaderMessage)
          then clamped (1 # 10000000) (1 - (1 # 10000000)) q v /\ (0 < v < 1)%Q
          else clamped 0 1 q v
    | Some ArgInteger =>
        exists n : Z,
          (inject_Z n - (1 # 2) <= q < inject_Z n + (1 # 2))%Q /\
          (int32 n ->
           sends (setValue' group endpoint (VNumber (Finite q)) index st) st c path
                 {| arg_type := TagI; arg_value := VNumber (Finite (inject_Z n)) |}) /\
          (~ int32 n ->
           setValue' group endpoint (VNumber (Finite q)) index st
             = (Threw (RangeError (Finite (inject_Z n))), st))
    | _ => True
    end.
Proof.
  intros Hc Hspec.
  destruct (buildOscPath_of_info group endpoint index spec Hspec) as (path & Hp & Hnp).
  exists path. split; [exact Hp|].
  destruct (argumentType spec) as [[]|] eqn:Harg; [| |exact I|exact I].
  - assert (Hrun : forall v,
      (match type spec with
       | enPPCFaderMessage =>
           Math_max (Finite (1 # 10000000))
             (Math_min (Finite (9999999 # 10000000)) (Finite q))
       | _ => Math_max (Finite 0) (Math_min (Finite 1) (Finite q))
       end) = Finite v ->
      sends (setValue' group endpoint (VNumber (Finite q)) index st) st c path
            {| arg_type := TagF; arg_value := VNumber (Finite v) |}).
    { intros v Hv. setValue_enter Hc Hspec. rewrite Harg. setValue_path Hp Hnp.
      rewrite Hv. now apply sends_Client_send. }
    destruct (bool_decide (type spec = enPPCFaderMessage)) eqn:Hty.
    + apply bool_decide_eq_true in Hty.
      destruct (clamp_spec (1 # 10000000) (9999999 # 10000000) q) as (v & Hv & Hcl);
        [lra|].
      exists v. split; [apply Hrun; now rewrite Hty|].
      unfold clamped in *. repeat split; intros; lra.
    + apply bool_decide_eq_false in Hty.
      destruct (clamp_spec 0 1 q) as (v & Hv & Hcl); [lra|].
      exists v. split; [|exact Hcl].
      apply Hrun. now destruct (type spec).
  - destruct (Math_round_spec q) as (n & Hn & Hbounds).
    exists n. split; [exact Hbounds|]. split.
    + intros Hfit%out_of_int32_spec.
      setValue_enter Hc Hspec. rewrite Harg. setValue_path Hp Hnp.
      rewrite Hn. apply sends_Client_send.
      unfold encoding_error. simpl. now rewrite Hfit.
    + intros Hout.
      assert (Hr : out_of_int32 (Finite (inject_Z n)) = true).
      { destruct (out_of_int32 (Finite (inject_Z n))) eqn:E; [reflexivity|].
        now apply out_of_int32_spec in E. }
      setValue_enter Hc Hspec. rewrite Harg. setValue_path Hp Hnp.
      rewrite Hn. apply Client_send_refused.
      unfold encoding_error. simpl. now rewrite Hr.
Qed.

Lemma setValue_not_connected (st : State) (group endpoint : string)
    (value : JsValue) (index : option number) :
  client st = None ->
  setValue' group endpoint value index st = (Threw NotConnected, st).
Proof.
  intros Hc. unfold setValue. unfold bind at 1. unfold gets at 1. cbv beta iota.
  now rewrite Hc.
Qed.

(** What [setValue] does for a connected client, case by case. *)
Lemma setValue_connected (st : State) (c : Client) (group endpoint : string)
    (value : JsValue) (index : option number) :
  client st = Some c ->
  let res := setValue' group endpoint value index st in
  match info group endpoint with
  | None => res = (Threw (InvalidEndpoint group endpoint), st)
  | Some spec =>
      match argumentType spec, value with
      | None, _ => res = (Threw (ReadOnlyViolation endpoint), st)
      | Some ArgFloat, VString _ => res = (Threw (TypeMismatch "float" value), st)
      | Some ArgInteger, VString _ => res = (Threw (TypeMismatch "integer" value), st)
      | Some ArgString, _ =>
          exists path, path_of group endpoint index = Some path /\
            sends res st c path
              {| arg_type := TagS;
                 arg_value := VString (String_of Number_toString value) |}
      | Some ArgFloat, VNumber _ =>
          exists path a, path_of group endpoint index = Some path /\
                         sends res st c path a
      | Some ArgInteger, VNumber v =>
          if out_of_int32 (Math_round v)
          then res = (Threw (RangeError (Math_round v)), st)
          else exists path, path_of group endpoint index = Some path /\
                 sends res st c path
                   {| arg_type := TagI; arg_value := VNumber (Math_round v) |}
      end
  end.
Proof.
  intros Hc res. subst res.
  destruct (info group endpoint) as [spec|] eqn:Hspec.
  - destruct (buildOscPath_of_info group endpoint index spec Hspec)
      as (path & Hp & Hnp).
    destruct (argumentType spec) as [[]|] eqn:Harg.
    + destruct value as [n|s].
      * exists path. eexists. split; [exact Hp|].
        setValue_enter Hc Hspec. rewrite Harg. setValue_path Hp Hnp.
        now apply sends_Client_send.
      * setValue_enter Hc Hspec. rewrite Harg. setValue_path Hp Hnp. reflexivity.
    + destruct value as [n|s].
      * destruct (out_of_int32 (Math_round n)) eqn:Hr.
        -- setValue_enter Hc Hspec. rewrite Harg. setValue_path Hp Hnp.
           apply Client_send_refused. unfold encoding_error. simpl. now rewrite Hr.
        -- exists path. split; [exact Hp|].
           setValue_enter Hc Hspec. rewrite Harg. setValue_path Hp Hnp.
           apply sends_Client_send. unfold encoding_error. simpl. now rewrite Hr.
      * setValue_enter Hc Hspec. rewrite Harg. setValue_path Hp Hnp. reflexivity.
    + assert (Hs : exists path, path_of group endpoint index = Some path /\
                sends (setValue' group endpoint value index st) st c path
                  {| arg_type := TagS;
                     arg_value := VString (String_of Number_toString value) |}).
      { exists path. split; [exact Hp|].
        setValue_enter Hc Hspec. rewrite Harg. setValue_path Hp Hnp.
        now apply sends_Client_send. }
      destruct value; exact Hs.
    + assert (Hs : setValue' group endpoint value index st
                   = (Threw (ReadOnlyViolation endpoint), st)).
      { setValue_enter Hc Hspec. rewrite Harg. reflexivity. }
      destruct value; exact Hs.
  - setValue_enter Hc Hspec. reflexivity.
Qed.

(** [setValue] throws and changes nothing, or sends one message. *)
Lemma setValue_outcome (st : State) (group endpoint : string)
    (value : JsValue) (index : option number) :
  let res := setValue' group endpoint value index st in
  (snd res = st /\ exists e, fst res = Threw e) \/
  (exists c path a,
      client st = Some c /\ path_of group endpoint index = Some path /\
      sends res st c path a).
Proof.
  intros res. subst res.
  destruct (client st) as [c|] eqn:Hc.
  - pose proof (setValue_connected st c group endpoint value index Hc) as H.
    cbv zeta in H.
    destruct (info group endpoint) as [spec|];
      [destruct (argumentType spec) as [[]|], value as [v|s]|];
      try lazymatch type of H with
          | if ?b then _ else _ => destruct b
          end;
      lazymatch type of H with
      | _ = (Threw _, _) =>
          rewrite H; left; split; [reflexivity | eexists; reflexivity]
      | exists (p : string) (a : OscArg), _ =>
          destruct H as (path & a & Hp & Hs); right; now exists c, path, a
      | exists (p : string), _ =>
          destruct H as (path & Hp & Hs); right; eexists c, path, _;
          split; [reflexivity|]; split; [exact Hp | exact Hs]
      end.
  - rewrite setValue_not_connected by assumption.
    left. split; [reflexivity | eexists; reflexivity].
Qed.

(** C5, as amended, for a group and an endpoint name that [Object.prototype]
    does not define: [setValue] throws exactly when the client is not
    connected, the pair is not in the catalog, the argument type of the
    endpoint is none, the value is not a number while the argument type is
    float or integer, or the argument type is integer and the number
    rounded does not fit a signed 32-bit integer, each with its own error;
    with argument type string a value of either kind is sent as the string
    it converts to; in every other case the call returns, also for an
    endpoint [isDangerous] flags. *)
Theorem setValue_failures (st : State) (group endpoint : string)
    (value : JsValue) (index : option number) :
  own_names group endpoint ->
  let res := setValue' group endpoint value index st in
  (client st = None -> fst res = Threw NotConnected) /\
  (client st <> None -> info group endpoint = None ->
   fst res = Threw (InvalidEndpoint group endpoint)) /\
  (forall spec, client st <> None -> info group endpoint = Some spec ->
     argumentType spec = None ->
     fst res = Threw (ReadOnlyViolation endpoint)) /\
  (forall spec s, client st <> None -> info group endpoint = Some spec ->
     value = VString s ->
     (argumentType spec = Some ArgFloat ->
      fst res = Threw (TypeMismatch "float" value)) /\
     (argumentType spec = Some ArgInteger ->
      fst res = Threw (TypeMismatch "integer" value))) /\
  (forall spec v, client st <> None -> info group endpoint = Some spec ->
     argumentType spec = Some ArgInteger -> value = VNumber v ->
     out_of_int32 (Math_round v) = true ->
     fst res = Threw (RangeError (Math_round v))) /\
  (forall spec c, client st = Some c -> info group endpoint = Some spec ->
     argumentType spec = Some ArgString ->
     exists path, path_of group endpoint index = Some path /\
       sends res st c path
         {| arg_type := TagS;
            arg_value := VString (String_of Number_toString value) |}) /\
  ((exists e, fst res = Threw e)
   <-> setValue_fails st (info group endpoint) value
       \/ integer_overflow (info group endpoint) value) /\
  (~ (setValue_fails st (info group endpoint) value
      \/ integer_overflow (info group endpoint) value) ->
   fst res = Returned tt) /\
  (isDangerous st endpoint = true ->
   ~ (setValue_fails st (info group endpoint) value
      \/ integer_overflow (info group endpoint) value) ->
   fst res = Returned tt).
Proof.
  intros _ res.
  assert (Hcases :
    ((setValue_fails st (info group endpoint) value
      \/ integer_overflow (info group endpoint) value)
     /\ exists e, fst res = Threw e)
    \/ (~ (setValue_fails st (info group endpoint) value
           \/ integer_overflow (info group endpoint) value)
        /\ fst res = Returned tt)).
  { subst res. unfold setValue_fails, integer_overflow.
    destruct (client st) as [c|] eqn:Hc.
    - pose proof (setValue_connected st c group endpoint value index Hc) as H.
      cbv zeta in H.
      destruct (info group endpoint) as [spec|] eqn:Hspec.
      + destruct (argumentType spec) as [[]|] eqn:Harg; destruct value as [n|s];
          try lazymatch type of H with
              | if ?b then _ else _ => destruct b eqn:Hr
              end;
          lazymatch type of H with
          | _ = (Threw (RangeError _), _) =>
              rewrite H; left; split; [|eexists; reflexivity];
              right; exists spec, n; now repeat split
          | _ = (Threw _, _) =>
              rewrite H; left; split; [|eexists; reflexivity];
              left; right; right; exists spec; split; [reflexivity|]; now auto
          | exists (p : string) (a : OscArg), _ =>
              destruct H as (path & a & _ & H & _)
          | exists (p : string), _ =>
              destruct H as (path & _ & H & _)
          end;
          right; (split; [|exact H]);
          intros [[?|[?|(spec' & [= <-] & [?|[? [?|?]]])]]
                  | (spec' & v' & [= <-] & ? & ? & ?)];
          simpl in *; congruence.
      + rewrite H. left. split; [now auto | eexists; reflexivity].
    - rewrite setValue_not_connected by assumption.
      left. split; [now left; left | eexists; reflexivity]. }
  split; [|split; [|split; [|split; [|split; [|split; [|split; [|split]]]]]]].
  - intros Hc. subst res. now rewrite setValue_not_connected.
  - intros Hc Hspec. destruct (client st) as [c|] eqn:Hc'; [|contradiction].
    pose proof (setValue_connected st c group endpoint value index Hc') as H.
    cbv zeta in H. rewrite Hspec in H. subst res. now rewrite H.
  - intros spec Hc Hspec Harg. destruct (client st) as [c|] eqn:Hc'; [|contradiction].
    pose proof (setValue_connected st c group endpoint value index Hc') as H.
    cbv zeta in H. rewrite Hspec, Harg in H. subst res. now rewrite H.
  - intros spec s Hc Hspec ->. destruct (client st) as [c|] eqn:Hc'; [|contradiction].
    pose proof (setValue_connected st c group endpoint (VString s) index Hc') as H.
    cbv zeta in H. rewrite Hspec in H. subst res.
    split; intros Harg; rewrite Harg in H; now rewrite H.
  - intros spec v Hc Hspec Harg -> Hr.
    destruct (client st) as [c|] eqn:Hc'; [|contradiction].
    pose proof (setValue_connected st c group endpoint (VNumber v) index Hc') as H.
    cbv zeta in H. rewrite Hspec, Harg, Hr in H. subst res. now rewrite H.
  - intros spec c Hc Hspec Harg.
    pose proof (setValue_connected st c group endpoint value index Hc) as H.
    cbv zeta in H. rewrite Hspec, Harg in H. exact H.
  - destruct Hcases as [[Hf He] | [Hnf Hr]]; [tauto|].
    split; [|tauto]. intros [e He]. rewrite Hr in He. discriminate.
  - intros Hnf. destruct Hcases as [[Hf _] | [_ Hr]]; [contradiction | exact Hr].
  - intros _ Hnf. destruct Hcases as [[Hf _] | [_ Hr]]; [contradiction | exact Hr].
Qed.

(** ** Sessions *)

Lemma bind_run {A B} (m : M A) (k : A -> M B) (st st1 : State) (a : A) :
  m st = (Returned a, st1) -> bind m k st = k a st1.
Proof. intros H. unfold bind. now rewrite H. Qed.

Lemma Client_close_spec (c : Client) (st : State) :
  exists st1,
    Client_close c st = (Returned tt, st1) /\
    client st1 = client st /\ listener st1 = listener st /\
    config st1 = config st /\ next_id st1 = next_id st /\
    outbox st1 = outbox st /\
    open_clients st1 = filter (fun c' => client_id c' ≠ client_id c) (open_clients st) /\
    open_servers st1 = open_servers st.
Proof.
  unfold Client_close, bind, modify.
  destruct (yield_spec
              (set_world (next_id st)
                 (filter (fun c' => client_id c' ≠ client_id c) (open_clients st))
                 (open_servers st) (outbox st) st))
    as (used & st1 & Hy & (_ & Hss & _) & Ho).
  rewrite Hy. exists st1. split; [reflexivity|].
  destruct Hss as (?&?&?&?&?&?). simpl in *. repeat split; assumption.
Qed.

(** [disconnect] returns, with the three fields cleared and the buffer
    empty, the sockets the client held being closed. *)
Lemma disconnect_run (st : State) :
  exists st',
    disconnect st = (Returned tt, st') /\
    client st' = None /\ listener st' = None /\ config st' = None /\
    responseBuffer st' = ∅ /\
    next_id st' = next_id st /\ outbox st' = outbox st /\
    open_clients st' =
      match client st with
      | Some c => filter (fun c' => client_id c' ≠ client_id c) (open_clients st)
      | None => open_clients st
      end /\
    open_servers st' =
      match listener st with
      | Some l => filter (fun l' => server_id l' ≠ server_id l) (open_servers st)
      | None => open_servers st
      end.
Proof.
  assert (Hrest : forall st2 : State,
    client st2 = None ->
    exists st',
      bind (gets listener) (fun l =>
        bind match l with
             | Some l => bind (Server_close l) (fun _ => modify (set_listener None))
             | None => ret tt
             end
          (fun _ => bind (modify (set_config None))
                         (fun _ => modify (set_responseBuffer ∅)))) st2
        = (Returned tt, st') /\
      client st' = None /\ listener st' = None /\ config st' = None /\
      responseBuffer st' = ∅ /\
      next_id st' = next_id st2 /\ outbox st' = outbox st2 /\
      open_clients st' = open_clients st2 /\
      open_servers st' =
        match listener st2 with
        | Some l => filter (fun l' => server_id l' ≠ server_id l) (open_servers st2)
        | None => open_servers st2
        end).
  { intros st2 Hc2. unfold bind, gets, modify, ret, Server_close.
    destruct (listener st2) as [l|] eqn:Hl2; eexists; (split; [reflexivity|]);
      simpl; repeat split; assumption. }
  unfold disconnect. rewrite (bind_run (gets client) _ st st (client st) eq_refl).
  destruct (client st) as [c|] eqn:Hc.
  - destruct (Client_close_spec c st)
      as (st1 & Hcl & Hc1 & Hl1 & Hcfg1 & Hn1 & Ho1 & Hoc1 & Hos1).
    rewrite (bind_run _ _ st (set_client None st1) tt)
      by (rewrite (bind_run _ _ _ _ _ Hcl); reflexivity).
    destruct (Hrest (set_client None st1) eq_refl)
      as (st' & Hrun & ? & ? & ? & ? & Hn & Ho & Hoc & Hos).
    exists st'. split; [exact Hrun|]. simpl in *.
    rewrite Hl1, Hos1 in Hos. repeat split; try assumption; congruence.
  - rewrite (bind_run _ _ st st tt eq_refl).
    destruct (Hrest st Hc) as (st' & Hrun & ? & ? & ? & ? & Hn & Ho & Hoc & Hos).
    exists st'. repeat split; assumption.
Qed.

Lemma disconnect_coherent (st st' : State) (r : Outcome unit) :
  coherent st -> disconnect st = (r, st') ->
  r = Returned tt /\ coherent st' /\ client st' = None /\
  open_clients st' = [] /\ open_servers st' = [] /\ responseBuffer st' = ∅ /\
  next_id st' = next_id st /\ outbox st' = outbox st.
Proof.
  intros Hco Hrun.
  destruct (disconnect_run st)
    as (st2 & Hrun2 & Hc & Hl & Hcfg & Hb & Hn & Ho & Hoc & Hos).
  rewrite Hrun in Hrun2. injection Hrun2 as -> ->.
  assert (Hopen : open_clients st2 = [] /\ open_servers st2 = []).
  { unfold coherent in Hco.
    destruct (client st) as [c|], (listener st) as [l|], (config st) as [cfg|];
      try contradiction.
    - destruct Hco as (Hc1 & Hl1 & _). rewrite Hoc, Hos, Hc1, Hl1. split.
      + rewrite filter_cons_False by (intros H; now apply H). reflexivity.
      + rewrite filter_cons_False by (intros H; now apply H). reflexivity.
    - destruct Hco as (_ & Hc1 & Hl1). now rewrite Hoc, Hos. }
  destruct Hopen as [Hoc' Hos'].
  split; [reflexivity|]. split; [|now repeat split].
  unfold coherent. rewrite Hc, Hl, Hcfg. now repeat split.
Qed.

(** [connect] on a coherent client returns, holding one fresh session made
    from its arguments, with nothing buffered. *)
Lemma connect_run (st : State) (ip_ : string) (port_ listenPort_ : option number) :
  coherent st ->
  exists st' c l,
    connect ip_ port_ listenPort_ st = (Returned tt, st') /\
    coherent st' /\
    client st' = Some c /\ listener st' = Some l /\
    config st' = Some {| ip := ip_;
                         port := default (Finite 10023) port_;
                         listenPort := default (Finite 10024) listenPort_ |} /\
    responseBuffer st' = ∅ /\
    client_id c = next_id st /\ server_id l = S (next_id st) /\
    outbox st' = outbox st.
Proof.
  intros Hco.
  assert (Hd : exists st_d,
    match client st with Some _ => disconnect | None => ret tt end st
      = (Returned tt, st_d) /\
    client st_d = None /\ open_clients st_d = [] /\ open_servers st_d = [] /\
    responseBuffer st_d = ∅ /\ next_id st_d = next_id st /\
    outbox st_d = outbox st).
  { destruct (client st) as [c|] eqn:Hc.
    - destruct (disconnect st) as [r st_d] eqn:Hrun.
      destruct (disconnect_coherent st st_d r Hco Hrun)
        as (-> & _ & ? & ? & ? & ? & ? & ?).
      exists st_d. now repeat split.
    - exists st. split; [reflexivity|].
      unfold coherent in Hco. rewrite Hc in Hco.
      destruct (listener st), (config st); try contradiction.
      destruct Hco as (? & ? & ?). now repeat split. }
  destruct Hd as (st_d & Hd & Hc_d & Hoc_d & Hos_d & Hb_d & Hn_d & Ho_d).
  unfold connect. cbv zeta.
  rewrite (bind_run (gets client) _ st st (client st) eq_refl).
  rewrite (bind_run _ _ st st_d tt Hd).
  unfold bind, modify, gets, new_Client, new_Server. cbv beta iota.
  do 3 eexists. split; [reflexivity|]. simpl.
  split; [|repeat split; try assumption; try reflexivity; simpl; congruence].
  unfold coherent. simpl. rewrite Hoc_d, Hos_d. simpl.
  repeat split; lia.
Qed.

Lemma coherent_same_session (st st' : State) :
  coherent st -> client st <> None -> same_session st st' -> coherent st'.
Proof.
  unfold coherent. intros Hco Hc (H1 & H2 & H3 & H4 & H5 & H6).
  rewrite H1, H2, H3, H4, H5, H6.
  destruct (client st); [exact Hco | contradiction].
Qed.

Lemma coherent_run_tick (tk : Tick) (st : State) :
  coherent st -> coherent (run_tick tk st).
Proof.
  intros Hco. destruct (run_tick_frame tk st) as (Hss & _ & _).
  destruct (client st) as [c|] eqn:Hc.
  - eapply coherent_same_session; [exact Hco | congruence | exact Hss].
  - unfold coherent in *. destruct Hss as (H1 & H2 & H3 & H4 & H5 & H6).
    rewrite H1, H2, H3, H5, H6. rewrite Hc in *.
    destruct (listener st) eqn:Hl, (config st); try contradiction.
    rewrite (run_tick_no_listener tk st Hl). exact Hco.
Qed.

Lemma getValue_effect (st : State) (group endpoint : string)
    (index : option number) (timeoutMs_ : option Z) :
  same_session st (snd (getValue' group endpoint index timeoutMs_ st)) /\
  (client st = None -> snd (getValue' group endpoint index timeoutMs_ st) = st).
Proof.
  destruct (client st) as [c|] eqn:Hc.
  - split; [|discriminate].
    destruct (path_of group endpoint index) as [path|] eqn:Hp.
    + destruct (getValue_run st c group endpoint index timeoutMs_ path Hc Hp)
        as (r & st' & Hrun & Hss & _).
      now rewrite Hrun.
    + unfold getValue. unfold bind at 1. unfold gets at 1. cbv beta iota.
      rewrite Hc, Hp. apply same_session_refl.
  - assert (H : getValue' group endpoint index timeoutMs_ st = (Threw NotConnected, st)).
    { unfold getValue. unfold bind at 1. unfold gets at 1. cbv beta iota.
      now rewrite Hc. }
    rewrite H. split; [apply same_session_refl | reflexivity].
Qed.

Lemma setValue_effect (st : State) (group endpoint : string)
    (value : JsValue) (index : option number) :
  same_session st (snd (setValue' group endpoint value index st)) /\
  (client st = None -> snd (setValue' group endpoint value index st) = st).
Proof.
  split.
  - destruct (setValue_outcome st group endpoint value index)
      as [[Hst _] | (c & path & a & _ & _ & _ & _ & Hss)]; cbv zeta in *.
    + rewrite Hst. apply same_session_refl.
    + exact Hss.
  - intros Hc. now rewrite setValue_not_connected.
Qed.

Lemma run_call_coherent (call : Call) (st : State) :
  coherent st ->
  coherent (run_call mainEndpoints fxEndpoints Number_toString call st).
Proof.
  intros Hco. destruct call as [i p l | | g e i tmo | g e v i]; simpl.
  - destruct (connect_run st i p l Hco) as (st' & c & s & Hrun & Hco' & _).
    now rewrite Hrun.
  - destruct (disconnect st) as [r st'] eqn:Hrun.
    now destruct (disconnect_coherent st st' r Hco Hrun) as (_ & Hco' & _).
  - destruct (getValue_effect st g e i tmo) as [Hss Hnone].
    destruct (client st) eqn:Hc.
    + eapply coherent_same_session; [exact Hco | congruence | exact Hss].
    + now rewrite Hnone.
  - destruct (setValue_effect st g e v i) as [Hss Hnone].
    destruct (client st) eqn:Hc.
    + eapply coherent_same_session; [exact Hco | congruence | exact Hss].
    + now rewrite Hnone.
Qed.

(** Every state of a client is coherent. *)
Lemma reachable_coherent (st : State) : reachable' st -> coherent st.
Proof.
  induction 1 as [now sched | call st _ IH | tk st _ IH].
  - unfold coherent. simpl. now repeat split.
  - now apply run_call_coherent.
  - now apply coherent_run_tick.
Qed.

Lemma reachable_activities (acts : list Activity) (st : State) :
  reachable' st ->
  reachable' (fold_left (run_activity mainEndpoints fxEndpoints Number_toString) acts st).
Proof.
  revert st. induction acts as [|a acts IH]; intros st Hr; simpl; [exact Hr|].
  apply IH. destruct a as [call | tk]; simpl.
  - now apply reachable_call.
  - now apply reachable_env.
Qed.

Lemma session_use_same (acts : list Activity) (st : State) :
  Forall session_use acts ->
  same_session st
    (fold_left (run_activity mainEndpoints fxEndpoints Number_toString) acts st).
Proof.
  intros Hacts. revert st.
  induction Hacts as [|a acts Ha _ IH]; intros st; simpl;
    [apply same_session_refl|].
  eapply same_session_trans; [|apply IH].
  destruct a as [[i p l | | g e i tmo | g e v i] | tk]; simpl in *;
    try contradiction.
  - apply getValue_effect.
  - apply setValue_effect.
  - apply run_tick_frame.
Qed.

(** C6: after a first [connect], any use of the session short of
    [disconnect] (reads, writes, datagrams coming in), and a second
    [connect], the client holds one session, made from the arguments of the
    second call: the stored configuration is the second one, the two
    sockets open are the ones the client holds, those of the first session
    are closed, and the buffer is empty. *)
Theorem connect_twice (st : State)
    (ip1 : string) (port1 listen1 : option number)
    (acts : list Activity)
    (ip2 : string) (port2 listen2 : option number) :
  reachable' st ->
  Forall session_use acts ->
  let st1 := snd (connect ip1 port1 listen1 st) in
  let st2 := fold_left (run_activity mainEndpoints fxEndpoints Number_toString)
                       acts st1 in
  exists c1 s1 c2 s2 st3,
    client st2 = Some c1 /\ listener st2 = Some s1 /\
    client_host c1 = ip1 /\
    connect ip2 port2 listen2 st2 = (Returned tt, st3) /\
    connectionInfo st3 =
      Some {| ip := ip2;
              port := default (Finite 10023) port2;
              listenPort := default (Finite 10024) listen2 |} /\
    responseBuffer st3 = ∅ /\
    client st3 = Some c2 /\ listener st3 = Some s2 /\
    open_clients st3 = [c2] /\ open_servers st3 = [s2] /\
    client_host c2 = ip2 /\
    client_port c2 = default (Finite 10023) port2 /\
    server_port s2 = default (Finite 10024) listen2 /\
    (c1 ∉ open_clients st3) /\ (s1 ∉ open_servers st3).
Proof.
  intros Hr Hacts st1 st2.
  destruct (connect_run st ip1 port1 listen1 (reachable_coherent st Hr))
    as (st1' & c1 & s1 & Hrun1 & Hco1 & Hc1 & Hl1 & Hcfg1 & _).
  assert (Hst1 : st1 = st1') by (subst st1; now rewrite Hrun1).
  pose proof (session_use_same acts st1 Hacts) as Hss. fold st2 in Hss.
  destruct Hss as (Hc2 & Hl2 & Hcfg2 & Hn2 & _).
  assert (Hr2 : reachable' st2).
  { subst st2. apply reachable_activities.
    subst st1. exact (reachable_call _ _ _ (CallConnect ip1 port1 listen1) st Hr). }
  destruct (connect_run st2 ip2 port2 listen2 (reachable_coherent st2 Hr2))
    as (st3 & c2 & s2 & Hrun2 & Hco3 & Hc3 & Hl3 & Hcfg3 & Hb3 & Hid2 & Hsid2 & _).
  rewrite Hst1 in Hc2, Hl2, Hcfg2, Hn2.
  exists c1, s1, c2, s2, st3.
  unfold coherent in Hco1, Hco3.
  rewrite Hc1, Hl1, Hcfg1 in Hco1. rewrite Hc3, Hl3, Hcfg3 in Hco3.
  destruct Hco1 as (_ & _ & Hh1 & _ & _ & _ & Hlt1 & Hlts1).
  destruct Hco3 as (Hoc3 & Hos3 & Hh3 & Hp3 & Hsp3 & _).
  simpl in Hh1, Hh3, Hp3, Hsp3.
  repeat split; try assumption; try congruence.
  - rewrite Hoc3. intros Hin%list_elem_of_singleton. subst c2. lia.
  - rewrite Hos3. intros Hin%list_elem_of_singleton. subst s2. lia.
Qed.

(** C7: [disconnect] returns with the client disconnected, its
    configuration none and its buffer empty, and leaves no socket of the
    client open; on a client that is already disconnected it returns and
    changes nothing. *)
Theorem disconnect_spec (st : State) :
  (exists st',
      disconnect st = (Returned tt, st') /\
      isConnected st' = false /\ client st' = None /\ listener st' = None /\
      connectionInfo st' = None /\ responseBuffer st' = ∅ /\
      (reachable' st -> open_clients st' = [] /\ open_servers st' = []))
  /\ (reachable' st -> isConnected st = false ->
      disconnect st = (Returned tt, st)).
Proof.
  split.
  - destruct (disconnect_run st) as (st' & Hrun & Hc & Hl & Hcfg & Hb & _).
    exists st'. split; [exact Hrun|].
    unfold isConnected, connectionInfo. rewrite Hc.
    do 5 (split; [first [reflexivity | assumption]|]).
    intros Hr.
    destruct (disconnect_coherent st st' _ (reachable_coherent st Hr) Hrun)
      as (_ & _ & _ & Hoc & Hos & _).
    now split.
  - intros Hr Hdis. pose proof (reachable_coherent st Hr) as Hco.
    unfold isConnected in Hdis. unfold coherent in Hco.
    destruct st as [c l cfg buf clk n oc os out sch]. simpl in *.
    destruct c; [discriminate|].
    destruct l, cfg; try contradiction.
    destruct Hco as (-> & -> & ->). reflexivity.
Qed.

(** C10: in every state a client can be in, the send client, the listener
    and the configuration are all three absent or all three present; so
    [isConnected] holds exactly when [connectionInfo] is not [null]. *)
Theorem session_all_or_none (st : State) :
  reachable' st ->
  ((client st = None /\ listener st = None /\ config st = None) \/
   (exists c l cfg,
       client st = Some c /\ listener st = Some l /\ config st = Some cfg))
  /\ (isConnected st = true <-> connectionInfo st <> None).
Proof.
  intros Hr. pose proof (reachable_coherent st Hr) as Hco.
  unfold coherent in Hco. unfold isConnected, connectionInfo.
  destruct (client st) as [c|], (listener st) as [l|], (config st) as [cfg|];
    try contradiction.
  - split; [right; now exists c, l, cfg|]. split; [discriminate | reflexivity].
  - split; [now left|]. split; [discriminate | intros H; now contradiction H].
Qed.

End ClientProperties.

(** ** The client on the sample console *)

(** An answer that comes ten milliseconds after the query is returned as
    it was received. *)
Example getValue_answered :
  fst (getValue Sample.main Sample.fx Sample.render
         "VirtualMicInputs" "enFader" (Some (Finite 2)) None Sample.answering)
  = Returned (Some {| address := Sample.fader_path;
                      args := [VNumber (Finite (1 # 2))];
                      timestamp := 1010 |}).
Proof. vm_compute. reflexivity. Qed.

(** With a silent console the read gives up at the deadline. *)
Example getValue_unanswered :
  let res := getValue Sample.main Sample.fx Sample.render
               "VirtualMicInputs" "enFader" (Some (Finite 2)) None Sample.connected in
  fst res = Returned None /\ clock (snd res) = 3000.
Proof. vm_compute. split; reflexivity. Qed.

(** [NaN] is of type number and goes through both clamps as it is. *)
Example setValue_NaN :
  map snd (outbox (snd (setValue Sample.main Sample.fx Sample.render
                          "VirtualMicInputs" "enFader" (VNumber NaN)
                          (Some (Finite 2)) Sample.connected)))
  = [ {| msg_address := Sample.fader_path;
         msg_args := [ {| arg_type := TagF; arg_value := VNumber NaN |} ] |} ].
Proof. vm_compute. reflexivity. Qed.

(** 3.7 sent to a switch goes out as 4. *)
Example setValue_switch :
  map snd (outbox (snd (setValue Sample.main Sample.fx Sample.render
                          "VirtualMicInputs" "enMute" (VNumber (Finite (37 # 10)))
                          (Some (Finite 2)) Sample.connected)))
  = [ {| msg_address := "/enPPCSwitchMessage/VirtualMicInputs/enMute/2";
         msg_args := [ {| arg_type := TagI; arg_value := VNumber (Finite 4) |} ] |} ].
Proof. vm_compute. reflexivity. Qed.

Lemma setValue_numeric_witness :
  exists path v,
    buildOscPath Sample.main Sample.fx Sample.render
      "VirtualMicInputs" "enFader" (Some (Finite 2)) = Some path /\
    sends (setValue Sample.main Sample.fx Sample.render
             "VirtualMicInputs" "enFader" (VNumber (Finite 1)) (Some (Finite 2))
             Sample.connected)
          Sample.connected Sample.console_client path
          {| arg_type := TagF; arg_value := VNumber (Finite v) |} /\
    (v == 1 - (1 # 10000000))%Q /\ (v < 1)%Q.
Proof.
  pose proof (setValue_numeric Sample.main Sample.fx Sample.render
                Sample.connected Sample.console_client
                "VirtualMicInputs" "enFader" Sample.enFader (Some (Finite 2)) 1
                eq_refl eq_refl) as (path & Hp & v & Hs & Hcl & Hv).
  exists path, v. split; [exact Hp|]. split; [exact Hs|].
  destruct Hcl as (_ & _ & Hhi & _). split; [apply Hhi; lra | apply Hv].
Defined.


(** The reboot command is flagged dangerous, and [setValue] sends it all
    the same. *)
Lemma setValue_failures_witness :
  isDangerous Sample.connected "enRebootConsole" = true /\
  fst (setValue Sample.main Sample.fx Sample.render
         "Globals" "enRebootConsole" (VNumber (Finite 1)) None Sample.connected)
  = Returned tt.
Proof.
  split; [reflexivity|].
  pose proof (setValue_failures Sample.main Sample.fx Sample.render Sample.connected
                "Globals" "enRebootConsole" (VNumber (Finite 1)) None
                (conj eq_refl eq_refl)) as H.
  cbv zeta in H. destruct H as (_ & _ & _ & _ & _ & _ & _ & _ & H).
  apply H; [reflexivity|].
  intros [[H' | [H' | (spec & H' & [H'' | [H'' _]])]]
          | (spec & v & _ & _ & Hv & Hr)].
  - discriminate H'.
  - discriminate H'.
  - injection H' as <-. discriminate H''.
  - discriminate H''.
  - injection Hv as <-. vm_compute in Hr. discriminate Hr.
Defined.

(** C3 as it is worded fails: the nearest integer to 3000000000 does not
    fit the 32 bits of the wire, the encoder refuses it, and the switch is
    sent nothing. *)
Lemma setValue_integer_not_as_stated :
  let res := setValue Sample.main Sample.fx Sample.render
               "VirtualMicInputs" "enMute" (VNumber (Finite 3000000000))
               (Some (Finite 2)) Sample.connected in
  client Sample.connected = Some Sample.console_client /\
  getEndpointInfo Sample.main Sample.fx "VirtualMicInputs" "enMute"
    = Some Sample.enMute /\
  argumentType Sample.enMute = Some ArgInteger /\
  res = (Threw (RangeError (Finite 3000000000)), Sample.connected) /\
  ~ (exists n : Z,
       sends res Sample.connected Sample.console_client
             "/enPPCSwitchMessage/VirtualMicInputs/enMute/2"
             {| arg_type := TagI; arg_value := VNumber (Finite (inject_Z n)) |}).
Proof.
  assert (Hres : setValue Sample.main Sample.fx Sample.render
                   "VirtualMicInputs" "enMute" (VNumber (Finite 3000000000))
                   (Some (Finite 2)) Sample.connected
                 = (Threw (RangeError (Finite 3000000000)), Sample.connected))
    by (vm_compute; reflexivity).
  cbv zeta. rewrite Hres.
  split; [reflexivity|]. split; [reflexivity|]. split; [reflexivity|].
  split; [reflexivity|].
  intros (n & Hr & _). discriminate Hr.
Qed.

(** C5 as it is worded fails: on a connected client, 3000000000 for a
    switch of the catalog is a number for an endpoint that takes an
    integer, none of the four reasons holds, and [setValue] fails. *)
Lemma setValue_fails_not_as_stated :
  let value := VNumber (Finite 3000000000) in
  ~ setValue_fails Sample.connected
      (getEndpointInfo Sample.main Sample.fx "VirtualMicInputs" "enMute") value /\
  exists e,
    fst (setValue Sample.main Sample.fx Sample.render
           "VirtualMicInputs" "enMute" value (Some (Finite 2)) Sample.connected)
    = Threw e.
Proof.
  cbv zeta. split.
  - intros [H | [H | (spec & H & [H' | [H' _]])]].
    + discriminate H.
    + discriminate H.
    + injection H as <-. discriminate H'.
    + discriminate H'.
  - exists (RangeError (Finite 3000000000)). vm_compute. reflexivity.
Qed.

(** During the first session an answer was buffered. *)
Example first_session_buffered :
  responseBuffer (run_call Sample.main Sample.fx Sample.render
                    Sample.read_fader Sample.answering) !! Sample.fader_path
  = Some {| address := Sample.fader_path;
            args := [VNumber (Finite (1 # 2))];
            timestamp := 1010 |}.
Proof. vm_compute. reflexivity. Qed.

Lemma connect_twice_witness :
  exists st3,
    connect "192.168.1.101" (Some (Finite 10033)) None
      (run_call Sample.main Sample.fx Sample.render Sample.read_fader Sample.answering)
      = (Returned tt, st3) /\
    connectionInfo st3 =
      Some {| ip := "192.168.1.101"; port := Finite 10033;
              listenPort := Finite 10024 |} /\
    responseBuffer st3 = ∅ /\
    (Sample.console_client ∉ open_clients st3).
Proof.
  pose proof (connect_twice Sample.main Sample.fx Sample.render
                (initial 1000 Sample.answer) "192.168.1.100" None None
                [Do Sample.read_fader]
                "192.168.1.101" (Some (Finite 10033)) None
                (reachable_initial _ _ _ 1000 Sample.answer)
                (@List.Forall_cons _ session_use (Do Sample.read_fader) [] I
                   (@List.Forall_nil _ _))) as H.
  cbv zeta in H.
  destruct H as (c1 & s1 & c2 & s2 & st3 & Hc1 & _ & _ & Hrun & Hcfg & Hbuf
                 & _ & _ & _ & _ & _ & _ & _ & Hclosed & _).
  exists st3. split; [exact Hrun|]. split; [exact Hcfg|]. split; [exact Hbuf|].
  assert (Hc : c1 = Sample.console_client).
  { assert (Hsome : Some c1 = Some Sample.console_client)
      by (rewrite <- Hc1; vm_compute; reflexivity).
    now injection Hsome. }
  now rewrite <- Hc.
Defined.

Lemma disconnect_spec_witness :
  disconnect (initial 1000 []) = (Returned tt, initial 1000 []).
Proof.
  apply (proj2 (disconnect_spec Sample.main Sample.fx Sample.render (initial 1000 []))).
  - apply reachable_initial.
  - reflexivity.
Defined.

Lemma session_all_or_none_witness :
  ((client Sample.connected = None /\ listener Sample.connected = None /\
    config Sample.connected = None) \/
   (exists c l cfg,
       client Sample.connected = Some c /\ listener Sample.connected = Some l /\
       config Sample.connected = Some cfg))
  /\ (isConnected Sample.connected = true <-> connectionInfo Sample.connected <> None).
Proof.
  apply (session_all_or_none Sample.main Sample.fx Sample.render Sample.connected).
  exact (reachable_call _ _ _ (CallConnect "192.168.1.100" None None) _
           (reachable_initial _ _ _ 1000 [])).
Defined.

(** * Further properties *)

(** ** Merging the two tables *)

Lemma get_set {V} (o : JsObject.t V) (k k' : string) (v : V) :
  JsObject.get (JsObject.set o k v) k' =
  if String.eqb k k' then Some v else JsObject.get o k'.
Proof.
  induction o as [|[k0 v0] o IH]; simpl.
  - reflexivity.
  - destruct (String.eqb k0 k) eqn:E0; simpl.
    + apply String.eqb_eq in E0 as ->. now destruct (String.eqb k k').
    + rewrite IH. destruct (String.eqb k k') eqn:E; [|reflexivity].
      apply String.eqb_eq in E as ->. now rewrite E0.
Qed.

Lemma get_assign {V} (acc o : JsObject.t V) (k : string) :
  NoDup (JsObject.keys o) ->
  JsObject.get (JsObject.assign acc o) k =
  match JsObject.get o k with
  | Some v => Some v
  | None => JsObject.get acc k
  end.
Proof.
  unfold JsObject.assign. revert acc.
  induction o as [|[k0 v0] o IH]; intros acc Hnd; simpl; [reflexivity|].
  apply NoDup_cons in Hnd as [Hnotin Hnd].
  rewrite IH by assumption. rewrite get_set.
  destruct (String.eqb k0 k) eqn:E; [|reflexivity].
  apply String.eqb_eq in E as ->.
  assert (Hnone : JsObject.get o k = None).
  { apply get_None_keys. intros Hin. apply Hnotin. now apply list_elem_of_In. }
  now rewrite Hnone.
Qed.

Lemma filter_fresh_ext (ks ks' l : list string) :
  (forall k, In k l -> (k ∈ ks <-> k ∈ ks')) ->
  List.filter (fun k => bool_decide (k ∉ ks)) l =
  List.filter (fun k => bool_decide (k ∉ ks')) l.
Proof.
  intros H. apply List.filter_ext_in. intros k Hk.
  apply bool_decide_ext. specialize (H k Hk). tauto.
Qed.

Lemma keys_assign {V} (acc o : JsObject.t V) :
  NoDup (JsObject.keys o) ->
  JsObject.keys (JsObject.assign acc o) =
  JsObject.keys acc ++
  List.filter (fun k => bool_decide (k ∉ JsObject.keys acc)) (JsObject.keys o).
Proof.
  unfold JsObject.assign. revert acc.
  induction o as [|[k0 v0] o IH]; intros acc Hnd; simpl.
  - now rewrite app_nil_r.
  - apply NoDup_cons in Hnd as [Hnotin Hnd].
    rewrite IH by assumption. rewrite keys_set.
    destruct (JsObject.get acc k0) as [v|] eqn:E.
    + assert (Hin : k0 ∈ JsObject.keys acc).
      { apply list_elem_of_In. change k0 with (fst (k0, v)).
        apply in_map. now apply get_Some_In. }
      rewrite bool_decide_eq_false_2 by (intros Hn; now apply Hn). reflexivity.
    + assert (Hout : k0 ∉ JsObject.keys acc).
      { intros Hin%list_elem_of_In. now apply get_None_keys in E. }
      rewrite bool_decide_eq_true_2 by exact Hout.
      rewrite <- app_assoc. simpl. do 2 f_equal.
      apply filter_fresh_ext. intros k Hk. rewrite elem_of_app, list_elem_of_singleton.
      split; [|tauto]. intros [H| ->]; [exact H|].
      exfalso. apply Hnotin. now apply list_elem_of_In.
Qed.

Lemma map_pair_id {A B} (l : list (A * B)) :
  map (fun es => (fst es, snd es)) l = l.
Proof. induction l as [|[a b] l IH]; simpl; [reflexivity | now rewrite IH]. Qed.

Lemma In_keys_get {V} (o : JsObject.t V) (k : string) :
  In k (JsObject.keys o) <-> exists v, JsObject.get o k = Some v.
Proof.
  destruct (JsObject.get o k) as [v|] eqn:E.
  - split; [intros _; now exists v|]. intros _.
    change k with (fst (k, v)). apply in_map. now apply get_Some_In.
  - apply get_None_keys in E. split; [contradiction | intros [v H]; discriminate].
Qed.

Lemma keys_assign_nil {V} (o : JsObject.t V) :
  NoDup (JsObject.keys o) -> JsObject.keys (JsObject.assign [] o) = JsObject.keys o.
Proof.
  intros Hnd. rewrite keys_assign by assumption.
  change (JsObject.keys (@nil (string * V))) with (@nil string).
  apply forallb_filter_id, forallb_forall. intros k _.
  apply bool_decide_eq_true_2, not_elem_of_nil.
Qed.

Section CatalogListing.

Variable mainEndpoints : EndpointStore.
Variable fxEndpoints : EndpointStore.
Variable Number_toString : number -> string.

Local Abbreviation all := (getAllEndpoints mainEndpoints fxEndpoints).
Local Abbreviation info := (getEndpointInfo mainEndpoints fxEndpoints).

(** X1: when neither table names a group twice, a group is looked up in the
    effects table first and in the main table only if the effects table
    does not have it; so a group of the effects table replaces the whole
    group of that name of the main table, and [getEndpointInfo] never finds
    in it an endpoint that only the main table has. *)
Theorem getAllEndpoints_lookup (group : string) :
  NoDup (JsObject.keys mainEndpoints) ->
  NoDup (JsObject.keys fxEndpoints) ->
  JsObject.get all group =
    match JsObject.get fxEndpoints group with
    | Some endpoints => Some endpoints
    | None => JsObject.get mainEndpoints group
    end
  /\ forall endpoint,
       info group endpoint =
       match JsObject.get fxEndpoints group with
       | Some endpoints => JsObject.get endpoints endpoint
       | None =>
           match JsObject.get mainEndpoints group with
           | Some endpoints => JsObject.get endpoints endpoint
           | None => None
           end
       end.
Proof.
  intros Hmain Hfx.
  assert (Hget : JsObject.get all group =
                 match JsObject.get fxEndpoints group with
                 | Some endpoints => Some endpoints
                 | None => JsObject.get mainEndpoints group
                 end).
  { unfold getAllEndpoints, getFxEndpoints, getMainEndpoints.
    rewrite get_assign by assumption.
    destruct (JsObject.get fxEndpoints group); [reflexivity|].
    rewrite get_assign by assumption.
    now destruct (JsObject.get mainEndpoints group). }
  split; [exact Hget|].
  intros endpoint. unfold getEndpointInfo. rewrite Hget.
  now destruct (JsObject.get fxEndpoints group).
Qed.

(** X2: [getGroupNames] never lists a name twice; and when neither table
    names a group twice or has a group with a numeric name, it lists the
    groups of the main table in their order, then the groups that only the
    effects table has, in theirs. *)
Theorem getGroupNames_order :
  NoDup (getGroupNames mainEndpoints fxEndpoints)
  /\ (NoDup (JsObject.keys mainEndpoints) ->
      NoDup (JsObject.keys fxEndpoints) ->
      no_numeric_name mainEndpoints -> no_numeric_name fxEndpoints ->
      getGroupNames mainEndpoints fxEndpoints =
        JsObject.keys mainEndpoints ++
        List.filter (fun k => bool_decide (k ∉ JsObject.keys mainEndpoints))
                    (JsObject.keys fxEndpoints)).
Proof.
  split.
  - unfold getGroupNames, getAllEndpoints. do 2 apply NoDup_keys_assign. constructor.
  - intros Hmain Hfx _ _.
    unfold getGroupNames, getAllEndpoints, getFxEndpoints, getMainEndpoints.
    rewrite keys_assign by assumption.
    now rewrite keys_assign_nil by assumption.
Qed.

(** X3: for a name that [Object.prototype] does not define,
    [listEndpoints] returns [null] exactly when the name is not a group
    name; otherwise it returns the entries of the group in their order,
    every endpoint [getEndpointInfo] finds in the group under a name that
    [Object.prototype] does not define is listed with the spec found, and
    when the group names no endpoint twice every listed endpoint is found
    by [getEndpointInfo] with the spec listed. *)
Theorem listEndpoints_spec (group : string) :
  inherited group = false ->
  (listEndpoints mainEndpoints fxEndpoints group = None <->
   ~ In group (getGroupNames mainEndpoints fxEndpoints))
  /\ forall l,
       listEndpoints mainEndpoints fxEndpoints group = Some l ->
       In (group, l) all /\
       (forall endpoint spec,
           inherited endpoint = false ->
           info group endpoint = Some spec -> In (endpoint, spec) l) /\
       (NoDup (JsObject.keys l) ->
        forall endpoint spec,
          In (endpoint, spec) l -> info group endpoint = Some spec).
Proof.
  intros _. unfold listEndpoints, getGroupNames, getEndpointInfo. split.
  - rewrite <- get_None_keys. now destruct (JsObject.get all group).
  - intros l Hl.
    destruct (JsObject.get all group) as [groupData|] eqn:Hg; [|discriminate].
    rewrite map_pair_id in Hl. injection Hl as ->.
    split; [now apply get_Some_In|]. split.
    + intros endpoint spec _. apply get_Some_In.
    + intros Hnd endpoint spec Hin. now apply get_In_NoDup.
Qed.

End CatalogListing.

(** ** Counting endpoints *)

Lemma type_name_inj (a b : OscMessageType) : type_name a = type_name b -> a = b.
Proof. destruct a, b; simpl; intros H; try reflexivity; discriminate H. Qed.

Lemma get_tally (counts : JsObject.t nat) (k k' : string) :
  JsObject.get (tally counts k) k' =
  if String.eqb k k' then Some (default 0 (JsObject.get counts k) + 1)%nat
  else JsObject.get counts k'.
Proof. unfold tally. apply get_set. Qed.

Lemma sum_counts_set (counts : JsObject.t nat) (k : string) (v : nat) :
  (sum_counts (JsObject.set counts k v) + default 0 (JsObject.get counts k)
   = sum_counts counts + v)%nat.
Proof.
  unfold sum_counts. induction counts as [|[k0 v0] counts IH]; simpl; [lia|].
  destruct (String.eqb k0 k); simpl; lia.
Qed.

Lemma sum_counts_tally (counts : JsObject.t nat) (k : string) :
  sum_counts (tally counts k) = S (sum_counts counts).
Proof.
  unfold tally.
  pose proof (sum_counts_set counts k (default 0 (JsObject.get counts k) + 1)%nat).
  lia.
Qed.

Lemma count_of_cons (ty : OscMessageType) (spec : EndpointSpec)
    (specs : list EndpointSpec) :
  count_of ty (spec :: specs) =
  ((if bool_decide (type spec = ty) then 1 else 0) + count_of ty specs)%nat.
Proof. unfold count_of. simpl. now destruct (bool_decide (type spec = ty)). Qed.

(** Tallying the types of [specs] on top of [counts]. *)
Lemma tally_types_get (specs : list EndpointSpec) (counts : JsObject.t nat)
    (ty : OscMessageType) :
  JsObject.get
    (fold_left (fun mt spec => tally mt (type_name (type spec))) specs counts)
    (type_name ty) =
  match count_of ty specs with
  | O => JsObject.get counts (type_name ty)
  | S _ => Some (default 0 (JsObject.get counts (type_name ty)) + count_of ty specs)%nat
  end.
Proof.
  revert counts. induction specs as [|spec specs IH]; intros counts; [reflexivity|].
  cbn [fold_left]. rewrite IH, count_of_cons, get_tally.
  destruct (bool_decide (type spec = ty)) eqn:Hty.
  - apply bool_decide_eq_true in Hty. rewrite Hty, String.eqb_refl.
    simpl. destruct (count_of ty specs); f_equal; lia.
  - apply bool_decide_eq_false in Hty.
    assert (Hne : String.eqb (type_name (type spec)) (type_name ty) = false).
    { apply String.eqb_neq. intros H. now apply Hty, type_name_inj. }
    rewrite Hne. reflexivity.
Qed.

Lemma tally_types_sum (specs : list EndpointSpec) (counts : JsObject.t nat) :
  sum_counts
    (fold_left (fun mt spec => tally mt (type_name (type spec))) specs counts)
  = (sum_counts counts + length specs)%nat.
Proof.
  revert counts. induction specs as [|spec specs IH]; intros counts; simpl; [lia|].
  rewrite IH, sum_counts_tally. lia.
Qed.

Lemma count_types_get (specs : list EndpointSpec) (ty : OscMessageType) :
  JsObject.get (count_types specs) (type_name ty) = as_count (count_of ty specs).
Proof.
  unfold count_types. rewrite tally_types_get. simpl.
  now destruct (count_of ty specs).
Qed.

Lemma stats_endpoint_fold (specs : list EndpointSpec)
    (total documented_ : nat) (byType : JsObject.t nat) :
  fold_left stats_endpoint specs (total, documented_, byType) =
  ((total + length specs)%nat,
   (documented_ + length (List.filter documented specs))%nat,
   fold_left (fun mt spec => tally mt (type_name (type spec))) specs byType).
Proof.
  revert total documented_ byType.
  induction specs as [|spec specs IH]; intros total documented_ byType; simpl.
  - apply pair_equal_spec. split; [|reflexivity].
    apply pair_equal_spec. split; lia.
  - rewrite IH. apply pair_equal_spec. split; [|reflexivity].
    apply pair_equal_spec. destruct (documented spec); simpl; split; lia.
Qed.

Lemma stats_groups_fold (groups : list (JsObject.t EndpointSpec))
    (total documented_ : nat) (byType : JsObject.t nat) :
  fold_left (fun acc endpoints => fold_left stats_endpoint (map snd endpoints) acc)
            groups (total, documented_, byType) =
  let specs := flat_map (map snd) groups in
  ((total + length specs)%nat,
   (documented_ + length (List.filter documented specs))%nat,
   fold_left (fun mt spec => tally mt (type_name (type spec))) specs byType).
Proof.
  revert total documented_ byType.
  induction groups as [|endpoints groups IH]; intros total documented_ byType; simpl.
  - apply pair_equal_spec. split; [|reflexivity].
    apply pair_equal_spec. split; lia.
  - rewrite stats_endpoint_fold, IH. cbv zeta.
    rewrite List.filter_app, !length_app, fold_left_app.
    apply pair_equal_spec. split; [|reflexivity].
    apply pair_equal_spec. split; lia.
Qed.

Lemma specs_of_triples (store : EndpointStore) :
  map snd (triples store) = flat_map (map snd) (map snd store).
Proof.
  unfold triples. induction store as [|[g endpoints] store IH]; simpl; [reflexivity|].
  rewrite map_app, IH. f_equal.
  induction endpoints as [|[e spec] endpoints IHe]; simpl; [reflexivity|].
  now rewrite IHe.
Qed.

Lemma length_triples (store : EndpointStore) :
  length (triples store) = sum_list (map (fun ge => length (snd ge)) store).
Proof.
  unfold triples. induction store as [|[g endpoints] store IH]; simpl; [reflexivity|].
  now rewrite length_app, length_map, IH.
Qed.

Section CatalogCounting.

Variable mainEndpoints : EndpointStore.
Variable fxEndpoints : EndpointStore.

Local Abbreviation all := (getAllEndpoints mainEndpoints fxEndpoints).

(** X4: [listGroups] gives one record for each group name, in the order of
    [getGroupNames]; the count of a record is the number of entries
    [listEndpoints] returns for its name, the entries of its histogram add
    up to that count, and the histogram holds for each message type the
    number of listed endpoints of that type, and holds nothing for a type no
    listed endpoint has. *)
Theorem listGroups_spec :
  map name (listGroups mainEndpoints fxEndpoints)
    = getGroupNames mainEndpoints fxEndpoints
  /\ forall gi,
       In gi (listGroups mainEndpoints fxEndpoints) ->
       exists l,
         listEndpoints mainEndpoints fxEndpoints (name gi) = Some l /\
         endpointCount gi = length l /\
         sum_counts (messageTypes gi) = endpointCount gi /\
         forall ty,
           JsObject.get (messageTypes gi) (type_name ty)
           = as_count (count_of ty (map snd l)).
Proof.
  split.
  - unfold listGroups, getGroupNames, JsObject.keys. rewrite map_map.
    apply map_ext. now intros [g endpoints].
  - intros gi Hin. unfold listGroups in Hin.
    apply in_map_iff in Hin as ([g endpoints] & <- & Hin). simpl.
    exists endpoints. split; [|split; [|split]].
    + unfold listEndpoints.
      rewrite (get_In_NoDup _ _ _ (NoDup_groups mainEndpoints fxEndpoints) Hin).
      now rewrite map_pair_id.
    + unfold JsObject.keys. apply length_map.
    + unfold count_types. rewrite tally_types_sum.
      unfold JsObject.keys, sum_counts. simpl. now rewrite !length_map.
    + intros ty. apply count_types_get.
Qed.

(** X5: the totals of [getStats] agree with the rest of the catalog: the
    number of groups is the number of records of [listGroups], the number
    of endpoints is the number of (group, endpoint) entries and the sum of
    the counts of [listGroups], the documented endpoints are those whose
    description is not empty and does not contain ["(unknown)"], so at most
    the total, and the histogram adds up to the total and holds for each
    message type the number of endpoints of that type. *)
Theorem getStats_spec :
  let stats := getStats mainEndpoints fxEndpoints in
  let specs := map snd (triples all) in
  totalGroups stats = length (listGroups mainEndpoints fxEndpoints) /\
  totalEndpoints stats = length (triples all) /\
  totalEndpoints stats
    = sum_list (map endpointCount (listGroups mainEndpoints fxEndpoints)) /\
  documentedEndpoints stats = length (List.filter documented specs) /\
  (documentedEndpoints stats <= totalEndpoints stats)%nat /\
  sum_counts (byMessageType stats) = totalEndpoints stats /\
  forall ty,
    JsObject.get (byMessageType stats) (type_name ty)
    = as_count (count_of ty specs).
Proof.
  intros stats specs. subst stats specs. unfold getStats.
  rewrite stats_groups_fold. cbv zeta. rewrite <- specs_of_triples. simpl.
  rewrite length_map.
  assert (Hsum : length (triples all)
                 = sum_list (map endpointCount (listGroups mainEndpoints fxEndpoints))).
  { rewrite length_triples. unfold listGroups. rewrite map_map. f_equal.
    apply map_ext. intros [g endpoints]. simpl.
    unfold JsObject.keys. now rewrite length_map. }
  split; [unfold listGroups, JsObject.keys; now rewrite !length_map|].
  split; [reflexivity|]. split; [exact Hsum|]. split; [reflexivity|].
  split; [|split].
  - etransitivity; [apply List.filter_length_le|]. now rewrite length_map.
  - rewrite tally_types_sum. unfold sum_counts. simpl. now rewrite length_map.
  - intros ty. apply (count_types_get (map snd (triples all)) ty).
Qed.

End CatalogCounting.

(** ** More on the search *)

Lemma split_loop_app_terms (a cur : string) (r : bool) (sp : ascii) (b t : string) :
  is_space sp = true ->
  (r = true -> cur = "") ->
  In t (split_loop a cur r) ->
  t = "" \/ In t (split_loop (a +:+ String sp b) cur r).
Proof.
  intros Hsp. revert cur r. induction a as [|c a IH]; intros cur r Hinv Hin.
  - simpl in Hin. destruct Hin as [<-|[]]. simpl. rewrite Hsp.
    destruct r; [left; now apply Hinv | right; now left].
  - simpl in Hin |- *. destruct (is_space c).
    + destruct r.
      * now apply IH.
      * destruct Hin as [<-|Hin]; [right; now left|].
        destruct (IH "" true (fun _ => eq_refl) Hin) as [H|H]; [now left|].
        right. now right.
    + apply IH; [discriminate | exact Hin].
Qed.

Lemma filter_sublist {A} (f g : A -> bool) (l : list A) :
  (forall x, In x l -> f x = true -> g x = true) ->
  sublist (List.filter f l) (List.filter g l).
Proof.
  induction l as [|x l IH]; intros H; simpl; [constructor|].
  assert (IH' : sublist (List.filter f l) (List.filter g l))
    by (apply IH; intros y Hy; apply H; now right).
  destruct (f x) eqn:Hf.
  - rewrite (H x (or_introl eq_refl) Hf). now constructor.
  - destruct (g x); [now constructor | exact IH'].
Qed.

Lemma map_sublist {A B} (h : A -> B) (l1 l2 : list A) :
  sublist l1 l2 -> sublist (map h l1) (map h l2).
Proof. induction 1; simpl; now constructor. Qed.

Lemma In_set {V} (o : JsObject.t V) (k k' : string) (v v' : V) :
  In (k', v') (JsObject.set o k v) -> (k', v') = (k, v) \/ In (k', v') o.
Proof.
  induction o as [|[k0 v0] o IH]; simpl.
  - intros [H|[]]. now left.
  - destruct (String.eqb k0 k) eqn:E; simpl.
    + apply String.eqb_eq in E as ->. intros [H|H]; [now left | right; now right].
    + intros [H|H]; [right; now left|].
      destruct (IH H) as [H'|H']; [now left | right; now right].
Qed.

Lemma In_assign {V} (acc o : JsObject.t V) (k : string) (v : V) :
  In (k, v) (JsObject.assign acc o) -> In (k, v) acc \/ In (k, v) o.
Proof.
  unfold JsObject.assign. revert acc.
  induction o as [|[k0 v0] o IH]; intros acc; simpl; [now left|].
  intros H. destruct (IH _ H) as [H'|H']; [|right; now right].
  destruct (In_set _ _ _ _ _ H') as [Heq|Hin]; [|now left].
  right. left. now symmetry.
Qed.

Section SearchProperties.

Variable mainEndpoints : EndpointStore.
Variable fxEndpoints : EndpointStore.
Variable Number_toString : number -> string.

Local Abbreviation all := (getAllEndpoints mainEndpoints fxEndpoints).
Local Abbreviation search := (searchEndpoints mainEndpoints fxEndpoints).

(** A group of the merged store is a group of one of the two tables. *)
Lemma distinct_endpoints_all :
  distinct_endpoints mainEndpoints -> distinct_endpoints fxEndpoints ->
  distinct_endpoints all.
Proof.
  unfold distinct_endpoints. rewrite !List.Forall_forall.
  intros Hmain Hfx [g endpoints] Hin.
  unfold getAllEndpoints in Hin.
  apply In_assign in Hin as [Hin|Hin]; [|now apply Hfx].
  apply In_assign in Hin as [[]|Hin]. now apply Hmain.
Qed.

(** X6: every result of a search is an entry of the catalog, and its path
    is the path of that entry without index; when no group of the two
    tables names an endpoint twice, [getEndpointInfo] finds the spec of the
    result under its group and endpoint, and [buildOscPath] without index
    builds its path. *)
Theorem searchEndpoints_sound (query : string) (options : option SearchOptions)
    (r : SearchResult) :
  In r (search query options) ->
  In (triple_of r) (triples all) /\
  in_catalog all (sr_group r) (sr_endpoint r) /\
  oscPath r = "/" +:+ type_name (type (sr_spec r)) +:+ "/" +:+ sr_group r
                  +:+ "/" +:+ sr_endpoint r /\
  (distinct_endpoints mainEndpoints -> distinct_endpoints fxEndpoints ->
   getEndpointInfo mainEndpoints fxEndpoints (sr_group r) (sr_endpoint r)
     = Some (sr_spec r) /\
   buildOscPath mainEndpoints fxEndpoints Number_toString
     (sr_group r) (sr_endpoint r) None = Some (oscPath r)).
Proof.
  rewrite searchEndpoints_kept. intros Hin.
  apply in_map_iff in Hin as ([[g e] spec] & <- & Hin).
  apply List.filter_In in Hin as [Hin _]. simpl.
  assert (Hentry : exists endpoints, In (g, endpoints) all /\ In (e, spec) endpoints).
  { unfold triples in Hin. apply in_flat_map in Hin as ([g' endpoints] & Hg & He).
    apply in_map_iff in He as ([e' spec'] & [= -> -> ->] & He).
    now exists endpoints. }
  destruct Hentry as (endpoints & Hg & He).
  split; [exact Hin|]. split; [now exists endpoints, spec|]. split; [reflexivity|].
  intros Hmain Hfx.
  assert (Hinfo : getEndpointInfo mainEndpoints fxEndpoints g e = Some spec).
  { unfold getEndpointInfo.
    rewrite (get_In_NoDup _ _ _ (NoDup_groups mainEndpoints fxEndpoints) Hg).
    apply get_In_NoDup; [|exact He].
    pose proof (distinct_endpoints_all Hmain Hfx) as Hall.
    unfold distinct_endpoints in Hall. rewrite List.Forall_forall in Hall.
    exact (Hall (g, endpoints) Hg). }
  split; [exact Hinfo|]. unfold buildOscPath. now rewrite Hinfo.
Qed.

(** X7: more terms, fewer results: the results of a query followed by a
    space and further words are among the results of the query alone, in
    the same order. *)
Theorem searchEndpoints_more_terms (query more : string)
    (options : option SearchOptions) :
  sublist (search (query +:+ " " +:+ more) options) (search query options)
  /\ (length (search (query +:+ " " +:+ more) options)
      <= length (search query options))%nat.
Proof.
  assert (Hsub : sublist (search (query +:+ " " +:+ more) options)
                         (search query options)).
  { rewrite !searchEndpoints_kept. apply map_sublist, filter_sublist.
    intros [[g e] spec] _. unfold kept.
    rewrite !andb_true_iff, !forallb_forall. intros [Hf Hterms].
    split; [exact Hf|]. intros term Hterm.
    unfold split_ws in Hterm.
    apply (split_loop_app_terms _ _ _ " " (toLowerCase more) _ eq_refl) in Hterm;
      [|discriminate].
    destruct Hterm as [->|Hterm]; [apply includes_empty|].
    apply Hterms. unfold split_ws. now rewrite toLowerCase_app. }
  split; [exact Hsub | now apply sublist_length].
Qed.

(** X8: only the set of terms counts: two queries with the same lowercased
    terms, in whatever order and however often repeated, have the same
    results. *)
Theorem searchEndpoints_same_terms (query query' : string)
    (options : option SearchOptions) :
  (forall term, In term (split_ws (toLowerCase query)) <->
                In term (split_ws (toLowerCase query'))) ->
  search query options = search query' options.
Proof.
  intros Hsame. rewrite !searchEndpoints_kept. f_equal.
  apply List.filter_ext. intros [[g e] spec]. unfold kept. f_equal.
  apply eq_true_iff_eq. rewrite !forallb_forall.
  split; intros H term Hterm; apply H, Hsame, Hterm.
Qed.

End SearchProperties.

(** ** More on the client *)

Section ClientFailures.

Variable mainEndpoints : EndpointStore.
Variable fxEndpoints : EndpointStore.
Variable Number_toString : number -> string.

Local Abbreviation info := (getEndpointInfo mainEndpoints fxEndpoints).
Local Abbreviation path_of := (buildOscPath mainEndpoints fxEndpoints Number_toString).
Local Abbreviation getValue' := (getValue mainEndpoints fxEndpoints Number_toString).
Local Abbreviation setValue' := (setValue mainEndpoints fxEndpoints Number_toString).
Local Abbreviation reachable' := (reachable mainEndpoints fxEndpoints Number_toString).

Lemma buildOscPath_None (group endpoint : string) (index : option number) :
  path_of group endpoint index = None <-> info group endpoint = None.
Proof.
  unfold buildOscPath. destruct (info group endpoint); split; congruence.
Qed.

Lemma getValue_not_connected (st : State) (group endpoint : string)
    (index : option number) (timeoutMs_ : option Z) :
  client st = None ->
  getValue' group endpoint index timeoutMs_ st = (Threw NotConnected, st).
Proof.
  intros Hc. unfold getValue. unfold bind at 1. unfold gets at 1. cbv beta iota.
  now rewrite Hc.
Qed.

Lemma getValue_invalid (st : State) (group endpoint : string)
    (index : option number) (timeoutMs_ : option Z) :
  client st <> None -> info group endpoint = None ->
  getValue' group endpoint index timeoutMs_ st
    = (Threw (InvalidEndpoint group endpoint), st).
Proof.
  intros Hc Hinfo. apply buildOscPath_None with (index := index) in Hinfo.
  unfold getValue. unfold bind at 1. unfold gets at 1. cbv beta iota.
  destruct (client st); [|contradiction]. now rewrite Hinfo.
Qed.

(** X9: for a group and an endpoint name that [Object.prototype] does not
    define, [getValue] throws in two cases only, the client checked before
    the endpoint: "not connected" on a disconnected client, "invalid
    endpoint" for a pair the catalog does not have; and a call that throws
    has sent nothing and has left the buffer and everything else as it
    was. *)
Theorem getValue_failures (st : State) (group endpoint : string)
    (index : option number) (timeoutMs_ : option Z) :
  own_names group endpoint ->
  (client st = None ->
   getValue' group endpoint index timeoutMs_ st = (Threw NotConnected, st)) /\
  (client st <> None -> info group endpoint = None ->
   getValue' group endpoint index timeoutMs_ st
     = (Threw (InvalidEndpoint group endpoint), st)) /\
  (forall e st',
      getValue' group endpoint index timeoutMs_ st = (Threw e, st') ->
      st' = st /\
      ((client st = None /\ e = NotConnected) \/
       (client st <> None /\ info group endpoint = None /\
        e = InvalidEndpoint group endpoint))).
Proof.
  intros _.
  split; [apply getValue_not_connected|]. split; [apply getValue_invalid|].
  intros e st' Hrun.
  destruct (client st) as [c|] eqn:Hc.
  - destruct (path_of group endpoint index) as [path|] eqn:Hp.
    + destruct (getValue_run mainEndpoints fxEndpoints Number_toString
                  st c group endpoint index timeoutMs_ path Hc Hp)
        as (r & st2 & Hrun2 & _ & _ & [(resp & -> & _) | [-> _]]);
        rewrite Hrun in Hrun2; discriminate.
    + apply buildOscPath_None in Hp.
      rewrite getValue_invalid in Hrun by (congruence || assumption).
      injection Hrun as <- <-. split; [reflexivity|]. right. now repeat split.
  - rewrite getValue_not_connected in Hrun by assumption. injection Hrun as <- <-.
    split; [reflexivity|]. left. now split.
Qed.

(** X10: for a group and an endpoint name that [Object.prototype] does not
    define, [setValue] is all or nothing: a call that throws, be it on the
    refusal of the encoder, has sent nothing and changed nothing; a call
    that returns has had the send channel of the connected client send
    exactly one message, with one argument, to the address [buildOscPath]
    gives, and has left the session as it was. *)
Theorem setValue_all_or_nothing (st : State) (group endpoint : string)
    (value : JsValue) (index : option number) :
  own_names group endpoint ->
  let res := setValue' group endpoint value index st in
  (forall e, fst res = Threw e -> snd res = st) /\
  (fst res = Returned tt ->
   exists c path a,
     client st = Some c /\ path_of group endpoint index = Some path /\
     sends res st c path a) /\
  fst res <> Pending.
Proof.
  intros _ res.
  destruct (setValue_outcome mainEndpoints fxEndpoints Number_toString
              st group endpoint value index)
    as [[Hst [e He]] | (c & path & a & Hc & Hp & Hs)]; fold res in Hst, He || fold res in Hs.
  - split; [intros _ _; exact Hst|]. rewrite He. split; discriminate.
  - pose proof Hs as (Hr & _). rewrite Hr.
    split; [discriminate|]. split; [|discriminate].
    intros _. now exists c, path, a.
Qed.

(** X11: the float [setValue] sends is [NaN] when the value is [NaN]; for
    every other number, the two infinities included, it is a finite number
    within the bounds of the message type, the upper bound for plus
    infinity and the lower bound for minus infinity. *)
Theorem setValue_float_any (st : State) (c : Client) (group endpoint : string)
    (spec : EndpointSpec) (index : option number) (x : number) :
  client st = Some c ->
  info group endpoint = Some spec ->
  argumentType spec = Some ArgFloat ->
  exists path v,
    path_of group endpoint index = Some path /\
    sends (setValue' group endpoint (VNumber x) index st) st c path
          {| arg_type := TagF; arg_value := VNumber v |} /\
    (x = NaN -> v = NaN) /\
    (x <> NaN ->
     exists w, v = Finite w /\
       (fst (float_bounds (type spec)) <= w <= snd (float_bounds (type spec)))%Q /\
       (x = PosInfinity -> w = snd (float_bounds (type spec))) /\
       (x = NegInfinity -> w = fst (float_bounds (type spec)))).
Proof.
  intros Hc Hspec Harg.
  destruct (buildOscPath_of_info mainEndpoints fxEndpoints Number_toString
              group endpoint index spec Hspec) as (path & Hp & Hnp).
  exists path.
  exists (Math_max (Finite (fst (float_bounds (type spec))))
            (Math_min (Finite (snd (float_bounds (type spec)))) x)).
  split; [exact Hp|]. split.
  - unfold setValue. unfold bind at 1. unfold gets at 1. cbv beta iota.
    rewrite Hc, Hspec, Harg. cbv zeta. rewrite Hnp, Hp. cbv beta iota.
    change (default "" (Some path)) with path.
    destruct (type spec); now apply sends_Client_send.
  - split; [intros ->; reflexivity|]. intros Hx.
    assert (Hb : (fst (float_bounds (type spec)) <= snd (float_bounds (type spec)))%Q)
      by (destruct (type spec); simpl; lra).
    destruct x as [| |q|]; [contradiction| | |].
    + exists (fst (float_bounds (type spec))). unfold Math_max, Math_min. simpl.
      split; [reflexivity|]. split; [lra|]. split; [discriminate | reflexivity].
    + destruct (clamp_spec _ _ q Hb) as (w & Hw & Hcl & _).
      exists w. split; [exact Hw|]. split; [exact Hcl|]. split; discriminate.
    + exists (snd (float_bounds (type spec))). unfold Math_max, Math_min. simpl.
      apply Qle_bool_iff in Hb. rewrite Hb.
      apply Qle_bool_iff in Hb.
      split; [reflexivity|]. split; [lra|]. split; [reflexivity | discriminate].
Qed.

(** X12: [connect] on a client, connected or not, returns with the client
    connected: the configuration is the one asked for, the ports left out
    being 10023 and 10024; the sockets open are the new send client, to the
    host and port asked for, and the new listener, on the listen port at
    0.0.0.0; the buffer is empty and nothing has been sent. *)
Theorem connect_spec (st : State) (ip_ : string) (port_ listenPort_ : option number) :
  reachable' st ->
  exists st' c l,
    connect ip_ port_ listenPort_ st = (Returned tt, st') /\
    reachable' st' /\
    isConnected st' = true /\
    connectionInfo st' =
      Some {| ip := ip_;
              port := default (Finite 10023) port_;
              listenPort := default (Finite 10024) listenPort_ |} /\
    client st' = Some c /\ listener st' = Some l /\
    client_host c = ip_ /\ client_port c = default (Finite 10023) port_ /\
    server_port l = default (Finite 10024) listenPort_ /\
    server_host l = "0.0.0.0" /\
    open_clients st' = [c] /\ open_servers st' = [l] /\
    responseBuffer st' = ∅ /\ outbox st' = outbox st.
Proof.
  intros Hr.
  destruct (connect_run st ip_ port_ listenPort_
              (reachable_coherent mainEndpoints fxEndpoints Number_toString st Hr))
    as (st' & c & l & Hrun & Hco & Hc & Hl & Hcfg & Hb & _ & _ & Ho).
  exists st', c, l. split; [exact Hrun|].
  split.
  { replace st' with (run_call mainEndpoints fxEndpoints Number_toString
                        (CallConnect ip_ port_ listenPort_) st)
      by (simpl; now rewrite Hrun).
    now apply reachable_call. }
  unfold coherent in Hco. rewrite Hc, Hl, Hcfg in Hco. simpl in Hco.
  destruct Hco as (Hoc & Hos & Hh & Hp & Hsp & Hsh & _).
  unfold isConnected, connectionInfo. rewrite Hc.
  repeat split; assumption.
Qed.

(** X13: whatever calls were made and whatever came in, the sockets open
    are exactly the ones the client holds, one send client and one listener
    at most, made from the stored configuration; and a disconnected client
    has nothing buffered. *)
Theorem sockets_held (st : State) :
  reachable' st ->
  open_clients st = option_list (client st) /\
  open_servers st = option_list (listener st) /\
  (forall c l cfg,
      client st = Some c -> listener st = Some l -> config st = Some cfg ->
      client_host c = ip cfg /\ client_port c = port cfg /\
      server_port l = listenPort cfg /\ server_host l = "0.0.0.0") /\
  (isConnected st = false -> responseBuffer st = ∅).
Proof.
  intros Hr.
  pose proof (reachable_coherent mainEndpoints fxEndpoints Number_toString st Hr) as Hco.
  unfold coherent in Hco. unfold isConnected.
  destruct (client st) as [c|], (listener st) as [l|], (config st) as [cfg|];
    try contradiction.
  - destruct Hco as (Hoc & Hos & Hh & Hp & Hsp & Hsh & _).
    split; [exact Hoc|]. split; [exact Hos|]. split; [|discriminate].
    intros c' l' cfg' [= <-] [= <-] [= <-]. now repeat split.
  - destruct Hco as (Hb & Hoc & Hos).
    split; [exact Hoc|]. split; [exact Hos|]. split; [discriminate|].
    intros _. exact Hb.
Qed.

(** X14: a call hands at most one message to the send channel, through the
    send client the client held when the call began, and never takes back
    a message handed over before; [connect] and [disconnect] hand over
    none. *)
Theorem one_message_a_call (st : State) (call : Call) :
  reachable' st ->
  exists sent,
    outbox (run_call mainEndpoints fxEndpoints Number_toString call st)
      = outbox st ++ sent /\
    (length sent <= 1)%nat /\
    (forall c m, In (c, m) sent -> client st = Some c) /\
    match call with
    | CallConnect _ _ _ | CallDisconnect => sent = []
    | _ => True
    end.
Proof.
  intros Hr. destruct call as [i p l | | g e i tmo | g e v i]; simpl.
  - destruct (connect_run st i p l
                (reachable_coherent mainEndpoints fxEndpoints Number_toString st Hr))
      as (st' & c & s & Hrun & _ & _ & _ & _ & _ & _ & _ & Ho).
    rewrite Hrun. exists []. simpl. rewrite app_nil_r.
    split; [exact Ho|]. split; [lia|]. split; [intros ? ? []|reflexivity].
  - destruct (disconnect_run st) as (st' & Hrun & _ & _ & _ & _ & _ & Ho & _).
    rewrite Hrun. exists []. simpl. rewrite app_nil_r.
    split; [exact Ho|]. split; [lia|]. split; [intros ? ? []|reflexivity].
  - destruct (client st) as [c|] eqn:Hc.
    + destruct (path_of g e i) as [path|] eqn:Hp.
      * destruct (getValue_run mainEndpoints fxEndpoints Number_toString
                    st c g e i tmo path Hc Hp) as (r & st' & Hrun & _ & Ho & _).
        rewrite Hrun. eexists. split; [exact Ho|]. simpl.
        split; [lia|]. split; [|exact I].
        intros c' m [[= <- <-]|[]]. reflexivity.
      * apply buildOscPath_None in Hp.
        rewrite getValue_invalid by (congruence || assumption).
        exists []. simpl. rewrite app_nil_r.
        split; [reflexivity|]. split; [lia|]. split; [intros ? ? []|exact I].
    + rewrite getValue_not_connected by assumption.
      exists []. simpl. rewrite app_nil_r.
      split; [reflexivity|]. split; [lia|]. split; [intros ? ? []|exact I].
  - destruct (setValue_outcome mainEndpoints fxEndpoints Number_toString st g e v i)
      as [[Hst _] | (c & path & a & Hc & _ & _ & Ho & _)]; cbv zeta in *.
    + rewrite Hst. exists []. simpl. rewrite app_nil_r.
      split; [reflexivity|]. split; [lia|]. split; [intros ? ? []|exact I].
    + eexists. split; [exact Ho|]. simpl.
      split; [lia|]. split; [|exact I].
      intros c' m [[= <- <-]|[]]. exact Hc.
Qed.

End ClientFailures.

(** ** Answers in time *)

Section AnswersInTime.

Variable mainEndpoints : EndpointStore.
Variable fxEndpoints : EndpointStore.
Variable Number_toString : number -> string.

(** X15: an answer in time is returned. The first tick of the schedule goes
    by while the query is sent; if a datagram for the address comes in
    during one of the sleeps that follow, and the sleeps up to and
    including that one take less than the timeout, [getValue] returns a
    response for the address, not [null]. *)
Theorem getValue_answer_in_time (st : State) (c : Client) (l : Server)
    (group endpoint : string) (index : option number) (timeoutMs_ : option Z)
    (path : string) (t0 : Tick) (before : list Tick) (tk : Tick)
    (rest : list Tick) (a : list JsValue) :
  client st = Some c ->
  listener st = Some l ->
  buildOscPath mainEndpoints fxEndpoints Number_toString group endpoint index
    = Some path ->
  schedule st = t0 :: before ++ tk :: rest ->
  In (Inbound path a) tk ->
  waits (before ++ [tk]) < default 2000 timeoutMs_ ->
  exists resp st',
    getValue mainEndpoints fxEndpoints Number_toString
             group endpoint index timeoutMs_ st
      = (Returned (Some resp), st') /\
    address resp = path /\
    clock st <= timestamp resp.
Proof.
  intros Hc Hl Hpath Hsch Hin Hwait.
  assert (Hsome : exists resp st',
            getValue mainEndpoints fxEndpoints Number_toString
                     group endpoint index timeoutMs_ st
            = (Returned (Some resp), st'))
    by exact (getValue_answers mainEndpoints fxEndpoints Number_toString
                st c l group endpoint index timeoutMs_ path t0 before tk rest a
                Hc Hl Hpath Hsch Hin Hwait).
  destruct Hsome as (resp & st' & Hrun).
  exists resp, st'. split; [exact Hrun|].
  destruct (getValue_run mainEndpoints fxEndpoints Number_toString
              st c group endpoint index timeoutMs_ path Hc Hpath)
    as (r & st2 & Hrun2 & _ & _ & [(resp2 & Hr & Ha & _ & _ & Hts & _) | [Hr _]]);
    rewrite Hrun in Hrun2; injection Hrun2 as <- <-.
  - injection Hr as ->. now split.
  - discriminate.
Qed.

End AnswersInTime.

(** ** The tools *)

Section ToolProperties.

Variable mainEndpoints : EndpointStore.
Variable fxEndpoints : EndpointStore.
Variable Number_toString : number -> string.
Variable JSON_stringify : JsValue -> string.
Variable JSON_stringify_args : list JsValue -> string.
Variable RangeError_message : number -> string.

Local Abbreviation info := (getEndpointInfo mainEndpoints fxEndpoints).
Local Abbreviation path_of := (buildOscPath mainEndpoints fxEndpoints Number_toString).
Local Abbreviation getValue' := (getValue mainEndpoints fxEndpoints Number_toString).
Local Abbreviation setValue' := (setValue mainEndpoints fxEndpoints Number_toString).
Local Abbreviation reachable' := (reachable mainEndpoints fxEndpoints Number_toString).
Local Abbreviation set_value' :=
  (set_value mainEndpoints fxEndpoints Number_toString JSON_stringify
             RangeError_message).
Local Abbreviation get_value' :=
  (get_value mainEndpoints fxEndpoints Number_toString JSON_stringify_args
             RangeError_message).

Lemma isConnected_client (st : State) :
  isConnected st = true <-> client st <> None.
Proof. unfold isConnected. destruct (client st); split; congruence. Qed.

(** What [set_value] does once the client is connected and the endpoint is
    not flagged. *)
Lemma set_value_run (st : State) (group endpoint : string) (value : JsValue)
    (index : option number) :
  isConnected st = true -> isDangerous st endpoint = false ->
  (exists res, set_value' group endpoint value index st = (Returned res, st) /\
               isError res = true)
  \/
  (exists c path a,
      client st = Some c /\ path_of group endpoint index = Some path /\
      sends (setValue' group endpoint value index st) st c path a /\
      set_value' group endpoint value index st =
        (Returned {| text := "Sent: " +:+ path +:+ " = " +:+ JSON_stringify value;
                     isError := false |},
         snd (setValue' group endpoint value index st))).
Proof.
  intros Hconn Hsafe.
  assert (Hrun : set_value' group endpoint value index st =
    match info group endpoint with
    | None =>
        (Returned {| text := "Endpoint " +:+ QUOTE +:+ endpoint +:+ QUOTE
                               +:+ " not found in group " +:+ QUOTE +:+ group
                               +:+ QUOTE +:+ ".";
                     isError := true |}, st)
    | Some _ =>
        match setValue' group endpoint value index st with
        | (Returned _, st') =>
            (Returned {| text := "Sent: " +:+ show_path (path_of group endpoint index)
                                   +:+ " = " +:+ JSON_stringify value;
                         isError := false |}, st')
        | (Threw e, st') =>
            (Returned {| text := "Error: " +:+ message RangeError_message e;
                         isError := true |}, st')
        | (Pending, st') => (Pending, st')
        end
    end).
  { unfold set_value, try_catch, bind, gets, ret. cbv beta iota.
    rewrite Hconn. cbn [negb]. cbv beta iota. rewrite Hsafe.
    destruct (info group endpoint); [|reflexivity].
    now destruct (setValue' group endpoint value index st) as [[| |] ?]. }
  rewrite Hrun.
  destruct (info group endpoint) as [spec|] eqn:Hspec.
  - destruct (setValue_outcome mainEndpoints fxEndpoints Number_toString
                st group endpoint value index)
      as [[Hst [e He]] | (c & path & a & Hc & Hp & Hs)]; cbv zeta in *.
    + left.
      destruct (setValue' group endpoint value index st) as [r st2].
      simpl in Hst, He. subst r st2. eexists. split; reflexivity.
    + right. exists c, path, a. split; [exact Hc|]. split; [exact Hp|].
      split; [exact Hs|].
      destruct Hs as (Hr & _).
      destruct (setValue' group endpoint value index st) as [r st2].
      simpl in Hr. subst r. rewrite Hp. reflexivity.
  - left. eexists. split; reflexivity.
Qed.

(** X16: the two commands on the deny-list never reach the console through
    [set_value]: whatever the group, the value, the index and the state of
    the client, the tool answers with an error, sends nothing and changes
    nothing. *)
Theorem set_value_blocks_dangerous (st : State) (group endpoint : string)
    (value : JsValue) (index : option number) :
  endpoint = "enRebootConsole" \/ endpoint = "enResetGlobalsToDefault" ->
  exists res,
    set_value' group endpoint value index st = (Returned res, st) /\
    isError res = true.
Proof.
  intros Hname.
  assert (Hd : isDangerous st endpoint = true)
    by (destruct Hname as [-> | ->]; reflexivity).
  unfold set_value. unfold bind at 1. unfold gets at 1. cbv beta iota.
  destruct (isConnected st); cbn [negb].
  - unfold bind at 1. unfold gets at 1. cbv beta iota. rewrite Hd.
    eexists. split; reflexivity.
  - eexists. split; reflexivity.
Qed.

(** X17: for a group and an endpoint name that [Object.prototype] does not
    define, [set_value] always answers, it never throws: with an error, and
    then nothing was sent and nothing has changed; or with the text "Sent",
    and then the client was connected, the endpoint is not flagged
    dangerous, and [setValue] has sent its one message to the address named
    in the text. *)
Theorem set_value_spec (st : State) (group endpoint : string)
    (value : JsValue) (index : option number) :
  own_names group endpoint ->
  exists res st',
    set_value' group endpoint value index st = (Returned res, st') /\
    (isError res = true -> st' = st) /\
    (isError res = false ->
     isConnected st = true /\ isDangerous st endpoint = false /\
     exists c path a,
       client st = Some c /\ path_of group endpoint index = Some path /\
       sends (setValue' group endpoint value index st) st c path a /\
       st' = snd (setValue' group endpoint value index st) /\
       text res = "Sent: " +:+ path +:+ " = " +:+ JSON_stringify value).
Proof.
  intros _.
  destruct (isConnected st) eqn:Hconn.
  - destruct (isDangerous st endpoint) eqn:Hd.
    + unfold set_value. unfold bind at 1. unfold gets at 1. cbv beta iota.
      rewrite Hconn. cbn [negb].
      unfold bind at 1. unfold gets at 1. cbv beta iota. rewrite Hd.
      eexists _, st. split; [reflexivity|]. simpl. split; [reflexivity | discriminate].
    + destruct (set_value_run st group endpoint value index Hconn Hd)
        as [(res & Hrun & Herr) | (c & path & a & Hc & Hp & Hs & Hrun)].
      * exists res, st. split; [exact Hrun|]. rewrite Herr.
        split; [reflexivity | discriminate].
      * eexists _, _. split; [exact Hrun|]. simpl. split; [discriminate|].
        intros _. split; [reflexivity|]. split; [reflexivity|].
        exists c, path, a.
        split; [exact Hc|]. split; [exact Hp|]. split; [exact Hs|].
        split; reflexivity.
  - unfold set_value. unfold bind at 1. unfold gets at 1. cbv beta iota.
    rewrite Hconn. cbn [negb].
    eexists _, st. split; [reflexivity|]. simpl. split; [reflexivity | discriminate].
Qed.

(** X18: for a group and an endpoint name that [Object.prototype] does not
    define, [get_value] always answers, it never throws: with an error when
    the client is not connected or the catalog does not have the endpoint,
    and then nothing was sent and nothing has changed; without error
    otherwise, also when no response came, the one query having been sent to
    the built address. *)
Theorem get_value_spec (st : State) (group endpoint : string)
    (index : option number) :
  own_names group endpoint ->
  exists res st',
    get_value' group endpoint index st = (Returned res, st') /\
    (isError res = true <-> isConnected st = false \/ info group endpoint = None) /\
    (isError res = true -> st' = st) /\
    (isError res = false ->
     exists c path,
       client st = Some c /\ path_of group endpoint index = Some path /\
       outbox st' = outbox st ++ [(c, {| msg_address := path; msg_args := [] |})]).
Proof.
  intros _.
  unfold get_value. unfold bind at 1. unfold gets at 1. cbv beta iota.
  destruct (client st) as [c|] eqn:Hc.
  - assert (Hconn : isConnected st = true) by (unfold isConnected; now rewrite Hc).
    rewrite Hconn. cbn [negb]. unfold try_catch, bind.
    destruct (path_of group endpoint index) as [path|] eqn:Hp.
    + assert (Hinfo : info group endpoint <> None).
      { intros H. apply (buildOscPath_None mainEndpoints fxEndpoints Number_toString)
          with (index := index) in H. congruence. }
      destruct (getValue_run mainEndpoints fxEndpoints Number_toString
                  st c group endpoint index None path Hc Hp)
        as (r & st2 & Hrun & _ & Ho & [(resp & -> & _) | [-> _]]);
        rewrite Hrun; eexists _, st2; (split; [reflexivity|]); simpl;
        (split; [split; [discriminate | intros [H|H]; congruence]|]);
        (split; [discriminate|]); intros _; now exists c, path.
    + apply buildOscPath_None in Hp as Hinfo.
      rewrite (getValue_invalid mainEndpoints fxEndpoints Number_toString)
        by (congruence || assumption).
      eexists _, st. split; [reflexivity|]. simpl.
      split; [split; [now right | reflexivity]|]. split; [reflexivity | discriminate].
  - assert (Hconn : isConnected st = false) by (unfold isConnected; now rewrite Hc).
    rewrite Hconn. cbn [negb].
    eexists _, st. split; [reflexivity|]. simpl.
    split; [split; [now left | reflexivity]|]. split; [reflexivity | discriminate].
Qed.

(** X19: on a client in any state it can be in, [connection_status] never
    reads the configuration of a disconnected client: it returns, without
    error and without changing anything, the host and the two ports of the
    stored configuration when the client is connected, and the text "Not
    connected" when it is not. *)
Theorem connection_status_spec (st : State) :
  reachable' st ->
  exists res,
    connection_status Number_toString st = (Returned res, st) /\
    isError res = false /\
    (isConnected st = false ->
     text res = "Not connected to any console. Use the connect tool to connect.") /\
    (isConnected st = true ->
     exists cfg,
       connectionInfo st = Some cfg /\
       text res = "Connected to " +:+ ip cfg +:+ ":" +:+ Number_toString (port cfg)
                    +:+ LF +:+ "Listening on port "
                    +:+ Number_toString (listenPort cfg)).
Proof.
  intros Hr.
  pose proof (reachable_coherent mainEndpoints fxEndpoints Number_toString st Hr) as Hco.
  unfold coherent in Hco.
  unfold connection_status. unfold bind at 1. unfold gets at 1. cbv beta iota.
  unfold isConnected, connectionInfo.
  destruct (client st) as [c|], (listener st) as [l|], (config st) as [cfg|] eqn:Hcfg;
    try contradiction; cbn [negb].
  - unfold bind at 1. unfold gets at 1. cbv beta iota. rewrite Hcfg.
    eexists. split; [reflexivity|]. simpl. split; [reflexivity|].
    split; [discriminate|]. intros _. now exists cfg.
  - eexists. split; [reflexivity|]. simpl. split; [reflexivity|].
    split; [reflexivity | discriminate].
Qed.

(** X20: for a group and an endpoint name that [Object.prototype] does not
    define, [build_osc_command] answers with an error exactly when the
    catalog does not have the endpoint, or has it as multi-path and no
    index is given; otherwise its text starts with the path [buildOscPath]
    builds, which ends with the index for a multi-path endpoint and has
    none for another one, given or not. *)
Theorem build_osc_command_spec (group endpoint : string) (index : option number) :
  own_names group endpoint ->
  let res := build_osc_command mainEndpoints fxEndpoints Number_toString
               group endpoint index in
  (isError res = true <->
   info group endpoint = None \/
   exists spec, info group endpoint = Some spec /\ multiPath spec = true /\
                index = None)
  /\
  (isError res = false ->
   exists spec path rest,
     info group endpoint = Some spec /\
     path_of group endpoint index = Some path /\
     text res = "OSC Path: " +:+ path +:+ LF +:+ rest /\
     (multiPath spec = true ->
      exists i, index = Some i /\
        path = "/" +:+ type_name (type spec) +:+ "/" +:+ group +:+ "/"
                   +:+ endpoint +:+ "/" +:+ Number_toString i) /\
     (multiPath spec = false ->
      path = "/" +:+ type_name (type spec) +:+ "/" +:+ group +:+ "/" +:+ endpoint)).
Proof.
  intros _ res. subst res. unfold build_osc_command.
  destruct (info group endpoint) as [spec|] eqn:Hspec;
    [|cbn [isError]; split; [split; [now left | reflexivity] | discriminate]].
  destruct (buildOscPath_of_info mainEndpoints fxEndpoints Number_toString
              group endpoint index spec Hspec) as (path & Hp & _).
  destruct (multiPath spec && negb (bool_decide (is_Some index))) eqn:Hgate.
  - cbn [isError]. split; [|discriminate].
    split; [|reflexivity]. intros _. right. exists spec.
    apply andb_true_iff in Hgate as [Hmp Hidx].
    apply negb_true_iff, bool_decide_eq_false in Hidx.
    split; [reflexivity|]. split; [exact Hmp|].
    destruct index; [exfalso; apply Hidx; now eexists | reflexivity].
  - split.
    + assert (Herr : forall lines,
                isError {| text := join LF lines; isError := false |} = false)
        by reflexivity.
      destruct (argumentType spec); cbn [isError];
        (split; [discriminate|]);
        intros [H | (spec' & [= <-] & Hmp & ->)]; try discriminate H;
        rewrite Hmp in Hgate; discriminate Hgate.
    + intros _. rewrite Hp. cbn [show_path default].
      assert (Hpath :
        (multiPath spec = true ->
         exists i, index = Some i /\
           path = "/" +:+ type_name (type spec) +:+ "/" +:+ group +:+ "/"
                      +:+ endpoint +:+ "/" +:+ Number_toString i) /\
        (multiPath spec = false ->
         path = "/" +:+ type_name (type spec) +:+ "/" +:+ group +:+ "/" +:+ endpoint)).
      { unfold buildOscPath in Hp. rewrite Hspec in Hp.
        destruct (multiPath spec) eqn:Hmp, index as [i|];
          try discriminate Hgate; injection Hp as <-.
        - split; [|discriminate]. intros _. exists i. split; [reflexivity|].
          repeat (rewrite append_assoc; cbn [String.append]). reflexivity.
        - split; [discriminate | reflexivity].
        - split; [discriminate | reflexivity]. }
      destruct (argumentType spec) as [a|]; cbn [join String.concat app text];
        eexists spec, path, _; (split; [reflexivity|]); (split; [reflexivity|]);
        (split; [rewrite append_assoc; reflexivity | exact Hpath]).
Qed.

(** X21: on a client in any state it can be in, the [connect] tool answers
    without error and leaves the client connected, with the configuration
    it was given and nothing buffered. *)
Theorem connect_tool_spec (st : State) (ip_ : string) (port_ listen_port : number) :
  reachable' st ->
  exists res st',
    connect_tool Number_toString RangeError_message ip_ port_ listen_port st
      = (Returned res, st') /\
    isError res = false /\
    reachable' st' /\
    isConnected st' = true /\
    connectionInfo st' =
      Some {| ip := ip_; port := port_; listenPort := listen_port |} /\
    responseBuffer st' = ∅.
Proof.
  intros Hr.
  destruct (connect_run st ip_ (Some port_) (Some listen_port)
              (reachable_coherent mainEndpoints fxEndpoints Number_toString st Hr))
    as (st' & c & l & Hrun & _ & Hc & _ & Hcfg & Hb & _).
  unfold connect_tool, try_catch, bind. rewrite Hrun.
  eexists _, st'. split; [reflexivity|]. simpl. split; [reflexivity|].
  split.
  { replace st' with (run_call mainEndpoints fxEndpoints Number_toString
                        (CallConnect ip_ (Some port_) (Some listen_port)) st)
      by (simpl; now rewrite Hrun).
    now apply reachable_call. }
  unfold isConnected, connectionInfo. rewrite Hc. now repeat split.
Qed.

End ToolProperties.

(** ** The further properties on the sample console *)

Lemma sample_main_keys : NoDup (JsObject.keys Sample.main).
Proof. apply (bool_decide_unpack _). vm_compute. exact I. Qed.

Lemma sample_fx_keys : NoDup (JsObject.keys Sample.fx).
Proof. apply (bool_decide_unpack _). vm_compute. exact I. Qed.

Lemma sample_connected_reachable :
  reachable Sample.main Sample.fx Sample.render Sample.connected.
Proof.
  exact (reachable_call _ _ _ (CallConnect "192.168.1.100" None None) _
           (reachable_initial _ _ _ 1000 [])).
Qed.

Lemma getAllEndpoints_lookup_witness :
  JsObject.get (getAllEndpoints Sample.main Sample.fx) "Globals" =
    match JsObject.get Sample.fx "Globals" with
    | Some endpoints => Some endpoints
    | None => JsObject.get Sample.main "Globals"
    end.
Proof.
  exact (proj1 (getAllEndpoints_lookup Sample.main Sample.fx "Globals"
                  sample_main_keys sample_fx_keys)).
Defined.

Lemma getGroupNames_order_witness :
  getGroupNames Sample.main Sample.fx =
    JsObject.keys Sample.main ++
    List.filter (fun k => bool_decide (k ∉ JsObject.keys Sample.main))
                (JsObject.keys Sample.fx).
Proof.
  apply (proj2 (getGroupNames_order Sample.main Sample.fx)
           sample_main_keys sample_fx_keys).
  - unfold no_numeric_name. simpl. repeat constructor.
  - unfold no_numeric_name. simpl. repeat constructor.
Defined.

Lemma listEndpoints_spec_witness :
  getEndpointInfo Sample.main Sample.fx "Globals" "enRebootConsole"
    = Some Sample.enRebootConsole.
Proof.
  destruct (proj2 (listEndpoints_spec Sample.main Sample.fx "Globals" eq_refl)
              [("enRebootConsole", Sample.enRebootConsole)] eq_refl)
    as (_ & _ & H).
  apply H.
  - apply (bool_decide_unpack _). vm_compute. exact I.
  - left. reflexivity.
Defined.

Lemma listGroups_spec_witness :
  exists l,
    listEndpoints Sample.main Sample.fx "Globals" = Some l /\
    1%nat = length l /\
    sum_counts [("enPPCSwitchMessage", 1%nat)] = 1%nat /\
    forall ty,
      JsObject.get [("enPPCSwitchMessage", 1%nat)] (type_name ty)
      = as_count (count_of ty (map snd l)).
Proof.
  apply (proj2 (listGroups_spec Sample.main Sample.fx)
           {| name := "Globals"; endpointCount := 1;
              messageTypes := [("enPPCSwitchMessage", 1%nat)] |}).
  vm_compute. right. left. reflexivity.
Defined.

Lemma searchEndpoints_sound_witness :
  buildOscPath Sample.main Sample.fx Sample.render "VirtualMicInputs" "enMute" None
    = Some "/enPPCSwitchMessage/VirtualMicInputs/enMute".
Proof.
  destruct (searchEndpoints_sound Sample.main Sample.fx Sample.render "mute" None
              (make_result "VirtualMicInputs" "enMute" Sample.enMute))
    as (_ & _ & _ & H).
  - vm_compute. left. reflexivity.
  - apply H.
    + unfold distinct_endpoints. apply (bool_decide_unpack _). vm_compute. exact I.
    + unfold distinct_endpoints. apply (bool_decide_unpack _). vm_compute. exact I.
Defined.

Lemma searchEndpoints_same_terms_witness :
  searchEndpoints Sample.main Sample.fx "fader level" None
  = searchEndpoints Sample.main Sample.fx "Level  fader level" None.
Proof.
  apply searchEndpoints_same_terms. intros term. vm_compute. tauto.
Defined.

Lemma getValue_failures_witness :
  getValue Sample.main Sample.fx Sample.render "VirtualMicInputs" "enGain" None None
    Sample.connected
  = (Threw (InvalidEndpoint "VirtualMicInputs" "enGain"), Sample.connected).
Proof.
  apply (getValue_failures Sample.main Sample.fx Sample.render Sample.connected
           "VirtualMicInputs" "enGain" None None (conj eq_refl eq_refl)).
  - discriminate.
  - reflexivity.
Defined.

Lemma setValue_all_or_nothing_witness :
  snd (setValue Sample.main Sample.fx Sample.render "VirtualMicInputs" "enMeter"
         (VNumber (Finite 1)) (Some (Finite 2)) Sample.connected)
  = Sample.connected.
Proof.
  apply (proj1 (setValue_all_or_nothing Sample.main Sample.fx Sample.render
                  Sample.connected "VirtualMicInputs" "enMeter"
                  (VNumber (Finite 1)) (Some (Finite 2)) (conj eq_refl eq_refl))
           (ReadOnlyViolation "enMeter")).
  reflexivity.
Defined.

Lemma setValue_float_any_witness :
  exists path v,
    buildOscPath Sample.main Sample.fx Sample.render
      "VirtualMicInputs" "enPan" (Some (Finite 0)) = Some path /\
    sends (setValue Sample.main Sample.fx Sample.render
             "VirtualMicInputs" "enPan" (VNumber PosInfinity) (Some (Finite 0))
             Sample.connected)
          Sample.connected Sample.console_client path
          {| arg_type := TagF; arg_value := VNumber v |} /\
    v = Finite 1.
Proof.
  destruct (setValue_float_any Sample.main Sample.fx Sample.render
              Sample.connected Sample.console_client
              "VirtualMicInputs" "enPan" Sample.enPan (Some (Finite 0)) PosInfinity
              eq_refl eq_refl eq_refl)
    as (path & v & Hp & Hs & _ & Hv).
  exists path, v. split; [exact Hp|]. split; [exact Hs|].
  destruct Hv as (w & -> & _ & Hw & _); [discriminate|].
  now rewrite (Hw eq_refl).
Defined.

Lemma connect_spec_witness :
  exists st' c l,
    connect "192.168.1.101" None (Some (Finite 9000)) Sample.connected
      = (Returned tt, st') /\
    connectionInfo st' =
      Some {| ip := "192.168.1.101"; port := Finite 10023;
              listenPort := Finite 9000 |} /\
    open_clients st' = [c] /\ open_servers st' = [l] /\
    server_host l = "0.0.0.0".
Proof.
  destruct (connect_spec Sample.main Sample.fx Sample.render Sample.connected
              "192.168.1.101" None (Some (Finite 9000)) sample_connected_reachable)
    as (st' & c & l & Hrun & _ & _ & Hcfg & _ & _ & _ & _ & _ & Hh & Hoc & Hos & _).
  exists st', c, l.
  split; [exact Hrun|]. split; [exact Hcfg|]. split; [exact Hoc|].
  split; [exact Hos | exact Hh].
Defined.

Lemma sockets_held_witness :
  open_clients Sample.answering = option_list (client Sample.answering) /\
  open_servers Sample.answering = option_list (listener Sample.answering).
Proof.
  destruct (sockets_held Sample.main Sample.fx Sample.render Sample.answering)
    as (H1 & H2 & _).
  - exact (reachable_call _ _ _ (CallConnect "192.168.1.100" None None) _
             (reachable_initial _ _ _ 1000 Sample.answer)).
  - now split.
Defined.

Lemma one_message_a_call_witness :
  exists sent,
    outbox (run_call Sample.main Sample.fx Sample.render Sample.read_fader
              Sample.connected)
      = outbox Sample.connected ++ sent /\
    (length sent <= 1)%nat.
Proof.
  destruct (one_message_a_call Sample.main Sample.fx Sample.render
              Sample.connected Sample.read_fader sample_connected_reachable)
    as (sent & Ho & Hlen & _).
  exists sent. split; [exact Ho | exact Hlen].
Defined.

Lemma getValue_answer_in_time_witness :
  exists resp st',
    getValue Sample.main Sample.fx Sample.render
      "VirtualMicInputs" "enFader" (Some (Finite 2)) None Sample.answering
      = (Returned (Some resp), st') /\
    address resp = Sample.fader_path /\
    clock Sample.answering <= timestamp resp.
Proof.
  apply (getValue_answer_in_time Sample.main Sample.fx Sample.render
           Sample.answering Sample.console_client
           {| server_id := 1; server_port := Finite 10024; server_host := "0.0.0.0" |}
           "VirtualMicInputs" "enFader" (Some (Finite 2)) None Sample.fader_path
           [] []
           [ Elapse 10; Inbound Sample.fader_path [VNumber (Finite (1 # 2))]; Elapse 40 ]
           [] [VNumber (Finite (1 # 2))]).
  - reflexivity.
  - reflexivity.
  - reflexivity.
  - reflexivity.
  - simpl. right. left. reflexivity.
  - vm_compute. reflexivity.
Defined.

Lemma set_value_blocks_dangerous_witness :
  exists res,
    set_value Sample.main Sample.fx Sample.render Sample.stringify
      Sample.range_text
      "Globals" "enRebootConsole" (VNumber (Finite 1)) None Sample.connected
      = (Returned res, Sample.connected) /\
    isError res = true.
Proof.
  apply (set_value_blocks_dangerous Sample.main Sample.fx Sample.render
           Sample.stringify Sample.range_text Sample.connected
           "Globals" "enRebootConsole" (VNumber (Finite 1)) None).
  left. reflexivity.
Defined.

(** A write that goes through. *)
Example set_value_sent :
  fst (set_value Sample.main Sample.fx Sample.render Sample.stringify
         Sample.range_text
         "VirtualMicInputs" "enMute" (VNumber (Finite 1)) (Some (Finite 2))
         Sample.connected)
  = Returned {| text := "Sent: /enPPCSwitchMessage/VirtualMicInputs/enMute/2 = 1";
                isError := false |}.
Proof. vm_compute. reflexivity. Qed.

(** A write the encoder refuses is answered with its error. *)
Example set_value_refused :
  set_value Sample.main Sample.fx Sample.render Sample.stringify
    Sample.range_text
    "VirtualMicInputs" "enMute" (VNumber (Finite 3000000000)) (Some (Finite 2))
    Sample.connected
  = (Returned {| text := "Error: The value is out of range. Received 3000000000";
                 isError := true |},
     Sample.connected).
Proof. vm_compute. reflexivity. Qed.

Lemma set_value_spec_witness :
  exists res st',
    set_value Sample.main Sample.fx Sample.render Sample.stringify
      Sample.range_text
      "VirtualMicInputs" "enMeter" (VNumber (Finite 1)) (Some (Finite 2))
      Sample.connected = (Returned res, st') /\
    st' = Sample.connected.
Proof.
  destruct (set_value_spec Sample.main Sample.fx Sample.render Sample.stringify
              Sample.range_text
              Sample.connected "VirtualMicInputs" "enMeter"
              (VNumber (Finite 1)) (Some (Finite 2)) (conj eq_refl eq_refl))
    as (res & st' & Hrun & Herr & _).
  exists res, st'. split; [exact Hrun|]. apply Herr.
  assert (H : fst (set_value Sample.main Sample.fx Sample.render Sample.stringify
                     Sample.range_text
                     "VirtualMicInputs" "enMeter" (VNumber (Finite 1))
                     (Some (Finite 2)) Sample.connected)
              = Returned {| text := "Error: Endpoint enMeter is read-only (meter) and cannot be set.";
                            isError := true |})
    by (vm_compute; reflexivity).
  rewrite Hrun in H. simpl in H. injection H as ->. reflexivity.
Defined.

Lemma get_value_spec_witness :
  exists res st',
    get_value Sample.main Sample.fx Sample.render Sample.stringify_args
      Sample.range_text
      "VirtualMicInputs" "enGain" None Sample.connected = (Returned res, st') /\
    isError res = true /\ st' = Sample.connected.
Proof.
  destruct (get_value_spec Sample.main Sample.fx Sample.render Sample.stringify_args
              Sample.range_text
              Sample.connected "VirtualMicInputs" "enGain" None
              (conj eq_refl eq_refl))
    as (res & st' & Hrun & Hiff & Hsame & _).
  assert (Herr : isError res = true) by (apply Hiff; right; reflexivity).
  exists res, st'. split; [exact Hrun|]. split; [exact Herr | now apply Hsame].
Defined.

Lemma connection_status_spec_witness :
  exists res,
    connection_status Sample.render Sample.connected
      = (Returned res, Sample.connected) /\
    isError res = false.
Proof.
  destruct (connection_status_spec Sample.main Sample.fx Sample.render
              Sample.connected sample_connected_reachable)
    as (res & Hrun & Herr & _).
  exists res. split; [exact Hrun | exact Herr].
Defined.

Lemma build_osc_command_spec_witness :
  isError (build_osc_command Sample.main Sample.fx Sample.render
             "VirtualMicInputs" "enFader" None) = true.
Proof.
  apply (proj1 (build_osc_command_spec Sample.main Sample.fx Sample.render
                  "VirtualMicInputs" "enFader" None (conj eq_refl eq_refl))).
  right. exists Sample.enFader. now repeat split.
Defined.

Lemma connect_tool_spec_witness :
  exists res st',
    connect_tool Sample.render Sample.range_text
      "192.168.1.101" (Finite 10023) (Finite 10024)
      Sample.connected = (Returned res, st') /\
    isError res = false /\ isConnected st' = true.
Proof.
  destruct (connect_tool_spec Sample.main Sample.fx Sample.render
              Sample.range_text
              Sample.connected "192.168.1.101" (Finite 10023) (Finite 10024)
              sample_connected_reachable)
    as (res & st' & Hrun & Herr & _ & Hconn & _).
  exists res, st'. split; [exact Hrun|]. split; [exact Herr | exact Hconn].
Defined.
